(** * pyftdi.i2c: the I2C master synthesized over the FTDI MPSSE engine

    A shallow embedding of [pyftdi/i2c.py] ([I2cPort] and [I2cController])
    and the properties of its transaction protocol: validation, prolog,
    payload write, chunked read, epilog and the retry loop.

    Python integers are [Z]; floats are the binary64 numbers of the
    kernel; byte strings, tuples of bytes and [Array('B')] buffers are
    [list Z]; the [_slaves] dictionary and the keyword arguments are
    [gmap]s; exceptions are an outcome of every method; the calls made
    on the [Ftdi] object are recorded, in order, with what they
    returned.
    The calls on [self.log] have no effect on the controller or on the
    bus and are left out; the payload [out] is a bytes object. *)

From Stdlib Require Import ZArith QArith List String Lia Bool.
From Stdlib Require Import Floats.PrimFloat.
From Stdlib Require Floats.SpecFloat Floats.FloatOps.
From stdpp Require Import gmap list strings.

Local Open Scope string_scope.
Local Open Scope list_scope.
Local Open Scope Z_scope.

(** ** Exceptions and outcomes *)

(** Exceptions that come from outside [pyftdi/i2c.py]: the two classes of
    [pyftdi.ftdi] and the built-in ones ([TypeError], [AttributeError],
    [struct.error], ...). *)
Inductive foreign_exn : Type :=
| FtdiError (msg : string)
| FtdiFeatureError (msg : string)
| BuiltinError (name : string).

(** [I2cNackError] is a subclass of [I2cIOError]; an [except I2cNackError]
    clause catches the former only. *)
Inductive exn : Type :=
| I2cIOError (msg : string)
| I2cNackError (msg : string)
| Foreign (e : foreign_exn).

Definition is_nack_error (e : exn) : bool :=
  match e with I2cNackError _ => true | _ => false end.

(** How a call ends: it returns, it raises, or it never ends. *)
Inductive outcome (A : Type) : Type :=
| Ok (a : A)
| Raise (e : exn)
| Diverge.
Arguments Ok {A} a.
Arguments Raise {A} e.
Arguments Diverge {A}.

(** ** Values and floats *)

(** The values a caller passes as keyword arguments: [None], booleans,
    integers, floats and strings. *)
Inductive pyval : Type :=
| PyNone
| PyBool (b : bool)
| PyInt (n : Z)
| PyFloat (x : float)
| PyStr (s : string).

(** [bool(v)] *)
Definition truthy (v : pyval) : bool :=
  match v with
  | PyNone => false
  | PyBool b => b
  | PyInt n => negb (n =? 0)
  | PyFloat x => negb (PrimFloat.eqb x PrimFloat.zero)
  | PyStr s => negb (String.eqb s "")
  end.

(** [float(n)] for an integer: the nearest double, ties to even, and
    [OverflowError] when it is out of the range of the doubles. *)
Definition float_of_int (n : Z) : outcome float :=
  let x := FloatOps.SF2Prim
             (SpecFloat.binary_normalize FloatOps.prec FloatOps.emax n 0
                                         false) in
  if PrimFloat.is_infinity x
  then Raise (Foreign (BuiltinError "OverflowError"))
  else Ok x.

(** [x * v] for a float [x]: an integer (a boolean is one) is converted
    first; anything else is a [TypeError]. *)
Definition float_mul (x : float) (v : pyval) : outcome float :=
  match v with
  | PyFloat y => Ok (PrimFloat.mul x y)
  | PyInt n =>
      match float_of_int n with
      | Ok y => Ok (PrimFloat.mul x y)
      | Raise e => Raise e
      | Diverge => Diverge
      end
  | PyBool b =>
      Ok (PrimFloat.mul x (if b then PrimFloat.one else PrimFloat.zero))
  | PyNone | PyStr _ => Raise (Foreign (BuiltinError "TypeError"))
  end.

(** The rational a finite float stands for. *)
Definition Q_of_float (x : float) : Q :=
  match FloatOps.Prim2SF x with
  | SpecFloat.S754_finite s m e =>
      let n := if s then Z.neg m else Z.pos m in
      if 0 <=? e then inject_Z (n * 2 ^ e)
      else (inject_Z n / inject_Z (2 ^ (- e)))%Q
  | _ => 0%Q
  end.

(** ** The interface of [pyftdi.ftdi.Ftdi] used by the controller

    The class is imported by [i2c.py] and is not part of it: its opcode
    constants and its methods are the fields of this interface.  A method
    returns the next state of the engine with its result. *)
Class FtdiApi (F : Type) : Type := {
  SET_BITS_LOW : Z;
  READ_BITS_PVE_MSB : Z;
  READ_BYTES_PVE_MSB : Z;
  WRITE_BYTES_NVE_MSB : Z;
  WRITE_BITS_NVE_MSB : Z;
  SEND_IMMEDIATE : Z;
  (* Ftdi() *)
  Ftdi_new : F;
  (* write_data(data); data is None when the caller passes None *)
  write_data : option (list Z) -> F -> F * option foreign_exn;
  (* read_data_bytes(size, attempt) *)
  read_data_bytes : Z -> Z -> F -> F * (foreign_exn + list Z);
  (* open_mpsse_from_url(url, direction, initial, frequency, **kwargs);
     the frequency it returns is a number the module only stores *)
  open_mpsse_from_url :
    string -> Z -> Z -> float -> gmap string pyval -> F
    -> F * (foreign_exn + Q);
  (* fifo_sizes, as (tx, rx) *)
  fifo_sizes : F -> Z * Z;
  enable_adaptive_clock : bool -> F -> F * option foreign_exn;
  enable_3phase_clock : bool -> F -> F * option foreign_exn;
  enable_drivezero_mode : Z -> F -> F * option foreign_exn;
  purge_buffers : F -> F * option foreign_exn;
  close : F -> F
}.

(** One call of [write_data] or [read_data_bytes], with its arguments and
    with what the engine answered. *)
Inductive event : Type :=
| EvWrite (cmd : option (list Z)) (res : option foreign_exn)
| EvRead (size attempt : Z) (res : foreign_exn + list Z).

(** ** Python helpers *)

(** [t * n] on a tuple: empty when [n <= 0]. *)
Definition tuple_mul (t : list Z) (n : Z) : list Z :=
  concat (repeat t (Z.to_nat n)).

(** [struct.calcsize] on the one-letter formats of [FORMATS]. *)
Definition scalc (fmt : string) : Z :=
  if String.eqb fmt "B" then 1
  else if String.eqb fmt "H" then 2
  else if String.eqb fmt "I" then 4
  else 0.

(** The bytes of [v], least significant first, on [n] bytes. *)
Fixpoint le_bytes (n : nat) (v : Z) : list Z :=
  match n with
  | O => []
  | S n' => Z.land v 0xff :: le_bytes n' (Z.shiftr v 8)
  end.

(** [struct.pack(endian + format, v)] for the formats the port builds:
    [struct.error] when [v] does not fit the unsigned format. *)
Definition spack (fmt : string) (v : Z) : outcome (list Z) :=
  match fmt with
  | String e (String f EmptyString) =>
      let width := scalc (String f EmptyString) in
      if width =? 0 then Raise (Foreign (BuiltinError "struct.error"))
      else if (v <? 0) || (Z.shiftl 1 (8 * width) <=? v)
      then Raise (Foreign (BuiltinError "struct.error"))
      else
        let le := le_bytes (Z.to_nat width) v in
        if String.eqb (String e EmptyString) ">" then Ok (rev le)
        else if String.eqb (String e EmptyString) "<" then Ok le
        else Raise (Foreign (BuiltinError "struct.error"))
  | _ => Raise (Foreign (BuiltinError "struct.error"))
  end.

(** ** Objects *)

(** An [I2cPort] instance.  Its [_controller] attribute is the one
    controller of the state it lives in. *)
Record I2cPort : Type := mkPort {
  _address : Z;
  _shift : Z;
  _endian : string;
  _format : string
}.

(** [I2cPort.FORMATS = {scalc(fmt): fmt for fmt in 'BHI'}]. *)
Definition FORMATS : gmap Z string :=
  fold_left (fun m fmt => <[scalc fmt := fmt]> m) ["B"; "H"; "I"] ∅.

(** Class constants of [I2cController]. *)
Definition LOW : Z := 0x00.
Definition HIGH : Z := 0xff.
Definition BIT0 : Z := 0x01.
Definition IDLE : Z := HIGH.
Definition SCL_BIT : Z := 0x01.
Definition SDA_O_BIT : Z := 0x02.
Definition SDA_I_BIT : Z := 0x04.
Definition PAYLOAD_MAX_LENGTH : Z := 0x10000.
Definition HIGHEST_I2C_ADDRESS : Z := 0x7f.
Definition DEFAULT_BUS_FREQUENCY : float := 100000%float.
Definition HIGH_BUS_FREQUENCY : float := 400000%float.
Definition RETRY_COUNT : Z := 3.

(** An [I2cController] instance with the objects it owns.  [I2cPort]
    instances live in [ports] and are named by their index there, so that
    two references to one port are the same index.  [io_log] is not a
    Python attribute: it is the record of the calls made on [_ftdi]. *)
Record I2cController (F : Type) : Type := mkController {
  _ftdi : option F;
  _slaves : gmap Z nat;
  ports : list I2cPort;
  _frequency : Q;
  _tx_size : Z;
  _rx_size : Z;
  io_log : list event
}.
Arguments mkController {F}.
Arguments _ftdi {F}.
Arguments _slaves {F}.
Arguments ports {F}.
Arguments _frequency {F}.
Arguments _tx_size {F}.
Arguments _rx_size {F}.
Arguments io_log {F}.

(** [frequency = (3.0*frequency)/2.0], with the frequency taken from
    the keyword arguments or the default one. *)
Definition requested_frequency (kwargs : gmap string pyval)
    : outcome float :=
  let frequency :=
    match kwargs !! "frequency" with
    | Some v => v
    | None => PyFloat DEFAULT_BUS_FREQUENCY
    end in
  (* Fix frequency for 3-phase clock *)
  match float_mul 3%float frequency with
  | Ok x => Ok (PrimFloat.div x 2%float)
  | Raise e => Raise e
  | Diverge => Diverge
  end.

(** What a top-level operation returns. *)
Inductive retval : Type :=
| RBytes (data : list Z)
| RNone
| RBool (b : bool).

(** The four bus operations of the controller, as one request. *)
Inductive call : Type :=
| CallRead (address readlen : Z)
| CallWrite (address : Z) (out : list Z)
| CallExchange (address : Z) (out : list Z) (readlen : Z)
| CallPoll (address : Z).

(** ** Loops without a bound

    The [while count:] loop of [_do_read] ends when the count reaches
    zero or when the engine raises, and nothing bounds the number of
    its iterations.  A run is followed for a number of iterations: the
    [readlen] iterations that a positive chunk size needs at most, and
    [iterations] more.  [Diverge] then says that the call has not ended
    within them.  Every property below holds for every value of
    [iterations]; a run of the code that ends is the run of the model
    for any value at least the number of iterations it made. *)
Class Patience : Type := { iterations : nat }.

(** ** The controller and its ports *)

Declare Scope i2c_scope.
Delimit Scope i2c_scope with i2c.

Section Controller.
Context {F : Type} {api : FtdiApi F} {patience : Patience}.

(** A method: it runs on the state of the controller and ends with an
    outcome and the state it leaves. *)
Definition M (A : Type) : Type :=
  I2cController F -> outcome A * I2cController F.

Definition ret {A : Type} (a : A) : M A := fun c => (Ok a, c).

Definition raise {A : Type} (e : exn) : M A := fun c => (Raise e, c).

Definition bind {A B : Type} (m : M A) (k : A -> M B) : M B :=
  fun c =>
    match m c with
    | (Ok a, c') => k a c'
    | (Raise e, c') => (Raise e, c')
    | (Diverge, c') => (Diverge, c')
    end.

Notation "'let!' x ':=' m 'in' k" := (bind m (fun x => k))
  (at level 10, x name, m at level 100, k at level 200) : i2c_scope.
Notation "m ';;;' k" := (bind m (fun _ => k))
  (at level 100, k at level 200, right associativity) : i2c_scope.
Local Open Scope i2c_scope.

(** [try: body finally: fin].  The [finally] clause runs however the
    body ends; when it raises, its exception replaces the outcome of
    the body. *)
Definition try_finally {A : Type} (body : M A) (fin : M unit) : M A :=
  fun c =>
    match body c with
    | (Diverge, c1) => (Diverge, c1)
    | (r, c1) =>
        match fin c1 with
        | (Ok _, c2) => (r, c2)
        | (Raise e, c2) => (Raise e, c2)
        | (Diverge, c2) => (Diverge, c2)
        end
    end.

(** *** Calls on [self._ftdi] *)

Definition set_ftdi (c : I2cController F) (f : option F)
    (evs : list event) : I2cController F :=
  mkController f (_slaves c) (ports c) (_frequency c)
               (_tx_size c) (_rx_size c) (io_log c ++ evs).

(** [self._ftdi.write_data(cmd)] *)
Definition ftdi_write_data (cmd : option (list Z)) : M unit :=
  fun c =>
    match _ftdi c with
    | None => (Raise (Foreign (BuiltinError "AttributeError")), c)
    | Some f =>
        let (f', res) := write_data cmd f in
        let c' := set_ftdi c (Some f') [EvWrite cmd res] in
        match res with
        | None => (Ok tt, c')
        | Some e => (Raise (Foreign e), c')
        end
    end.

(** [self._ftdi.read_data_bytes(size, attempt)] *)
Definition ftdi_read_data_bytes (size attempt : Z) : M (list Z) :=
  fun c =>
    match _ftdi c with
    | None => (Raise (Foreign (BuiltinError "AttributeError")), c)
    | Some f =>
        let (f', res) := read_data_bytes size attempt f in
        let c' := set_ftdi c (Some f') [EvRead size attempt res] in
        match res with
        | inr buf => (Ok buf, c')
        | inl e => (Raise (Foreign e), c')
        end
    end.

(** *** Command templates, built by [I2cController.__init__] and never
    assigned again *)

Definition _direction : Z := Z.lor SCL_BIT SDA_O_BIT.
Definition _immediate : list Z := [SEND_IMMEDIATE].
Definition _idle : list Z := [SET_BITS_LOW; IDLE; _direction].
Definition data_low : list Z :=
  [SET_BITS_LOW; Z.land IDLE (Z.lnot SDA_O_BIT); _direction].
Definition clock_low_data_low : list Z :=
  [SET_BITS_LOW; Z.land IDLE (Z.lnot (Z.lor SDA_O_BIT SCL_BIT));
   _direction].
Definition _clock_low_data_high : list Z :=
  [SET_BITS_LOW; Z.land IDLE (Z.lnot SCL_BIT); _direction].
Definition _read_bit : list Z := [READ_BITS_PVE_MSB; 0].
Definition _read_byte : list Z := [READ_BYTES_PVE_MSB; 0; 0].
Definition _write_byte : list Z := [WRITE_BYTES_NVE_MSB; 0; 0].
Definition _nack : list Z := [WRITE_BITS_NVE_MSB; 0; HIGH].
Definition _ack : list Z := [WRITE_BITS_NVE_MSB; 0; LOW].
Definition _start : list Z :=
  tuple_mul data_low 4 ++ tuple_mul clock_low_data_low 4.
Definition _stop : list Z :=
  tuple_mul clock_low_data_low 4 ++ tuple_mul data_low 4
    ++ tuple_mul _idle 4.

(** [I2cController.__init__]: the [Ftdi] object is created here. *)
Definition I2cController__init__ : I2cController F :=
  mkController (Some Ftdi_new) ∅ [] 0%Q 1 1 [].

(** The option an engine call may raise, as a method. *)
Definition lift_engine (step : F -> F * option foreign_exn) : M unit :=
  fun c =>
    match _ftdi c with
    | None => (Raise (Foreign (BuiltinError "AttributeError")), c)
    | Some f =>
        let (f', res) := step f in
        let c' := set_ftdi c (Some f') [] in
        match res with
        | None => (Ok tt, c')
        | Some e => (Raise (Foreign e), c')
        end
    end.

(** [I2cController.configure(url, **kwargs)].  The keys [direction]
    and [initial] are dropped, the frequency is taken out, and what is
    left goes to [open_mpsse_from_url]. *)
Definition configure (url : string) (kwargs : gmap string pyval) : M unit :=
  fun c =>
    let kwargs := delete "initial" (delete "direction" kwargs) in
    match requested_frequency kwargs with
    | Raise e => (Raise e, c)
    | Diverge => (Diverge, c)
    | Ok frequency =>
    let kwargs := delete "frequency" kwargs in
    match _ftdi c with
    | None => (Raise (Foreign (BuiltinError "AttributeError")), c)
    | Some f =>
        match open_mpsse_from_url url _direction IDLE frequency kwargs f with
        | (f1, inl e) => (Raise (Foreign e), set_ftdi c (Some f1) [])
        | (f1, inr actual) =>
            let (tx, rx) := fifo_sizes f1 in
            let c1 := mkController (Some f1) (_slaves c) (ports c) actual
                                   tx rx (io_log c) in
            (lift_engine (enable_adaptive_clock false) ;;;
             lift_engine (enable_3phase_clock true) ;;;
             fun c2 =>
               match lift_engine
                       (enable_drivezero_mode
                          (Z.lor (Z.lor SCL_BIT SDA_O_BIT) SDA_I_BIT)) c2 with
               | (Raise (Foreign (FtdiFeatureError msg)), c3) =>
                   (* if not bool(kwargs.get('notristate', True)): raise *)
                   if negb (truthy (default (PyBool true)
                                            (kwargs !! "notristate")))
                   then (Raise (Foreign (FtdiFeatureError msg)), c3)
                   else (Ok tt, c3)
               | other => other
               end) c1
        end
    end
    end.

(** [I2cController.terminate()] *)
Definition terminate : M unit :=
  fun c =>
    match _ftdi c with
    | Some f =>
        let f' := close f in
        (Ok tt, mkController None (_slaves c) (ports c) (_frequency c)
                             (_tx_size c) (_rx_size c) (io_log c))
    | None => (Ok tt, c)
    end.

(** [if not self._ftdi: raise I2cIOError(...)].  An [Ftdi] instance is
    true as every object whose class defines neither [__bool__] nor
    [__len__]; only [None] is false. *)
Definition check_ftdi : M unit :=
  fun c =>
    match _ftdi c with
    | None => (Raise (I2cIOError "FTDI controller not initialized"), c)
    | Some _ => (Ok tt, c)
    end.

(** [I2cController.validate_address(address)] *)
Definition validate_address (address : Z) : M unit :=
  if HIGHEST_I2C_ADDRESS <? address
  then raise (I2cIOError "No such I2c slave")
  else ret tt.

(** [I2cController.get_port(address)]: the port is returned as its
    index in [ports]. *)
Definition get_port (address : Z) : M nat :=
  check_ftdi ;;;
  validate_address address ;;;
  fun c =>
    match _slaves c !! address with
    | Some p => (Ok p, c)
    | None =>
        let p := length (ports c) in
        (Ok p,
         mkController (_ftdi c) (<[address := p]> (_slaves c))
                      (ports c ++ [mkPort address 0 "<" "B"])
                      (_frequency c) (_tx_size c) (_rx_size c) (io_log c))
    end.

(** *** The phases of a transaction *)

(** The buffer [_do_prolog] sends for the address byte [i2caddress]. *)
Definition prolog_cmd (i2caddress : Z) : list Z :=
  _idle ++ _start ++ _write_byte ++ [i2caddress]
    ++ _clock_low_data_high ++ _read_bit ++ _immediate.

(** What follows the read of the acknowledge bit, in [_do_prolog] and
    in [_do_write]. *)
Definition check_ack (ack : list Z) : M unit :=
  match ack with
  | [] => raise (I2cIOError "No answer from FTDI")
  | a :: _ =>
      if Z.land a BIT0 =? 0 then ret tt
      else raise (I2cNackError "NACK from slave")
  end.

(** [I2cController._do_prolog(i2caddress)] *)
Definition _do_prolog (i2caddress : Z) : M unit :=
  ftdi_write_data (Some (prolog_cmd i2caddress)) ;;;
  let! ack := ftdi_read_data_bytes 1 4 in
  check_ack ack.

(** [I2cController._do_epilog()]: the reply is read and dropped. *)
Definition _do_epilog : M unit :=
  ftdi_write_data (Some _stop) ;;;
  let! _ := ftdi_read_data_bytes 1 1 in
  ret tt.

Definition read_not_last : list Z :=
  _read_byte ++ _ack ++ _clock_low_data_high.
Definition read_last : list Z :=
  _read_byte ++ _nack ++ _clock_low_data_high.

(** The chunk size [_do_read] computes from the FIFO sizes. *)
Definition read_chunk_size (tx_size rx_size : Z) : Z :=
  let chunk_size := rx_size - 2 in
  let cmd_size := Z.of_nat (length read_last) in
  (* limit RX chunk size to the count of I2C packable commands in the
     FTDI TX FIFO (minus one byte for the last 'send immediate'
     command) *)
  let tx_count := (tx_size - 1) / cmd_size in
  Z.min tx_count chunk_size.

(** The command buffer of one block: after the [if]/[else] the names
    [cmd] and [last_cmd] are one object, so one value stands for
    both. *)
Definition block_cmd (last_count block_count : Z)
    (last_cmd : option (list Z)) : option (list Z) :=
  if negb (last_count =? block_count)
  then Some (tuple_mul read_not_last (block_count - 1) ++ read_last)
  else last_cmd.

(** The [while count:] loop of [_do_read].  [last_count] is never
    assigned in the loop.  The loop has no bound of its own: [fuel]
    counts its iterations, and running out of it is [Diverge]. *)
Fixpoint _do_read_loop (fuel : nat) (chunk_size last_count count : Z)
    (last_cmd : option (list Z)) (chunks : list (list Z))
    : M (list (list Z)) :=
  if count =? 0 then ret chunks
  else
    match fuel with
    | O => fun c => (Diverge, c)
    | S fuel' =>
        let block_count := Z.min count chunk_size in
        let count := count - block_count in
        let cmd := block_cmd last_count block_count last_cmd in
        let! cmd :=
          (if count <=? 0
           then (* only force immediate read out on last chunk *)
             match cmd with
             | Some buf => ret (Some (buf ++ _immediate))
             | None => raise (Foreign (BuiltinError "AttributeError"))
             end
           else ret cmd) in
        ftdi_write_data cmd ;;;
        let! buf := ftdi_read_data_bytes block_count 4 in
        _do_read_loop fuel' chunk_size last_count count cmd
                      (chunks ++ [buf])
    end.

(** [I2cController._do_read(readlen)].  When the chunk size is
    positive the count decreases at every iteration, and [readlen]
    iterations are enough; otherwise the loop ends only when the count
    is negative and above the chunk size, after one iteration, or when
    the engine raises, after any number of them. *)
Definition _do_read (readlen : Z) : M (list Z) :=
  fun c =>
    let chunk_size := read_chunk_size (_tx_size c) (_rx_size c) in
    (let! chunks :=
       _do_read_loop (Z.to_nat readlen + iterations) chunk_size 0 readlen
                     None [] in
     ret (concat chunks)) c.

(** The buffer [_do_write] sends for one payload byte. *)
Definition write_cmd (byte : Z) : list Z :=
  _write_byte ++ [byte] ++ _clock_low_data_high ++ _read_bit
    ++ _immediate.

(** [I2cController._do_write(out)] *)
Fixpoint _do_write (out : list Z) : M unit :=
  match out with
  | [] => ret tt
  | byte :: rest =>
      ftdi_write_data (Some (write_cmd byte)) ;;;
      let! ack := ftdi_read_data_bytes 1 4 in
      check_ack ack ;;;
      _do_write rest
  end.

(** *** The retry loop of [read], [write] and [exchange] *)

(** How one iteration of [while True:] ends when it does not raise. *)
Inductive flow (A : Type) : Type :=
| Return (v : A)
| Continue (retries : Z).
Arguments Return {A} v.
Arguments Continue {A} retries.

(** [try: body; return ... except I2cNackError: retries -= 1; if not
    retries: raise] *)
Definition except_nack {A : Type} (body : M A) (retries : Z)
    : M (flow A) :=
  fun c =>
    match body c with
    | (Ok v, c1) => (Ok (Return v), c1)
    | (Raise (I2cNackError msg), c1) =>
        let retries := retries - 1 in
        if retries =? 0 then (Raise (I2cNackError msg), c1)
        else (Ok (Continue retries), c1)
    | (Raise e, c1) => (Raise e, c1)
    | (Diverge, c1) => (Diverge, c1)
    end.

(** One iteration: the [try] statement with its [finally] clause. *)
Definition attempt {A : Type} (body : M A) (retries : Z) : M (flow A) :=
  try_finally (except_nack body retries) _do_epilog.

(** [while True:] around the [try] statement; [fuel] counts the
    iterations as in [_do_read_loop]. *)
Fixpoint retry_loop {A : Type} (fuel : nat) (body : M A) (retries : Z)
    : M A :=
  match fuel with
  | O => fun c => (Diverge, c)
  | S fuel' =>
      let! fl := attempt body retries in
      match fl with
      | Return v => ret v
      | Continue retries' => retry_loop fuel' body retries'
      end
  end.

(** The body of the [try] statement of each operation. *)
Definition read_body (i2caddress readlen : Z) : M (list Z) :=
  _do_prolog i2caddress ;;;
  let! data := _do_read readlen in
  ret data.

Definition write_body (i2caddress : Z) (out : list Z) : M unit :=
  _do_prolog i2caddress ;;;
  _do_write out.

Definition exchange_body (i2caddress : Z) (out : list Z) (readlen : Z)
    : M (list Z) :=
  _do_prolog i2caddress ;;;
  _do_write out ;;;
  _do_prolog (Z.lor i2caddress BIT0) ;;;
  let! data := _do_read readlen in
  ret data.

(** [I2cController.read(address, readlen)] *)
Definition read (address readlen : Z) : M (list Z) :=
  check_ftdi ;;;
  validate_address address ;;;
  if readlen <? 1 then raise (I2cIOError "Nothing to read")
  else
    let i2caddress := Z.land (Z.shiftl address 1) HIGH in
    let i2caddress := Z.lor i2caddress BIT0 in
    retry_loop (Z.to_nat RETRY_COUNT) (read_body i2caddress readlen)
               RETRY_COUNT.

(** [I2cController.write(address, out)] *)
Definition write (address : Z) (out : list Z) : M unit :=
  check_ftdi ;;;
  validate_address address ;;;
  if (length out =? 0)%nat then raise (I2cIOError "Nothing to write")
  else
    let i2caddress := Z.land (Z.shiftl address 1) HIGH in
    retry_loop (Z.to_nat RETRY_COUNT) (write_body i2caddress out)
               RETRY_COUNT.

(** [readlen > (I2cController.PAYLOAD_MAX_LENGTH/3-1)]: [/] is the true
    division, the bound is not an integer. *)
Definition payload_too_large (readlen : Z) : bool :=
  negb (Qle_bool (inject_Z readlen)
                 (inject_Z PAYLOAD_MAX_LENGTH / 3 - 1)%Q).

(** [I2cController.exchange(address, out, readlen)] *)
Definition exchange (address : Z) (out : list Z) (readlen : Z)
    : M (list Z) :=
  check_ftdi ;;;
  validate_address address ;;;
  if (length out =? 0)%nat then raise (I2cIOError "Nothing to write")
  else if readlen <? 1 then raise (I2cIOError "Nothing to read")
  else if payload_too_large readlen
  then raise (I2cIOError "Input payload is too large")
  else
    let i2caddress := Z.land (Z.shiftl address 1) HIGH in
    retry_loop (Z.to_nat RETRY_COUNT)
               (exchange_body i2caddress out readlen) RETRY_COUNT.

(** [I2cController.poll(address)] *)
Definition poll (address : Z) : M bool :=
  check_ftdi ;;;
  validate_address address ;;;
  let i2caddress := Z.land (Z.shiftl address 1) HIGH in
  let i2caddress := Z.lor i2caddress BIT0 in
  try_finally
    (fun c =>
       match _do_prolog i2caddress c with
       | (Ok _, c1) => (Ok true, c1)
       | (Raise (I2cNackError _), c1) => (Ok false, c1)
       | (Raise e, c1) => (Raise e, c1)
       | (Diverge, c1) => (Diverge, c1)
       end)
    _do_epilog.

(** [I2cController.flush()] *)
Definition flush : M unit :=
  ftdi_write_data (Some _immediate) ;;;
  lift_engine purge_buffers.

(** One request served by the method it names. *)
Definition perform (op : call) : M retval :=
  match op with
  | CallRead address readlen =>
      let! data := read address readlen in ret (RBytes data)
  | CallWrite address out =>
      write address out ;;; ret RNone
  | CallExchange address out readlen =>
      let! data := exchange address out readlen in ret (RBytes data)
  | CallPoll address =>
      let! b := poll address in ret (RBool b)
  end.

(** The address byte of the first prolog of a request. *)
Definition first_i2caddress (op : call) : Z :=
  match op with
  | CallRead address _ | CallPoll address =>
      Z.lor (Z.land (Z.shiftl address 1) HIGH) BIT0
  | CallWrite address _ | CallExchange address _ _ =>
      Z.land (Z.shiftl address 1) HIGH
  end.

(** How many times a request may run its [try] statement. *)
Definition attempt_budget (op : call) : nat :=
  match op with
  | CallPoll _ => 1%nat
  | _ => Z.to_nat RETRY_COUNT
  end.

(** *** [I2cPort] methods; [p] is the port the method is called on *)

(** The attributes of port [p].  Every index handed out by [get_port]
    is in [ports]; another one names no object. *)
Definition port_self (p : nat) : M I2cPort :=
  fun c =>
    match ports c !! p with
    | Some port => (Ok port, c)
    | None => (Raise (Foreign (BuiltinError "ReferenceError")), c)
    end.

Definition port_assign (p : nat) (port : I2cPort) : M unit :=
  fun c =>
    (Ok tt,
     mkController (_ftdi c) (_slaves c) (<[p := port]> (ports c))
                  (_frequency c) (_tx_size c) (_rx_size c) (io_log c)).

(** [I2cPort.configure_register(bigendian, width)] *)
Definition configure_register (p : nat) (bigendian : bool) (width : Z)
    : M unit :=
  let! self := port_self p in
  match FORMATS !! width with
  | None => raise (I2cIOError "Unsupported integer width")
  | Some fmt =>
      (* self._format = ...; self._endian = bigendian and '>' or '<' *)
      port_assign p (mkPort (_address self) (_shift self)
                            (if bigendian then ">" else "<") fmt)
  end.

(** [I2cPort.shift_address(offset)] *)
Definition shift_address (p : nat) (offset : Z) : M unit :=
  let! self := port_self p in
  validate_address (_address self + offset) ;;;
  port_assign p (mkPort (_address self) offset (_endian self)
                        (_format self)).

(** [I2cPort._make_buffer(regaddr, out)]; [out] is [None] by default. *)
Definition _make_buffer (p : nat) (regaddr : Z) (out : option (list Z))
    : M (list Z) :=
  let! self := port_self p in
  match spack (_endian self ++ _format self)%string regaddr with
  | Ok data =>
      match out with
      | Some (b :: bs) => ret (data ++ b :: bs)
      | _ => ret data
      end
  | Raise e => raise e
  | Diverge => fun c => (Diverge, c)
  end.

(** [I2cPort.read(readlen)] *)
Definition port_read (p : nat) (readlen : Z) : M (list Z) :=
  let! self := port_self p in
  read (_address self + _shift self) readlen.

(** [I2cPort.write(out)] *)
Definition port_write (p : nat) (out : list Z) : M unit :=
  let! self := port_self p in
  write (_address self + _shift self) out.

(** [I2cPort.read_from(regaddr, readlen)] *)
Definition read_from (p : nat) (regaddr readlen : Z) : M (list Z) :=
  let! self := port_self p in
  let! out := _make_buffer p regaddr None in
  exchange (_address self + _shift self) out readlen.

(** [I2cPort.write_to(regaddr, out)] *)
Definition write_to (p : nat) (regaddr : Z) (out : list Z) : M unit :=
  let! self := port_self p in
  let! buf := _make_buffer p regaddr (Some out) in
  write (_address self + _shift self) buf.

(** [I2cPort.exchange(out, readlen)] *)
Definition port_exchange (p : nat) (out : list Z) (readlen : Z)
    : M (list Z) :=
  let! self := port_self p in
  exchange (_address self + _shift self) out readlen.

(** [I2cPort.poll()] *)
Definition port_poll (p : nat) : M bool :=
  let! self := port_self p in
  poll (_address self + _shift self).

(** [I2cPort.flush()] *)
Definition port_flush (p : nat) : M unit :=
  let! _ := port_self p in
  flush.

End Controller.

Arguments Return {A} v.
Arguments Continue {A} retries.

(** The runs written out below with an engine are followed for the
    iterations that a positive chunk size needs, and no more. *)
#[global] Instance no_more : Patience := {| iterations := 0 |}.

(** ** Three engines to run the controller on

    They are stand-ins for the USB bridge: they carry the opcodes of the
    MPSSE command set and answer the two calls of a transaction. *)

(** A bus whose slave acknowledges every byte and sends zeros: every read
    of [size] bytes returns [size] zero bytes. *)
Definition quiet_read (size : Z) : list Z := repeat 0 (Z.to_nat size).

Definition ack_engine : FtdiApi unit := {|
  SET_BITS_LOW := 0x80;
  READ_BITS_PVE_MSB := 0x22;
  READ_BYTES_PVE_MSB := 0x20;
  WRITE_BYTES_NVE_MSB := 0x11;
  WRITE_BITS_NVE_MSB := 0x13;
  SEND_IMMEDIATE := 0x87;
  Ftdi_new := tt;
  write_data := fun _ f => (f, None);
  read_data_bytes := fun size _ f => (f, inr (quiet_read size));
  open_mpsse_from_url := fun _ _ _ frequency _ f =>
    (f, inr (Q_of_float frequency));
  fifo_sizes := fun _ => (4096, 4096);
  enable_adaptive_clock := fun _ f => (f, None);
  enable_3phase_clock := fun _ f => (f, None);
  enable_drivezero_mode := fun _ f => (f, None);
  purge_buffers := fun f => (f, None);
  close := fun f => f
|}.

(** A bus with no slave: every sampled bit reads high, so every byte is
    answered with a negative acknowledgement. *)
Definition nack_engine : FtdiApi unit := {|
  SET_BITS_LOW := 0x80;
  READ_BITS_PVE_MSB := 0x22;
  READ_BYTES_PVE_MSB := 0x20;
  WRITE_BYTES_NVE_MSB := 0x11;
  WRITE_BITS_NVE_MSB := 0x13;
  SEND_IMMEDIATE := 0x87;
  Ftdi_new := tt;
  write_data := fun _ f => (f, None);
  read_data_bytes := fun size _ f => (f, inr (repeat 0xff (Z.to_nat size)));
  open_mpsse_from_url := fun _ _ _ frequency _ f =>
    (f, inr (Q_of_float frequency));
  fifo_sizes := fun _ => (4096, 4096);
  enable_adaptive_clock := fun _ f => (f, None);
  enable_3phase_clock := fun _ f => (f, None);
  enable_drivezero_mode := fun _ f => (f, None);
  purge_buffers := fun f => (f, None);
  close := fun f => f
|}.

(** A scripted engine: its state is the list of the answers still to be
    given to [read_data_bytes], with the FIFO sizes it reports; when the
    script is over the bridge has nothing to return. *)
Record script : Type := mkScript {
  replies : list (foreign_exn + list Z);
  fifo : Z * Z
}.

Definition scripted_engine : FtdiApi script := {|
  SET_BITS_LOW := 0x80;
  READ_BITS_PVE_MSB := 0x22;
  READ_BYTES_PVE_MSB := 0x20;
  WRITE_BYTES_NVE_MSB := 0x11;
  WRITE_BITS_NVE_MSB := 0x13;
  SEND_IMMEDIATE := 0x87;
  Ftdi_new := mkScript [] (1, 1);
  write_data := fun _ f => (f, None);
  read_data_bytes := fun _ _ f =>
    match replies f with
    | [] => (f, inr [])
    | r :: rest => (mkScript rest (fifo f), r)
    end;
  open_mpsse_from_url := fun _ _ _ frequency _ f =>
    (f, inr (Q_of_float frequency));
  fifo_sizes := fun f => fifo f;
  enable_adaptive_clock := fun _ f => (f, None);
  enable_3phase_clock := fun _ f => (f, None);
  enable_drivezero_mode := fun _ f => (f, None);
  purge_buffers := fun f => (f, None);
  close := fun f => f
|}.

(** A controller on [f] with the given FIFO sizes, no port yet and an
    empty record of calls. *)
Definition controller_on {F : Type} (f : F) (tx rx : Z) : I2cController F :=
  mkController (Some f) ∅ [] 150000%Q tx rx [].

(** A controller on an FT2232H, whose two FIFOs hold 4096 bytes. *)
Definition bench : I2cController unit := controller_on tt 4096 4096.

(** The same after [get_port(0x21)]: the port is object 0. *)
Definition bench_with_port : I2cController unit :=
  snd (get_port 0x21 bench).

(** A controller on a bridge that gives the scripted answers. *)
Definition scripted (answers : list (foreign_exn + list Z))
    : I2cController script :=
  controller_on (mkScript answers (4096, 4096)) 4096 4096.

(** ** What a run leaves in the record of calls *)

Section Runs.
Context {F : Type} {api : FtdiApi F} {patience : Patience}.

(** The outcome of the test made on the sampled acknowledge bit. *)
Definition ack_outcome (ack : list Z) : outcome unit :=
  match ack with
  | [] => Raise (I2cIOError "No answer from FTDI")
  | a :: _ =>
      if Z.land a BIT0 =? 0 then Ok tt
      else Raise (I2cNackError "NACK from slave")
  end.

(** One buffer sent and its acknowledge bit read back: the engine
    refuses the buffer, or it fails to answer, or it answers and the
    answer decides. *)
Inductive ack_step (cmd : list Z) : outcome unit -> list event -> Prop :=
| ack_step_refused e :
    ack_step cmd (Raise (Foreign e)) [EvWrite (Some cmd) (Some e)]
| ack_step_failed e :
    ack_step cmd (Raise (Foreign e))
             [EvWrite (Some cmd) None; EvRead 1 4 (inl e)]
| ack_step_answer ack :
    ack_step cmd (ack_outcome ack)
             [EvWrite (Some cmd) None; EvRead 1 4 (inr ack)].

(** The payload-write phase in the words of its description: the
    bytes go out one at a time and in order, each with one read of one
    reply byte, and the first byte that is not acknowledged ends the
    phase. *)
Inductive write_run : list Z -> outcome unit -> list event -> Prop :=
| write_run_done : write_run [] (Ok tt) []
| write_run_abort byte rest r t :
    ack_step (write_cmd byte) r t -> r <> Ok tt ->
    write_run (byte :: rest) r t
| write_run_next byte rest t1 r t2 :
    ack_step (write_cmd byte) (Ok tt) t1 -> write_run rest r t2 ->
    write_run (byte :: rest) r (t1 ++ t2).

(** The payload bytes found in the write buffers of a record. *)
Fixpoint bytes_written (t : list event) : list Z :=
  match t with
  | [] => []
  | EvWrite (Some cmd) _ :: t' => nth 3 cmd 0 :: bytes_written t'
  | _ :: t' => bytes_written t'
  end.

(** The epilog: the stop sequence is sent and, unless the engine
    refused it, one reply byte is read. *)
Inductive epilog_run : outcome unit -> list event -> Prop :=
| epilog_refused e :
    epilog_run (Raise (Foreign e)) [EvWrite (Some _stop) (Some e)]
| epilog_failed e :
    epilog_run (Raise (Foreign e))
               [EvWrite (Some _stop) None; EvRead 1 1 (inl e)]
| epilog_done buf :
    epilog_run (Ok tt) [EvWrite (Some _stop) None; EvRead 1 1 (inr buf)].

(** An event that neither sends the stop sequence nor opens a
    transaction with the address byte [a0]. *)
Definition quiet (a0 : Z) (e : event) : Prop :=
  match e with
  | EvWrite cmd _ => cmd <> Some _stop /\ cmd <> Some (prolog_cmd a0)
  | EvRead _ _ _ => True
  end.

(** What the body of a [try] statement records: the prolog buffer
    first, then nothing that looks like a prolog or a stop. *)
Definition body_shape (a0 : Z) (body : list event) : Prop :=
  exists res mid,
    body = EvWrite (Some (prolog_cmd a0)) res :: mid
    /\ Forall (quiet a0) mid.

(** The last event is an acknowledge bit read as negative. *)
Definition ends_with_nack (body : list event) : Prop :=
  exists pre a tl,
    body = pre ++ [EvRead 1 4 (inr (a :: tl))] /\ Z.land a BIT0 <> 0.

(** The record of a whole operation as a sequence of attempts: each
    attempt is a body followed by one epilog, and a further attempt
    follows only a body that ended on a negative acknowledgement and an
    epilog that went through. *)
Inductive attempts (a0 : Z) : list (list event) -> list event -> Prop :=
| attempts_none : attempts a0 [] []
| attempts_last body re te :
    body_shape a0 body -> epilog_run re te ->
    attempts a0 [body] (body ++ te)
| attempts_retry body buf bodies rest :
    body_shape a0 body -> ends_with_nack body -> bodies <> [] ->
    attempts a0 bodies rest ->
    attempts a0 (body :: bodies)
             (body ++ [EvWrite (Some _stop) None; EvRead 1 1 (inr buf)]
                   ++ rest).

(** How many times the stop sequence was handed to the engine. *)
Fixpoint stop_writes (t : list event) : nat :=
  match t with
  | [] => O
  | EvWrite cmd _ :: t' =>
      if bool_decide (cmd = Some _stop) then S (stop_writes t')
      else stop_writes t'
  | EvRead _ _ _ :: t' => stop_writes t'
  end.

(** The buffers handed to [write_data], in order. *)
Fixpoint sent_commands (t : list event) : list (list Z) :=
  match t with
  | [] => []
  | EvWrite (Some cmd) _ :: t' => cmd :: sent_commands t'
  | _ :: t' => sent_commands t'
  end.

(** The sizes asked of [read_data_bytes], in order. *)
Fixpoint sizes_requested (t : list event) : list Z :=
  match t with
  | [] => []
  | EvRead size _ _ :: t' => size :: sizes_requested t'
  | _ :: t' => sizes_requested t'
  end.

(** A read buffer cut into its read-byte units; the trailing
    send-immediate byte is shorter than a unit and is left out. *)
Definition units (cmd : list Z) : list (list Z) :=
  let size := length read_last in
  map (fun i => firstn size (skipn (i * size) cmd))
      (seq 0 (length cmd / size)).

(** The units of all the buffers of a read, in the order sent. *)
Definition read_units (t : list event) : list (list Z) :=
  concat (map units (sent_commands t)).

(** The address a request is made for. *)
Definition call_address (op : call) : Z :=
  match op with
  | CallRead address _ | CallWrite address _
  | CallExchange address _ _ | CallPoll address => address
  end.

(** The checks made on a request before the [try] statement. *)
Definition request_accepted (c : I2cController F) (op : call) : bool :=
  match _ftdi c with
  | None => false
  | Some _ =>
      negb (HIGHEST_I2C_ADDRESS <? call_address op)
      && match op with
         | CallRead _ readlen => negb (readlen <? 1)
         | CallWrite _ out => negb (length out =? 0)%nat
         | CallExchange _ out readlen =>
             negb (length out =? 0)%nat && negb (readlen <? 1)
             && negb (payload_too_large readlen)
         | CallPoll _ => true
         end
  end.

(** [emits m P]: started on a live controller, [m] leaves it live,
    only adds to the record of calls, and its outcome and the events
    it added satisfy [P]. *)
Definition emits {A : Type} (m : M A)
    (P : outcome A -> list event -> Prop) : Prop :=
  forall (c c' : I2cController F) (r : outcome A),
    is_Some (_ftdi c) -> m c = (r, c') ->
    is_Some (_ftdi c')
    /\ exists t, io_log c' = io_log c ++ t /\ P r t.

(** A read buffer starts with the read-byte opcode and its zero length
    field; [None] is what the loop holds before its first buffer. *)
Definition read_cmd_ok (cmd : option (list Z)) : Prop :=
  match cmd with
  | None => True
  | Some buf => exists rest, buf = READ_BYTES_PVE_MSB :: 0 :: rest
  end.

(** What the chunked read records: read buffers and reads, and no
    exception of the controller's own. *)
Definition read_run {A : Type} (a0 : Z) (r : outcome A)
    (t : list event) : Prop :=
  Forall (quiet a0) t /\ forall e, r = Raise e -> exists f, e = Foreign f.

(** The exceptions a transaction raises by itself or lets through. *)
Definition allowed (e : exn) : Prop :=
  e = I2cIOError "No answer from FTDI"
  \/ e = I2cNackError "NACK from slave"
  \/ exists f, e = Foreign f.

(** What the body of a [try] statement leaves: its shape, the negative
    acknowledgement behind an [I2cNackError], and the exceptions it may
    end with. *)
Definition body_run {A : Type} (a0 : Z) (r : outcome A)
    (t : list event) : Prop :=
  body_shape a0 t
  /\ (forall msg, r = Raise (I2cNackError msg) -> ends_with_nack t)
  /\ (forall e, r = Raise e -> allowed e).

(** What the [try] statement makes of the outcomes of its body and of
    its [finally] clause. *)
Definition attempt_outcome {A : Type} (retries : Z) (rb : outcome A)
    (re : outcome unit) : outcome (flow A) :=
  match re with
  | Raise e => Raise e
  | Diverge => Diverge
  | Ok _ =>
      match rb with
      | Ok v => Ok (Return v)
      | Raise (I2cNackError msg) =>
          if retries - 1 =? 0 then Raise (I2cNackError msg)
          else Ok (Continue (retries - 1))
      | Raise e => Raise e
      | Diverge => Diverge
      end
  end.

(** What an operation that reached its [try] statement leaves: it
    never ends, or its record is a sequence of at least one and at most
    [fuel] attempts and it raises nothing but what a transaction
    raises. *)
Definition loop_run {A : Type} (a0 : Z) (fuel : nat) (r : outcome A)
    (t : list event) : Prop :=
  r = Diverge
  \/ exists bodies,
      attempts a0 bodies t /\ bodies <> []
      /\ (length bodies <= fuel)%nat
      /\ (forall e, r = Raise e -> allowed e).

(** *** Outcomes against records *)

(** The exception an engine call ended with, if it raised. *)
Definition failure_of (ev : event) : option foreign_exn :=
  match ev with
  | EvWrite _ (Some e) => Some e
  | EvRead _ _ (inl e) => Some e
  | _ => None
  end.

(** No call of the record raised. *)
Definition no_failure (t : list event) : Prop :=
  Forall (fun ev => failure_of ev = None) t.

(** The exception of the last call that raised. *)
Fixpoint last_failure (t : list event) : option foreign_exn :=
  match t with
  | [] => None
  | ev :: t' =>
      match last_failure t' with
      | Some e => Some e
      | None => failure_of ev
      end
  end.

(** A part of a transaction stops at the first engine call that raises
    and ends with the exception of that call. *)
Definition raises_last {A : Type} (r : outcome A) (t : list event) : Prop :=
  no_failure t
  \/ exists pre ev e,
      t = pre ++ [ev] /\ no_failure pre /\ failure_of ev = Some e
      /\ r = Raise (Foreign e).

(** What the outcome tells of the record: an engine call that raised
    is the last one and its exception is the outcome, and [I2cIOError]
    stands for an acknowledge read that came back empty. *)
Definition told {A : Type} (r : outcome A) (t : list event) : Prop :=
  raises_last r t
  /\ forall msg, r = Raise (I2cIOError msg) ->
                 msg = "No answer from FTDI"
                 /\ exists pre, t = pre ++ [EvRead 1 4 (inr [])].

(** The body of a [try] statement: its record and its outcome. *)
Definition body_end {A : Type} (a0 : Z) (rb : outcome A)
    (body : list event) : Prop :=
  body_run a0 rb body /\ told rb body.

(** What the [try] statement ends with when it is not run again: the
    exception of the epilog if it raised one; else the outcome of the
    body, with the value [poll] returns for a negative
    acknowledgement.  The reply read by the epilog has no part in it. *)
Definition final {A : Type} (caught : option A) (rb : outcome A)
    (re : outcome unit) : outcome A :=
  match re with
  | Ok _ =>
      match rb, caught with
      | Raise (I2cNackError _), Some v => Ok v
      | _, _ => rb
      end
  | Raise e => Raise e
  | Diverge => Diverge
  end.

(** The record of an operation that reached its [try] statement with
    [retries] runs allowed, cut into the bodies of its attempts, and
    its outcome.  The last attempt is a body, one epilog, and the
    outcome they give; an attempt that is followed by another one is a
    body that raised [I2cNackError], more than one run being allowed,
    and an epilog that went through. *)
Inductive tries {A : Type} (a0 : Z) (caught : option A)
  : Z -> list (list event) -> list event -> outcome A -> Prop :=
| tries_last retries body rb re te :
    body_end a0 rb body -> rb <> Diverge -> epilog_run re te ->
    (forall msg, rb = Raise (I2cNackError msg) -> re = Ok tt ->
                 caught = None -> retries = 1) ->
    tries a0 caught retries [body] (body ++ te) (final caught rb re)
| tries_again retries body msg buf bodies rest r :
    body_end a0 (Raise (I2cNackError msg) : outcome A) body ->
    caught = None -> retries <> 1 ->
    tries a0 caught (retries - 1) bodies rest r ->
    tries a0 caught retries (body :: bodies)
          (body ++ [EvWrite (Some _stop) None; EvRead 1 1 (inr buf)]
                ++ rest) r.

(** What a request returns for a negative acknowledgement that is not
    retried: [poll] returns [False], the others raise. *)
Definition nack_result (op : call) : option retval :=
  match op with
  | CallPoll _ => Some (RBool false)
  | _ => None
  end.

(** The value of an outcome mapped. *)
Definition outcome_map {A B : Type} (f : A -> B) (r : outcome A)
    : outcome B :=
  match r with
  | Ok a => Ok (f a)
  | Raise e => Raise e
  | Diverge => Diverge
  end.

(** An engine on a bus where nobody answers: it takes every buffer,
    every acknowledge bit it samples is high, and it has a reply byte
    for the stop sequence. *)
Definition always_nack : Prop :=
  (forall cmd f, snd (write_data cmd f) = None)
  /\ (forall f, exists a tl,
         snd (read_data_bytes 1 4 f) = inr (a :: tl)
         /\ Z.land a BIT0 <> 0)
  /\ (forall f, exists buf, snd (read_data_bytes 1 1 f) = inr buf).

Definition nack_reply (ack : list Z) : Prop :=
  exists a tl, ack = a :: tl /\ Z.land a BIT0 <> 0.

(** The four calls of an attempt refused at its prolog: the prolog
    buffer, the acknowledge bit [ack], the stop sequence, its reply. *)
Definition nacked_attempt (a0 : Z) (x : list Z * list Z) : list event :=
  [EvWrite (Some (prolog_cmd a0)) None; EvRead 1 4 (inr (fst x));
   EvWrite (Some _stop) None; EvRead 1 1 (inr (snd x))].

(** The buffer the loop of [_do_read] sends when [count] bytes are left
    to read, the chunk size being positive. *)
Definition chunk_cmd (chunk_size count : Z) : list Z :=
  let block_count := Z.min count chunk_size in
  tuple_mul read_not_last (block_count - 1) ++ read_last
    ++ (if count - block_count <=? 0 then _immediate else []).

(** The chunked read with [count] bytes left and [chunks] read so far:
    one buffer and one read per chunk until nothing is left or the engine
    raises. *)
Inductive chunk_run (chunk_size : Z)
  : Z -> list (list Z) -> outcome (list (list Z)) -> list event -> Prop :=
| chunk_run_done chunks : chunk_run chunk_size 0 chunks (Ok chunks) []
| chunk_run_refused count chunks e :
    0 < count ->
    chunk_run chunk_size count chunks (Raise (Foreign e))
              [EvWrite (Some (chunk_cmd chunk_size count)) (Some e)]
| chunk_run_failed count chunks e :
    0 < count ->
    chunk_run chunk_size count chunks (Raise (Foreign e))
              [EvWrite (Some (chunk_cmd chunk_size count)) None;
               EvRead (Z.min count chunk_size) 4 (inl e)]
| chunk_run_next count chunks buf r t :
    0 < count ->
    chunk_run chunk_size (count - Z.min count chunk_size)
              (chunks ++ [buf]) r t ->
    chunk_run chunk_size count chunks r
              (EvWrite (Some (chunk_cmd chunk_size count)) None
               :: EvRead (Z.min count chunk_size) 4 (inr buf) :: t).

(** A read that was answered with as many bytes as it asked for. *)
Definition faithful (e : event) : Prop :=
  match e with
  | EvRead size _ (inr buf) => Z.of_nat (length buf) = size
  | _ => True
  end.

(** A read buffer whose last read-byte unit sends the nack bit. *)
Definition nack_terminated (cmd : list Z) : Prop :=
  exists k tail,
    cmd = tuple_mul read_not_last k ++ read_last ++ tail
    /\ (tail = [] \/ tail = _immediate).

End Runs.

Arguments emits F {A} m P.

(** ** The module as a whole: what its states keep *)

Section Whole.
Context {F : Type} {api : FtdiApi F} {patience : Patience}.

(** The buffers the engine returned to the reads of a record, in
    order. *)
Fixpoint read_buffers (t : list event) : list (list Z) :=
  match t with
  | [] => []
  | EvRead _ _ (inr buf) :: t' => buf :: read_buffers t'
  | _ :: t' => read_buffers t'
  end.

(** What a bus operation leaves alone: the ports, their table, the
    frequency and the FIFO sizes; and the [Ftdi] object stays where it
    is. *)
Definition kept (c c' : I2cController F) : Prop :=
  _slaves c' = _slaves c /\ ports c' = ports c
  /\ _frequency c' = _frequency c
  /\ _tx_size c' = _tx_size c /\ _rx_size c' = _rx_size c
  /\ (is_Some (_ftdi c') <-> is_Some (_ftdi c)).

Definition keeps {A : Type} (m : M A) : Prop :=
  forall c r c', m c = (r, c') -> kept c c'.

(** A method that ends, from the states where [Q] holds. *)
Definition ends_if {A : Type} (Q : I2cController F -> Prop) (m : M A)
    : Prop :=
  forall c, Q c -> fst (m c) <> Diverge.

(** The chunk size [_do_read] computes in a state is positive. *)
Definition chunk_positive (c : I2cController F) : Prop :=
  1 <= read_chunk_size (_tx_size c) (_rx_size c).

(** Every address of the table is at most 0x7f and names a port object
    built for that address. *)
Definition cache_ok (c : I2cController F) : Prop :=
  forall a p,
    _slaves c !! a = Some p ->
    a <= HIGHEST_I2C_ADDRESS
    /\ exists port, ports c !! p = Some port /\ _address port = a.

(** A port as the methods of the module leave it: its address and its
    shifted address passed [validate_address], and its register format
    is one that [configure_register] can set. *)
Definition port_ok (port : I2cPort) : Prop :=
  _address port <= HIGHEST_I2C_ADDRESS
  /\ _address port + _shift port <= HIGHEST_I2C_ADDRESS
  /\ (_endian port = "<" \/ _endian port = ">")
  /\ (_format port = "B" \/ _format port = "H" \/ _format port = "I").

Definition ports_ok (c : I2cController F) : Prop :=
  Forall port_ok (ports c).

(** Every port object is the one the table holds for its address. *)
Definition ports_cached (c : I2cController F) : Prop :=
  forall p port,
    ports c !! p = Some port -> _slaves c !! (_address port) = Some p.

(** The table and the port objects agree. *)
Definition consistent (c : I2cController F) : Prop :=
  cache_ok c /\ ports_ok c /\ ports_cached c.

(** The calls a user of the module can make, one after the other. *)
Inductive api_call : Type :=
| ApiConfigure (url : string) (kwargs : gmap string pyval)
| ApiTerminate
| ApiGetPort (address : Z)
| ApiFlush
| ApiPerform (op : call)
| ApiConfigureRegister (p : nat) (bigendian : bool) (width : Z)
| ApiShiftAddress (p : nat) (offset : Z)
| ApiPortRead (p : nat) (readlen : Z)
| ApiPortWrite (p : nat) (out : list Z)
| ApiPortExchange (p : nat) (out : list Z) (readlen : Z)
| ApiPortPoll (p : nat)
| ApiReadFrom (p : nat) (regaddr readlen : Z)
| ApiWriteTo (p : nat) (regaddr : Z) (out : list Z)
| ApiPortFlush (p : nat).

(** The state a call leaves, whatever it returns or raises. *)
Definition after (x : api_call) (c : I2cController F) : I2cController F :=
  match x with
  | ApiConfigure url kwargs => snd (configure url kwargs c)
  | ApiTerminate => snd (terminate c)
  | ApiGetPort address => snd (get_port address c)
  | ApiFlush => snd (flush c)
  | ApiPerform op => snd (perform op c)
  | ApiConfigureRegister p bigendian width =>
      snd (configure_register p bigendian width c)
  | ApiShiftAddress p offset => snd (shift_address p offset c)
  | ApiPortRead p readlen => snd (port_read p readlen c)
  | ApiPortWrite p out => snd (port_write p out c)
  | ApiPortExchange p out readlen => snd (port_exchange p out readlen c)
  | ApiPortPoll p => snd (port_poll p c)
  | ApiReadFrom p regaddr readlen => snd (read_from p regaddr readlen c)
  | ApiWriteTo p regaddr out => snd (write_to p regaddr out c)
  | ApiPortFlush p => snd (port_flush p c)
  end.

(** The states reached from a new controller by such calls. *)
Inductive reachable : I2cController F -> Prop :=
| reachable_init : reachable I2cController__init__
| reachable_step x c : reachable c -> reachable (after x c).

(** The value of a byte sequence, least significant byte first. *)
Fixpoint le_value (bs : list Z) : Z :=
  match bs with
  | [] => 0
  | b :: bs' => b + 256 * le_value bs'
  end.

(** The register address a prefix stands for in the byte order of a
    port ([struct.unpack] on an unsigned format). *)
Definition register_of (endian : string) (bs : list Z) : Z :=
  if String.eqb endian ">" then le_value (rev bs) else le_value bs.

(** *** Payloads that are not bytes objects *)

(** What a caller may pass as [out]: a bytes-like object or a list of
    integers, as in the example of the docstring of [I2cPort]. *)
Inductive payload : Type :=
| PyBytes (data : list Z)
| PyList (items : list Z).

Definition payload_items (out : payload) : list Z :=
  match out with PyBytes l | PyList l => l end.

(** [binascii.hexlify(out)]: a list is not a bytes-like object. *)
Definition hexlify (out : payload) : outcome unit :=
  match out with
  | PyBytes _ => Ok tt
  | PyList _ => Raise (Foreign (BuiltinError "TypeError"))
  end.

(** [_do_write(out)] with the arguments of its [self.log.debug] call,
    [len(out)] and [hexlify(out).decode()], which are evaluated before
    the loop whatever the level of the logger. *)
Definition _do_write_logged (out : payload) : M unit :=
  match hexlify out with
  | Ok _ => _do_write (payload_items out)
  | Raise e => raise e
  | Diverge => fun c => (Diverge, c)
  end.

(** [I2cController.write(address, out)] for a payload of either kind. *)
Definition write_logged (address : Z) (out : payload) : M unit :=
  bind check_ftdi (fun _ =>
  bind (validate_address address) (fun _ =>
  if (length (payload_items out) =? 0)%nat
  then raise (I2cIOError "Nothing to write")
  else
    let i2caddress := Z.land (Z.shiftl address 1) HIGH in
    retry_loop (Z.to_nat RETRY_COUNT)
               (bind (_do_prolog i2caddress)
                     (fun _ => _do_write_logged out))
               RETRY_COUNT)).

(** [I2cController.exchange(address, out, readlen)] for a payload of
    either kind. *)
Definition exchange_logged (address : Z) (out : payload) (readlen : Z)
    : M (list Z) :=
  bind check_ftdi (fun _ =>
  bind (validate_address address) (fun _ =>
  if (length (payload_items out) =? 0)%nat
  then raise (I2cIOError "Nothing to write")
  else if readlen <? 1 then raise (I2cIOError "Nothing to read")
  else if payload_too_large readlen
  then raise (I2cIOError "Input payload is too large")
  else
    let i2caddress := Z.land (Z.shiftl address 1) HIGH in
    retry_loop (Z.to_nat RETRY_COUNT)
               (bind (_do_prolog i2caddress) (fun _ =>
                bind (_do_write_logged out) (fun _ =>
                bind (_do_prolog (Z.lor i2caddress BIT0)) (fun _ =>
                bind (_do_read readlen) (fun data => ret data)))))
               RETRY_COUNT)).

(** [I2cPort.exchange(out, readlen)] for a payload of either kind. *)
Definition port_exchange_logged (p : nat) (out : payload) (readlen : Z)
    : M (list Z) :=
  bind (port_self p) (fun self =>
  exchange_logged (_address self + _shift self) out readlen).

(** *** The test case of [pyftdi/tests/i2c.py]

    [I2cTest] holds one controller, built by its [__init__]; its methods
    run on that controller. *)

(** [I2cTest.open()] *)
Definition I2cTest_open : M unit :=
  configure "ftdi://ftdi:2232h/1" ∅.

(** [I2cTest.read_it()]: the payload is the list [[0x04]]. *)
Definition read_it : M unit :=
  bind (get_port 0x21) (fun port =>
  bind (port_exchange_logged port (PyList [0x04]) 1) (fun _ => ret tt)).

(** [I2cTest.write_it()]: the payloads are bytes objects. *)
Definition write_it : M unit :=
  bind (get_port 0x21) (fun port =>
  bind (write_to port 0x06 [0x00]) (fun _ =>
  bind (write_to port 0x02 [0x55]) (fun _ =>
  bind (read_from port 0x00 1) (fun _ => ret tt)))).

(** [I2cTest.close()] *)
Definition I2cTest_close : M unit := terminate.

(** [I2cTestCase.test_i2c()], on the controller of a new [I2cTest]. *)
Definition test_i2c : M unit :=
  bind I2cTest_open (fun _ =>
  bind read_it (fun _ =>
  bind write_it (fun _ => I2cTest_close))).

End Whole.

(** A bridge without the drive-zero mode, as the FT2232H is: the call
    that enables it raises [FtdiFeatureError]. *)
Definition tristate_engine : FtdiApi unit := {|
  SET_BITS_LOW := 0x80;
  READ_BITS_PVE_MSB := 0x22;
  READ_BYTES_PVE_MSB := 0x20;
  WRITE_BYTES_NVE_MSB := 0x11;
  WRITE_BITS_NVE_MSB := 0x13;
  SEND_IMMEDIATE := 0x87;
  Ftdi_new := tt;
  write_data := fun _ f => (f, None);
  read_data_bytes := fun size _ f => (f, inr (quiet_read size));
  open_mpsse_from_url := fun _ _ _ frequency _ f =>
    (f, inr (Q_of_float frequency));
  fifo_sizes := fun _ => (4096, 4096);
  enable_adaptive_clock := fun _ f => (f, None);
  enable_3phase_clock := fun _ f => (f, None);
  enable_drivezero_mode := fun _ f =>
    (f, Some (FtdiFeatureError "Drive-zero mode is not available"));
  purge_buffers := fun f => (f, None);
  close := fun f => f
|}.

(** ** Properties *)

Section Sizing.
Context {F : Type} {api : FtdiApi F} {patience : Patience}.

Lemma read_last_length : length read_last = 9%nat.
Proof. reflexivity. Qed.

Lemma read_not_last_length : length read_not_last = 9%nat.
Proof. reflexivity. Qed.

(** C4, as the code has it: the chunk size is the smaller of the
    receive capacity less two and of the whole number of nine-byte
    read units that fit in the send capacity less the one byte kept
    for the final send-immediate command. *)
Theorem read_chunk_size_reserves_immediate (tx_size rx_size : Z) :
  length read_last = 9%nat
  /\ read_chunk_size tx_size rx_size
     = Z.min (rx_size - 2) ((tx_size - 1) / 9).
Proof.
  split; [reflexivity|].
  unfold read_chunk_size. rewrite read_last_length.
  change (Z.of_nat 9) with 9. apply Z.min_comm.
Qed.

End Sizing.

(** C4, as the claim has it: with a send capacity of 18 bytes and room to
    receive, dividing the full capacity by the unit size gives two units
    where [_do_read] packs one. *)
Lemma read_chunk_size_not_full_capacity :
  read_chunk_size (api := ack_engine) 18 100
  <> Z.min (100 - 2) (18 / Z.of_nat (length (read_last (api := ack_engine)))).
Proof. vm_compute. discriminate. Qed.

Section Validation.
Context {F : Type} {api : FtdiApi F} {patience : Patience}.

(** The bound of [exchange] as an integer bound. *)
Lemma payload_too_large_iff (readlen : Z) :
  payload_too_large readlen = true <-> 21844 < readlen.
Proof.
  unfold payload_too_large, Qle_bool, PAYLOAD_MAX_LENGTH.
  rewrite negb_true_iff. cbn.
  rewrite Z.leb_gt. lia.
Qed.

Lemma payload_limit_floor : PAYLOAD_MAX_LENGTH / 3 - 1 = 21844.
Proof. reflexivity. Qed.

Lemma validate_address_ok (address : Z) (c : I2cController F) :
  address <= HIGHEST_I2C_ADDRESS ->
  validate_address address c = (Ok tt, c).
Proof.
  intros H. unfold validate_address.
  destruct (Z.ltb_spec HIGHEST_I2C_ADDRESS address); [lia|reflexivity].
Qed.

Lemma validate_address_too_high (address : Z) (c : I2cController F) :
  HIGHEST_I2C_ADDRESS < address ->
  validate_address address c = (Raise (I2cIOError "No such I2c slave"), c).
Proof.
  intros H. unfold validate_address.
  destruct (Z.ltb_spec HIGHEST_I2C_ADDRESS address); [reflexivity|lia].
Qed.

Lemma check_ftdi_ok (c : I2cController F) :
  _ftdi c <> None -> check_ftdi c = (Ok tt, c).
Proof. unfold check_ftdi. destruct (_ftdi c); congruence. Qed.

End Validation.

(** ** A logic of recorded calls *)

Section Logic.
Context {F : Type} {api : FtdiApi F} {patience : Patience}.

Lemma emits_conseq {A : Type} (m : @M F A)
    (P Q : outcome A -> list event -> Prop) :
  emits F m P -> (forall r t, P r t -> Q r t) -> emits F m Q.
Proof.
  intros Hm HPQ c c' r Hc Hrun.
  destruct (Hm c c' r Hc Hrun) as (Hc' & t & Ht & HP). eauto.
Qed.

Lemma emits_ret {A : Type} (a : A) :
  emits F (ret a) (fun r t => r = Ok a /\ t = []).
Proof.
  intros c c' r Hc Hrun. inversion Hrun; subst.
  split; [done|]. exists []. by rewrite app_nil_r.
Qed.

Lemma emits_raise {A : Type} (e : exn) :
  emits F (raise e : @M F A) (fun r t => r = Raise e /\ t = []).
Proof.
  intros c c' r Hc Hrun. inversion Hrun; subst.
  split; [done|]. exists []. by rewrite app_nil_r.
Qed.

Lemma emits_bind {A B : Type} (m : @M F A) (k : A -> @M F B)
    (P : outcome A -> list event -> Prop)
    (Q : A -> outcome B -> list event -> Prop) :
  emits F m P -> (forall a, emits F (k a) (Q a)) ->
  emits F (bind m k)
        (fun r t =>
           (exists a t1 t2, t = t1 ++ t2 /\ P (Ok a) t1 /\ Q a r t2)
           \/ (exists e, r = Raise e /\ P (Raise e) t)
           \/ (r = Diverge /\ P Diverge t)).
Proof.
  intros Hm Hk c c' r Hc Hrun. unfold bind in Hrun.
  destruct (m c) as [[a|e|] c1] eqn:Em.
  - destruct (Hm _ _ _ Hc Em) as (Hc1 & t1 & Ht1 & HP).
    destruct (Hk a _ _ _ Hc1 Hrun) as (Hc' & t2 & Ht2 & HQ).
    split; [done|]. exists (t1 ++ t2). split.
    + by rewrite Ht2, Ht1, app_assoc.
    + left. eauto 10.
  - inversion Hrun; subst.
    destruct (Hm _ _ _ Hc Em) as (Hc1 & t1 & Ht1 & HP). eauto 10.
  - inversion Hrun; subst.
    destruct (Hm _ _ _ Hc Em) as (Hc1 & t1 & Ht1 & HP). eauto 10.
Qed.

Lemma emits_write (cmd : option (list Z)) :
  emits F (ftdi_write_data cmd)
        (fun r t => exists res,
             t = [EvWrite cmd res]
             /\ r = match res with
                    | None => Ok tt
                    | Some e => Raise (Foreign e)
                    end).
Proof.
  intros c c' r [f Hf] Hrun. unfold ftdi_write_data in Hrun.
  rewrite Hf in Hrun. destruct (write_data cmd f) as [f' res].
  destruct res; inversion Hrun; subst; cbn; eauto 10.
Qed.

Lemma emits_read (size attempt : Z) :
  emits F (ftdi_read_data_bytes size attempt)
        (fun r t => exists res,
             t = [EvRead size attempt res]
             /\ r = match res with
                    | inr buf => Ok buf
                    | inl e => Raise (Foreign e)
                    end).
Proof.
  intros c c' r [f Hf] Hrun. unfold ftdi_read_data_bytes in Hrun.
  rewrite Hf in Hrun. destruct (read_data_bytes size attempt f) as [f' res].
  destruct res; inversion Hrun; subst; cbn; eauto 10.
Qed.

Lemma check_ack_outcome (ack : list Z) (c : I2cController F) :
  check_ack ack c = (ack_outcome ack, c).
Proof.
  destruct ack as [|a ack]; [reflexivity|].
  cbn. destruct (Z.land a BIT0 =? 0); reflexivity.
Qed.

(** A buffer sent, one byte read with four attempts, the bit checked. *)
Lemma emits_ack_step (cmd : list Z) :
  emits F (bind (ftdi_write_data (Some cmd))
              (fun _ => bind (ftdi_read_data_bytes 1 4) check_ack))
        (ack_step cmd).
Proof.
  intros c c' r Hc Hrun. unfold bind in Hrun.
  destruct (ftdi_write_data (Some cmd) c) as [rw c1] eqn:Ew.
  destruct (emits_write _ _ _ _ Hc Ew) as (Hc1 & t1 & Ht1 & res & -> & ->).
  destruct res as [e|].
  { inversion Hrun; subst. split; [done|]. eexists; split; [done|].
    constructor. }
  destruct (ftdi_read_data_bytes 1 4 c1) as [rr c2] eqn:Er.
  destruct (emits_read _ _ _ _ _ Hc1 Er) as (Hc2 & t2 & Ht2 & res & -> & ->).
  destruct res as [e|ack].
  { inversion Hrun; subst. split; [done|].
    exists [EvWrite (Some cmd) None; EvRead 1 4 (inl e)]. split.
    - rewrite Ht2, Ht1, <- app_assoc. reflexivity.
    - constructor. }
  rewrite check_ack_outcome in Hrun. inversion Hrun; subst.
  split; [done|].
  exists [EvWrite (Some cmd) None; EvRead 1 4 (inr ack)]. split.
  - rewrite Ht2, Ht1, <- app_assoc. reflexivity.
  - constructor.
Qed.

Lemma emits_prolog (i2caddress : Z) :
  emits F (_do_prolog i2caddress) (ack_step (prolog_cmd i2caddress)).
Proof. apply emits_ack_step. Qed.

Lemma emits_epilog : emits F _do_epilog epilog_run.
Proof.
  intros c c' r Hc Hrun. unfold _do_epilog, bind in Hrun.
  destruct (ftdi_write_data (Some _stop) c) as [rw c1] eqn:Ew.
  destruct (emits_write _ _ _ _ Hc Ew) as (Hc1 & t1 & Ht1 & res & -> & ->).
  destruct res as [e|].
  { inversion Hrun; subst. split; [done|]. eexists; split; [done|].
    constructor. }
  destruct (ftdi_read_data_bytes 1 1 c1) as [rr c2] eqn:Er.
  destruct (emits_read _ _ _ _ _ Hc1 Er) as (Hc2 & t2 & Ht2 & res & -> & ->).
  destruct res as [e|buf]; inversion Hrun; subst; (split; [done|]).
  - exists [EvWrite (Some _stop) None; EvRead 1 1 (inl e)]. split.
    + rewrite Ht2, Ht1, <- app_assoc. reflexivity.
    + constructor.
  - exists [EvWrite (Some _stop) None; EvRead 1 1 (inr buf)]. split.
    + rewrite Ht2, Ht1, <- app_assoc. reflexivity.
    + constructor.
Qed.

Lemma emits_do_write (out : list Z) : emits F (_do_write out) (write_run out).
Proof.
  induction out as [|byte rest IH].
  - intros c c' r Hc Hrun. inversion Hrun; subst. split; [done|].
    exists []. rewrite app_nil_r. split; [done|constructor].
  - intros c c' r Hc Hrun. cbn [_do_write] in Hrun.
    unfold bind at 1 in Hrun.
    destruct (ftdi_write_data (Some (write_cmd byte)) c) as [rw c1] eqn:Ew.
    pose proof (emits_ack_step (write_cmd byte) c) as Hstep.
    unfold bind at 1 in Hstep. rewrite Ew in Hstep.
    destruct rw as [[]|e|].
    + unfold bind at 1 in Hrun.
      destruct (ftdi_read_data_bytes 1 4 c1) as [rr c2] eqn:Er.
      unfold bind at 1 in Hstep. rewrite Er in Hstep.
      destruct rr as [ack|e|].
      * unfold bind at 1 in Hrun.
        destruct (check_ack ack c2) as [rc c3] eqn:Ec.
        destruct (Hstep c3 rc Hc eq_refl) as (Hc3 & t1 & Ht1 & Hs).
        destruct rc as [[]|e|].
        -- destruct (IH _ _ _ Hc3 Hrun) as (Hc' & t2 & Ht2 & Hw).
           split; [done|]. exists (t1 ++ t2). split.
           ++ by rewrite Ht2, Ht1, app_assoc.
           ++ by eapply write_run_next.
        -- inversion Hrun; subst. split; [done|]. exists t1.
           split; [done|]. by apply write_run_abort.
        -- inversion Hrun; subst. split; [done|]. exists t1.
           split; [done|]. by apply write_run_abort.
      * inversion Hrun; subst.
        destruct (Hstep _ _ Hc eq_refl) as (Hc3 & t1 & Ht1 & Hs).
        split; [done|]. exists t1. split; [done|].
        by apply write_run_abort.
      * inversion Hrun; subst.
        destruct (Hstep _ _ Hc eq_refl) as (Hc3 & t1 & Ht1 & Hs).
        split; [done|]. exists t1. split; [done|].
        by apply write_run_abort.
    + inversion Hrun; subst.
      destruct (Hstep _ _ Hc eq_refl) as (Hc3 & t1 & Ht1 & Hs).
      split; [done|]. exists t1. split; [done|].
      by apply write_run_abort.
    + inversion Hrun; subst.
      destruct (Hstep _ _ Hc eq_refl) as (Hc3 & t1 & Ht1 & Hs).
      split; [done|]. exists t1. split; [done|].
      by apply write_run_abort.
Qed.

End Logic.

(** ** The command buffers are told apart by what they hold *)

Section Commands.
Context {F : Type} {api : FtdiApi F} {patience : Patience}.

Lemma stop_length : length _stop = 36%nat.
Proof. reflexivity. Qed.

Lemma prolog_cmd_length (a : Z) : length (prolog_cmd a) = 37%nat.
Proof. reflexivity. Qed.

Lemma write_cmd_length (byte : Z) : length (write_cmd byte) = 10%nat.
Proof. reflexivity. Qed.

Lemma stop_second : nth 1 _stop 0 = 0xfc.
Proof. reflexivity. Qed.

Lemma prolog_cmd_second (a : Z) : nth 1 (prolog_cmd a) 0 = 0xff.
Proof. reflexivity. Qed.

Lemma prolog_cmd_address (a : Z) : nth 30 (prolog_cmd a) 0 = a.
Proof. reflexivity. Qed.

Lemma write_cmd_byte (byte : Z) : nth 3 (write_cmd byte) 0 = byte.
Proof. reflexivity. Qed.

Lemma prolog_cmd_inj (a b : Z) : prolog_cmd a = prolog_cmd b -> a = b.
Proof.
  intros H. rewrite <- (prolog_cmd_address a), <- (prolog_cmd_address b).
  by rewrite H.
Qed.

Lemma prolog_cmd_not_stop (a : Z) : prolog_cmd a <> _stop.
Proof.
  intros H. apply (f_equal (@length Z)) in H.
  rewrite prolog_cmd_length, stop_length in H. discriminate.
Qed.

Lemma quiet_write_cmd (a0 byte : Z) (res : option foreign_exn) :
  quiet a0 (EvWrite (Some (write_cmd byte)) res).
Proof.
  split; intros [= H]; apply (f_equal (@length Z)) in H;
    rewrite write_cmd_length in H; discriminate.
Qed.

Lemma quiet_read_cmd (a0 : Z) (cmd : option (list Z))
    (res : option foreign_exn) :
  read_cmd_ok cmd -> quiet a0 (EvWrite cmd res).
Proof.
  destruct cmd as [buf|]; [|by split].
  intros [rest ->].
  split; intros H;
    apply (f_equal (fun o => match o with
                             | Some l => nth 1 l 0
                             | None => 0
                             end)) in H;
    cbn in H; discriminate.
Qed.

Lemma block_cmd_ok (last_count block_count : Z)
    (last_cmd : option (list Z)) :
  read_cmd_ok last_cmd ->
  read_cmd_ok (block_cmd last_count block_count last_cmd).
Proof.
  intros H. unfold block_cmd.
  destruct (negb (last_count =? block_count)); [|done].
  unfold tuple_mul. destruct (Z.to_nat (block_count - 1)); cbn; eauto.
Qed.

Lemma read_cmd_ok_immediate (buf : list Z) :
  read_cmd_ok (Some buf) -> read_cmd_ok (Some (buf ++ _immediate)).
Proof. intros [rest ->]. cbn. eauto. Qed.

(** The address byte of a write transaction is even, so that the
    address byte of the read transaction that follows differs. *)
Lemma write_address_even (address : Z) :
  Z.lor (Z.land (Z.shiftl address 1) HIGH) BIT0
  <> Z.land (Z.shiftl address 1) HIGH.
Proof.
  intros H. apply (f_equal (fun z => Z.testbit z 0)) in H.
  rewrite Z.lor_spec, Z.land_spec, Z.shiftl_spec_low in H by lia.
  cbn in H. discriminate.
Qed.

Lemma emits_read_block {A : Type} (a0 : Z) (cmd : option (list Z))
    (size : Z) (k : list Z -> @M F A) :
  read_cmd_ok cmd -> (forall buf, emits F (k buf) (read_run a0)) ->
  emits F (bind (ftdi_write_data cmd)
              (fun _ => bind (ftdi_read_data_bytes size 4) k))
        (read_run a0).
Proof.
  intros Hcmd Hk.
  eapply emits_conseq.
  - eapply emits_bind; [apply emits_write|]. intros u.
    eapply emits_bind; [apply emits_read|]. exact Hk.
  - intros r t [(a & t1 & t2 & -> & (res & -> & Hr) & H2)|[H|H]].
    + destruct H2 as [(buf & t3 & t4 & -> & (res' & -> & Hr') & [H4 H5])
                     |[(e & -> & res' & -> & Hr')|(-> & res' & -> & Hr')]].
      * split; [|done]. constructor; [by apply quiet_read_cmd|].
        constructor; [done|]. exact H4.
      * split.
        -- constructor; [by apply quiet_read_cmd|]. by constructor.
        -- intros e' [= <-]. destruct res'; inversion Hr'. eauto.
      * destruct res'; discriminate.
    + destruct H as (e & -> & res & -> & Hr). split.
      * constructor; [by apply quiet_read_cmd|]. constructor.
      * intros e' [= <-]. destruct res; inversion Hr. eauto.
    + destruct H as (-> & res & -> & Hr). destruct res; discriminate.
Qed.

Lemma emits_do_read_loop (a0 : Z) (fuel : nat) :
  forall (chunk_size last_count count : Z) (last_cmd : option (list Z))
         (chunks : list (list Z)),
    read_cmd_ok last_cmd ->
    emits F (_do_read_loop fuel chunk_size last_count count last_cmd chunks)
          (read_run a0).
Proof.
  assert (Hret : forall chunks : list (list Z),
             emits F (@ret F _ chunks) (read_run (A := list (list Z)) a0)).
  { intros chunks. eapply emits_conseq; [apply emits_ret|].
    intros r t [-> ->]. split; [constructor|]. intros e [=]. }
  induction fuel as [|fuel IH];
    intros chunk_size last_count count last_cmd chunks Hok;
    cbn [_do_read_loop]; destruct (count =? 0); try apply Hret.
  - intros c c' r Hc Hrun. inversion Hrun; subst. split; [done|].
    exists []. rewrite app_nil_r. split; [done|].
    split; [constructor|]. intros e [=].
  - pose proof (block_cmd_ok last_count (Z.min count chunk_size) _ Hok)
      as Hcmd.
    destruct (count - Z.min count chunk_size <=? 0).
    + destruct (block_cmd last_count (Z.min count chunk_size) last_cmd)
        as [buf|].
      * intros c c' r Hc Hrun.
        refine (emits_read_block a0 (Some (buf ++ _immediate)) _ _
                  _ _ c c' r Hc Hrun).
        -- by apply read_cmd_ok_immediate.
        -- intros buf0. apply IH. by apply read_cmd_ok_immediate.
      * intros c c' r Hc Hrun. inversion Hrun; subst. split; [done|].
        exists []. rewrite app_nil_r. split; [done|].
        split; [constructor|]. intros e [= <-]. eauto.
    + intros c c' r Hc Hrun.
      refine (emits_read_block a0 _ _ _ Hcmd _ c c' r Hc Hrun).
      intros buf0. by apply IH.
Qed.

Lemma emits_do_read (a0 readlen : Z) :
  emits F (_do_read readlen) (read_run a0).
Proof.
  intros c c' r Hc Hrun. unfold _do_read in Hrun.
  assert (H : emits F
            (bind (_do_read_loop (Z.to_nat readlen + iterations)
                     (read_chunk_size (_tx_size c) (_rx_size c)) 0
                     readlen None [])
                  (fun chunks => ret (concat chunks)))
            (read_run a0)); [|exact (H c c' r Hc Hrun)].
  clear Hrun Hc c' r. eapply emits_conseq.
  - eapply emits_bind; [by apply (emits_do_read_loop a0)|].
    intros chunks. apply emits_ret.
  - intros r t [(a & t1 & t2 & -> & [H1 _] & -> & ->)|[H|H]].
    + rewrite app_nil_r. split; [done|]. intros e [=].
    + destruct H as (e & -> & H1 & H2). split; [done|].
      intros e' [= <-]. by apply H2.
    + destruct H as (-> & H1 & _). split; [done|]. intros e [=].
Qed.

End Commands.

(** ** The bodies of the [try] statements *)

Section Bodies.
Context {F : Type} {api : FtdiApi F} {patience : Patience}.

Lemma ack_outcome_allowed (ack : list Z) (e : exn) :
  ack_outcome ack = Raise e -> allowed e.
Proof.
  destruct ack as [|a tl]; cbn.
  - intros [= <-]. by left.
  - destruct (Z.land a BIT0 =? 0); intros [= <-]. right. by left.
Qed.

Lemma ack_outcome_nack (ack : list Z) (msg : string) :
  ack_outcome ack = Raise (I2cNackError msg) ->
  exists a tl, ack = a :: tl /\ Z.land a BIT0 <> 0.
Proof.
  destruct ack as [|a tl]; cbn; [discriminate|].
  destruct (Z.eqb_spec (Z.land a BIT0) 0); [discriminate|]. eauto.
Qed.

Lemma ack_step_allowed (cmd : list Z) (e : exn) (t : list event) :
  ack_step cmd (Raise e) t -> allowed e.
Proof.
  inversion 1; subst; try (right; right; eauto; fail).
  by eapply ack_outcome_allowed.
Qed.

Lemma ack_step_nack (cmd : list Z) (msg : string) (t : list event) :
  ack_step cmd (Raise (I2cNackError msg)) t -> ends_with_nack t.
Proof.
  inversion 1 as [| |ack Hack]; subst.
  destruct (ack_outcome_nack _ _ Hack) as (a & tl & -> & Ha).
  by exists [EvWrite (Some cmd) None], a, tl.
Qed.

Lemma ack_step_head (cmd : list Z) (r : outcome unit) (t : list event) :
  ack_step cmd r t ->
  exists res mid, t = EvWrite (Some cmd) res :: mid
                  /\ forall a0, Forall (quiet a0) mid.
Proof.
  inversion 1; subst; do 2 eexists; (split; [reflexivity|]);
    intros a0; repeat constructor.
Qed.

Lemma ends_with_nack_app (t1 t2 : list event) :
  ends_with_nack t2 -> ends_with_nack (t1 ++ t2).
Proof.
  intros (pre & a & tl & -> & Ha). exists (t1 ++ pre), a, tl.
  by rewrite app_assoc.
Qed.

Lemma write_run_quiet (a0 : Z) (out : list Z) (r : outcome unit)
    (t : list event) :
  write_run out r t ->
  Forall (quiet a0) t
  /\ (forall msg, r = Raise (I2cNackError msg) -> ends_with_nack t)
  /\ (forall e, r = Raise e -> allowed e).
Proof.
  induction 1 as [|byte rest r t Hs Hr|byte rest t1 r t2 Hs Hw IH].
  - split; [constructor|]. split; intros ? [=].
  - destruct (ack_step_head _ _ _ Hs) as (res & mid & -> & Hmid).
    split; [|split].
    + constructor; [apply quiet_write_cmd|apply Hmid].
    + intros msg ->. by eapply ack_step_nack.
    + intros e ->. by eapply ack_step_allowed.
  - destruct IH as (IH1 & IH2 & IH3).
    destruct (ack_step_head _ _ _ Hs) as (res & mid & -> & Hmid).
    split; [|split; [|done]].
    + apply Forall_app. split; [|done].
      constructor; [apply quiet_write_cmd|apply Hmid].
    + intros msg Hm. apply ends_with_nack_app. by eapply IH2.
Qed.

Lemma body_run_prolog (a0 : Z) (r : outcome unit) (t : list event) :
  ack_step (prolog_cmd a0) r t -> body_run a0 r t.
Proof.
  intros Hs. destruct (ack_step_head _ _ _ Hs) as (res & mid & Ht & Hmid).
  split; [|split].
  - exists res, mid. eauto.
  - intros msg ->. by eapply ack_step_nack.
  - intros e ->. by eapply ack_step_allowed.
Qed.

(** A body that went through its prolog and then only recorded quiet
    events. *)
Lemma body_run_extend {A : Type} (a0 : Z) (t1 t2 : list event)
    (r : outcome A) :
  ack_step (prolog_cmd a0) (Ok tt) t1 ->
  Forall (quiet a0) t2 ->
  (forall msg, r = Raise (I2cNackError msg) -> ends_with_nack t2) ->
  (forall e, r = Raise e -> allowed e) ->
  body_run a0 r (t1 ++ t2).
Proof.
  intros Hs Hq Hn Ha.
  destruct (ack_step_head _ _ _ Hs) as (res & mid & -> & Hmid).
  split; [|split; [|done]].
  - exists res, (mid ++ t2). split; [done|].
    apply Forall_app. split; [apply Hmid|done].
  - intros msg Hm. apply ends_with_nack_app. by eapply Hn.
Qed.

Lemma body_run_cast {A B : Type} (a0 : Z) (e : exn) (t : list event) :
  body_run (A := A) a0 (Raise e) t -> body_run (A := B) a0 (Raise e) t.
Proof.
  intros (H1 & H2 & H3). split; [done|]. split.
  - intros msg [= ->]. by eapply H2.
  - intros e' [= ->]. by eapply H3.
Qed.

Lemma emits_write_body (a0 : Z) (out : list Z) :
  emits F (write_body a0 out) (body_run a0).
Proof.
  eapply emits_conseq.
  - eapply emits_bind; [apply emits_prolog|]. intros u.
    apply emits_do_write.
  - intros r t [(a & t1 & t2 & -> & H1 & H2)|[(e & -> & H)|(-> & H)]].
    + destruct a. destruct (write_run_quiet a0 _ _ _ H2) as (Hq & Hn & Ha).
      by apply body_run_extend.
    + by apply body_run_prolog.
    + inversion H as [| |ack Hack]. destruct ack as [|a tl]; cbn in Hack;
        [discriminate|]. destruct (Z.land a BIT0 =? 0); discriminate.
Qed.

Lemma ack_step_not_diverge (cmd : list Z) (t : list event) :
  ~ ack_step cmd Diverge t.
Proof.
  inversion 1 as [| |ack Hack]. destruct ack as [|a tl]; cbn in Hack;
    [discriminate|]. destruct (Z.land a BIT0 =? 0); discriminate.
Qed.

Lemma emits_read_body (a0 readlen : Z) :
  emits F (read_body a0 readlen) (body_run a0).
Proof.
  eapply emits_conseq.
  - eapply emits_bind; [apply emits_prolog|]. intros u.
    eapply emits_bind; [apply (emits_do_read a0)|].
    intros data. apply emits_ret.
  - intros r t [(a & t1 & t2 & -> & H1 & H2)|[(e & -> & H)|(-> & H)]].
    + destruct a.
      destruct H2 as [(d & t3 & t4 & -> & [Hq _] & -> & ->)
                     |[(e & -> & Hq & He)|(-> & Hq & _)]].
      * rewrite app_nil_r. apply body_run_extend; try done.
      * apply body_run_extend; try done.
        -- intros msg [= ->]. destruct (He _ eq_refl). discriminate.
        -- intros e' [= <-]. right; right. by apply He.
      * apply body_run_extend; try done.
    + apply (body_run_cast (A := unit)). by apply body_run_prolog.
    + by apply ack_step_not_diverge in H.
Qed.

End Bodies.

Section Retry.
Context {F : Type} {api : FtdiApi F} {patience : Patience}.

Lemma ack_step_quiet (a0 : Z) (cmd : list Z) (r : outcome unit)
    (t : list event) :
  cmd <> _stop -> cmd <> prolog_cmd a0 ->
  ack_step cmd r t -> Forall (quiet a0) t.
Proof.
  intros H1 H2 Hs.
  destruct (ack_step_head _ _ _ Hs) as (res & mid & -> & Hmid).
  constructor; [|apply Hmid]. split; congruence.
Qed.

Lemma emits_exchange_body (address : Z) (out : list Z) (readlen : Z) :
  emits F (exchange_body (Z.land (Z.shiftl address 1) HIGH) out readlen)
        (body_run (Z.land (Z.shiftl address 1) HIGH)).
Proof.
  set (a0 := Z.land (Z.shiftl address 1) HIGH).
  assert (Hq1 : forall r t, ack_step (prolog_cmd (Z.lor a0 BIT0)) r t ->
                            Forall (quiet a0) t).
  { intros r t. apply ack_step_quiet; [apply prolog_cmd_not_stop|].
    intros H%prolog_cmd_inj. by apply write_address_even in H. }
  eapply emits_conseq.
  - eapply emits_bind; [apply emits_prolog|]. intros u.
    eapply emits_bind; [apply emits_do_write|]. intros u'.
    eapply emits_bind; [apply emits_prolog|]. intros u''.
    eapply emits_bind; [apply (emits_do_read a0)|].
    intros data. apply emits_ret.
  - intros r t [(a & t1 & t2 & -> & H1 & H2)|[(e & -> & H)|(-> & H)]].
    2:{ apply (body_run_cast (A := unit)). by apply body_run_prolog. }
    2:{ by apply ack_step_not_diverge in H. }
    destruct a.
    destruct H2 as [(a & t3 & t4 & -> & Hw & H3)|[(e & -> & Hw)|(-> & Hw)]].
    2:{ destruct (write_run_quiet a0 _ _ _ Hw) as (Hq & Hn & Ha).
        apply body_run_extend; try done.
        - intros msg [= ->]. by eapply Hn.
        - intros e' [= ->]. by eapply Ha. }
    2:{ destruct (write_run_quiet a0 _ _ _ Hw) as (Hq & Hn & Ha).
        apply body_run_extend; try done. }
    destruct a.
    destruct (write_run_quiet a0 _ _ _ Hw) as (Hq & _ & _).
    destruct H3 as [(a & t5 & t6 & -> & Hp & H4)|[(e & -> & Hp)|(-> & Hp)]].
    2:{ apply body_run_extend; try done.
        - apply Forall_app. split; [done|]. by eapply Hq1.
        - intros msg [= ->]. apply ends_with_nack_app.
          by eapply ack_step_nack.
        - intros e' [= ->]. by eapply ack_step_allowed. }
    2:{ by apply ack_step_not_diverge in Hp. }
    destruct a.
    assert (Hq5 : Forall (quiet a0) t5) by (by eapply Hq1).
    destruct H4 as [(d & t7 & t8 & -> & [Hr _] & -> & ->)
                   |[(e & -> & Hr & He)|(-> & Hr & _)]].
    + rewrite app_nil_r. apply body_run_extend; try done.
      repeat (apply Forall_app; split); done.
    + apply body_run_extend; try done.
      * repeat (apply Forall_app; split); done.
      * intros msg [= ->]. destruct (He _ eq_refl). discriminate.
      * intros e' [= <-]. right; right. by apply He.
    + apply body_run_extend; try done.
      repeat (apply Forall_app; split); done.
Qed.

Lemma emits_attempt {A : Type} (a0 : Z) (body : @M F A) (retries : Z) :
  emits F body (body_run a0) ->
  emits F (attempt body retries)
        (fun r t =>
           r = Diverge
           \/ exists tb te rb re,
               t = tb ++ te /\ body_run a0 rb tb /\ epilog_run re te
               /\ r = attempt_outcome retries rb re).
Proof.
  intros Hbody c c' r Hc Hrun.
  unfold attempt, try_finally, except_nack in Hrun.
  destruct (body c) as [rb c1] eqn:Eb.
  destruct (Hbody _ _ _ Hc Eb) as (Hc1 & tb & Htb & Hb).
  assert (Hfin : forall r1 : outcome (flow A),
             r1 <> Diverge ->
             (forall re, re <> Diverge ->
                         attempt_outcome retries rb re
                         = match re with
                           | Ok _ => r1
                           | Raise e => Raise e
                           | Diverge => Diverge
                           end) ->
             match r1 with
             | Diverge => (Diverge, c1)
             | _ => match _do_epilog c1 with
                    | (Ok _, c2) => (r1, c2)
                    | (Raise e, c2) => (Raise e, c2)
                    | (Diverge, c2) => (Diverge, c2)
                    end
             end = (r, c') ->
             is_Some (_ftdi c')
             /\ exists t, io_log c' = io_log c ++ t
                          /\ (r = Diverge
                              \/ exists tb te rb re,
                                  t = tb ++ te /\ body_run a0 rb tb
                                  /\ epilog_run re te
                                  /\ r = attempt_outcome retries rb re)).
  { intros r1 Hr1 Hout Hrun1.
    destruct (_do_epilog c1) as [re c2] eqn:Ee.
    destruct (emits_epilog _ _ _ Hc1 Ee) as (Hc2 & te & Hte & He).
    assert (r = attempt_outcome retries rb re /\ c' = c2) as [-> ->].
    { rewrite Hout by (intros ->; inversion He).
      destruct r1; try done; destruct re; inversion Hrun1; done. }
    split; [done|]. exists (tb ++ te). split.
    - by rewrite Hte, Htb, app_assoc.
    - right. by exists tb, te, rb, re. }
  destruct rb as [v|e|].
  - apply (Hfin (Ok (Return v))); [done| |done].
    intros [[]|e|]; done.
  - destruct e as [msg|msg|f].
    + apply (Hfin (Raise (I2cIOError msg))); [done| |done].
      intros [[]|e|]; done.
    + destruct (retries - 1 =? 0) eqn:Er.
      * apply (Hfin (Raise (I2cNackError msg))); [done| |done].
        intros [[]|e|]; cbn; rewrite ?Er; done.
      * apply (Hfin (Ok (Continue (retries - 1)))); [done| |done].
        intros [[]|e|]; cbn; rewrite ?Er; done.
    + apply (Hfin (Raise (Foreign f))); [done| |done].
      intros [[]|e|]; done.
  - inversion Hrun; subst. split; [done|]. exists tb. split; [done|].
    by left.
Qed.

End Retry.

Section Loop.
Context {F : Type} {api : FtdiApi F} {patience : Patience}.

Lemma epilog_run_allowed (e : exn) (t : list event) :
  epilog_run (Raise e) t -> allowed e.
Proof. inversion 1; subst; right; right; eauto. Qed.

Lemma attempt_outcome_raise {A : Type} (a0 retries : Z) (rb : outcome A)
    (re : outcome unit) (tb te : list event) (e : exn) :
  body_run a0 rb tb -> epilog_run re te ->
  attempt_outcome retries rb re = Raise e -> allowed e.
Proof.
  intros (_ & _ & Ha) He. unfold attempt_outcome.
  destruct re as [[]|e'|].
  - destruct rb as [v|[msg|msg|f]|]; try discriminate.
    + intros [= <-]. by apply Ha.
    + destruct (retries - 1 =? 0); [|discriminate].
      intros [= <-]. by apply Ha.
    + intros [= <-]. by apply Ha.
  - intros [= <-]. by eapply epilog_run_allowed.
  - discriminate.
Qed.

Lemma emits_retry_loop {A : Type} (a0 : Z) (body : @M F A) (fuel : nat) :
  emits F body (body_run a0) ->
  forall retries, emits F (retry_loop fuel body retries) (loop_run a0 fuel).
Proof.
  intros Hbody. induction fuel as [|fuel IH]; intros retries;
    cbn [retry_loop].
  - intros c c' r Hc Hrun. inversion Hrun; subst. split; [done|].
    exists []. rewrite app_nil_r. split; [done|]. by left.
  - eapply emits_conseq.
    + eapply emits_bind; [by apply (emits_attempt a0)|].
      intros fl.
      instantiate (1 := fun fl r t =>
                          match fl with
                          | Return v => r = Ok v /\ t = []
                          | Continue _ => loop_run a0 fuel r t
                          end).
      destruct fl; [apply emits_ret|apply IH].
    + intros r t [(fl & t1 & t2 & -> & H1 & H2)|[(e & -> & H)|(-> & H)]].
      * destruct H1 as [|(tb & te & rb & re & -> & Hb & He & Hout)];
          [discriminate|].
        unfold attempt_outcome in Hout.
        destruct He as [e'|e'|buf]; try discriminate.
        destruct rb as [v|[msg|msg|f]|]; try discriminate.
        -- injection Hout as ->. destruct H2 as [-> ->].
           right. exists [tb]. rewrite app_nil_r.
           split; [|split; [done|split; [cbn; lia|done]]].
           apply (attempts_last _ _ (Ok tt)); [apply Hb|constructor].
        -- destruct (retries - 1 =? 0); [discriminate|].
           injection Hout as ->.
           destruct H2 as [->|(bodies & Hat & Hne & Hlen & Hall)];
             [by left|].
           right. exists (tb :: bodies). rewrite <- app_assoc.
           split; [|split; [done|split; [cbn; lia|done]]].
           destruct Hb as (Hshape & Hnack & _).
           apply attempts_retry; eauto.
      * destruct H as [|(tb & te & rb & re & -> & Hb & He & Hout)];
          [discriminate|].
        right. exists [tb].
        split; [|split; [done|split; [cbn; lia|]]].
        -- apply (attempts_last _ _ re); [apply Hb|done].
        -- intros e' [= <-]. by eapply attempt_outcome_raise.
      * by left.
Qed.

(** The [try] statement of [poll]: one attempt. *)
Lemma emits_poll_try (a0 : Z) :
  emits F (try_finally
           (fun c =>
              match _do_prolog a0 c with
              | (Ok _, c1) => (Ok true, c1)
              | (Raise (I2cNackError _), c1) => (Ok false, c1)
              | (Raise e, c1) => (Raise e, c1)
              | (Diverge, c1) => (Diverge, c1)
              end)
           _do_epilog)
        (loop_run a0 1).
Proof.
  intros c c' r Hc Hrun. unfold try_finally in Hrun.
  destruct (_do_prolog a0 c) as [rp c1] eqn:Ep.
  destruct (emits_prolog _ _ _ _ Hc Ep) as (Hc1 & tb & Htb & Hp).
  pose proof (body_run_prolog _ _ _ Hp) as (Hshape & _ & Hall).
  destruct (_do_epilog c1) as [re c2] eqn:Ee.
  destruct (emits_epilog _ _ _ Hc1 Ee) as (Hc2 & te & Hte & He).
  assert (Hlog : io_log c2 = io_log c ++ tb ++ te)
    by (by rewrite Hte, Htb, app_assoc).
  assert (Hat : attempts a0 [tb] (tb ++ te))
    by (by apply (attempts_last _ _ re)).
  assert (Hdone : forall r1 : outcome bool,
             (forall e, r1 = Raise e -> allowed e) ->
             match re with
             | Ok _ => (r1, c2)
             | Raise e => (Raise e, c2)
             | Diverge => (Diverge, c2)
             end = (r, c') ->
             is_Some (_ftdi c')
             /\ exists t, io_log c' = io_log c ++ t /\ loop_run a0 1 r t).
  { intros r1 Hr1 Hrun1.
    assert (c' = c2) as -> by (destruct re; by inversion Hrun1).
    split; [done|]. exists (tb ++ te). split; [done|].
    right. exists [tb]. split; [done|]. split; [done|].
    split; [cbn; lia|].
    intros e ->. destruct re as [[]|e'|]; inversion Hrun1; subst.
    - by apply Hr1.
    - by eapply epilog_run_allowed. }
  destruct rp as [[]|[msg|msg|f]|]; try rewrite Ee in Hrun.
  - apply (Hdone (Ok true)); [intros ? [=]|done].
  - apply (Hdone (Raise (I2cIOError msg))); [|done].
    intros e [= <-]. by apply Hall.
  - apply (Hdone (Ok false)); [intros ? [=]|done].
  - apply (Hdone (Raise (Foreign f))); [|done].
    intros e [= <-]. by apply Hall.
  - by apply ack_step_not_diverge in Hp.
Qed.

End Loop.

Section Operations.
Context {F : Type} {api : FtdiApi F} {patience : Patience}.

Lemma loop_run_map {A B : Type} (f : A -> B) (a0 : Z) (fuel : nat)
    (rl : outcome A) (t : list event) :
  loop_run a0 fuel rl t ->
  loop_run a0 fuel
           (match rl with
            | Ok a => Ok (f a)
            | Raise e => Raise e
            | Diverge => Diverge
            end) t.
Proof.
  intros [->|(bodies & H1 & H2 & H3 & H4)]; [by left|].
  right. exists bodies. split; [done|]. split; [done|]. split; [done|].
  intros e He. apply H4. destruct rl; congruence.
Qed.

(** A loop run to its end under [perform]. *)
Lemma perform_loop {A : Type} (f : A -> retval) (a0 : Z) (fuel : nat)
    (m : @M F A) (c c' : I2cController F) (r : outcome retval) :
  emits F m (loop_run a0 fuel) -> is_Some (_ftdi c) ->
  bind m (fun a => ret (f a)) c = (r, c') ->
  exists t, io_log c' = io_log c ++ t /\ loop_run a0 fuel r t.
Proof.
  intros Hm Hc Hrun. unfold bind in Hrun.
  destruct (m c) as [rl cl] eqn:El.
  destruct (Hm _ _ _ Hc El) as (_ & t & Ht & Hl).
  apply (loop_run_map f) in Hl.
  exists t. destruct rl; inversion Hrun; subst; done.
Qed.

Lemma guard_passed {A : Type} (k : @M F A) (address : Z) (f : F)
    (c : I2cController F) :
  _ftdi c = Some f -> address <= HIGHEST_I2C_ADDRESS ->
  bind check_ftdi (fun _ => bind (validate_address address) (fun _ => k)) c
  = k c.
Proof.
  intros Hf Ha. unfold bind at 1. unfold check_ftdi. rewrite Hf.
  unfold bind. by rewrite validate_address_ok.
Qed.

Lemma guard_unconfigured {A : Type} (k : @M F A) (address : Z)
    (c : I2cController F) :
  _ftdi c = None ->
  bind check_ftdi (fun _ => bind (validate_address address) (fun _ => k)) c
  = (Raise (I2cIOError "FTDI controller not initialized"), c).
Proof. intros Hf. unfold bind at 1. unfold check_ftdi. by rewrite Hf. Qed.

Lemma guard_address {A : Type} (k : @M F A) (address : Z) (f : F)
    (c : I2cController F) :
  _ftdi c = Some f -> HIGHEST_I2C_ADDRESS < address ->
  bind check_ftdi (fun _ => bind (validate_address address) (fun _ => k)) c
  = (Raise (I2cIOError "No such I2c slave"), c).
Proof.
  intros Hf Ha. unfold bind at 1. unfold check_ftdi. rewrite Hf.
  unfold bind. by rewrite validate_address_too_high.
Qed.

(** Every request either is rejected by the checks, with the
    controller untouched, or runs its [try] statement. *)
Lemma perform_run (op : call) (c c' : I2cController F)
    (r : outcome retval) :
  perform op c = (r, c') ->
  (request_accepted c op = false /\ c' = c
   /\ exists msg, r = Raise (I2cIOError msg))
  \/ (request_accepted c op = true
      /\ exists t, io_log c' = io_log c ++ t
                   /\ loop_run (first_i2caddress op) (attempt_budget op)
                               r t).
Proof.
  intros Hrun. unfold request_accepted.
  destruct (_ftdi c) as [f|] eqn:Hf.
  2:{ left.
      destruct op; unfold perform, read, write, exchange, poll in Hrun;
        unfold bind at 1 in Hrun;
        rewrite guard_unconfigured in Hrun by done;
        inversion Hrun; eauto. }
  assert (Hc : is_Some (_ftdi c)) by (rewrite Hf; eauto).
  destruct (Z.ltb_spec HIGHEST_I2C_ADDRESS (call_address op)) as [Ha|Ha].
  { left.
    destruct op; cbn [call_address] in Ha;
      unfold perform, read, write, exchange, poll in Hrun;
      unfold bind at 1 in Hrun;
      rewrite (guard_address _ _ f) in Hrun by done;
      inversion Hrun; eauto. }
  destruct op as [address readlen|address out|address out readlen|address];
    cbn [call_address] in Ha; cbn [negb andb call_address];
    unfold perform, read, write, exchange, poll in Hrun;
    unfold bind at 1 in Hrun;
    rewrite (guard_passed _ _ f) in Hrun by done.
  - destruct (readlen <? 1) eqn:Hr.
    { left. inversion Hrun; eauto. }
    right. split; [done|].
    eapply (perform_loop RBytes); [|done|exact Hrun].
    apply emits_retry_loop. apply emits_read_body.
  - destruct (length out =? 0)%nat eqn:Ho.
    { left. inversion Hrun; eauto. }
    right. split; [done|].
    eapply (perform_loop (fun _ => RNone)); [|done|exact Hrun].
    apply emits_retry_loop. apply emits_write_body.
  - destruct (length out =? 0)%nat eqn:Ho.
    { left. inversion Hrun; eauto. }
    destruct (readlen <? 1) eqn:Hr.
    { left. inversion Hrun; eauto. }
    destruct (payload_too_large readlen) eqn:Hp.
    { left. inversion Hrun; eauto. }
    right. split; [done|].
    eapply (perform_loop RBytes); [|done|exact Hrun].
    apply emits_retry_loop. apply emits_exchange_body.
  - right. split; [done|].
    eapply (perform_loop RBool); [|done|exact Hrun].
    apply emits_poll_try.
Qed.

(** *** What the sequence of attempts says about the stop sequence *)

Lemma stop_writes_app (t1 t2 : list event) :
  stop_writes (t1 ++ t2) = (stop_writes t1 + stop_writes t2)%nat.
Proof.
  induction t1 as [|[cmd res|size attempt res] t1 IH]; cbn; [done| |done].
  destruct (bool_decide (cmd = Some _stop)); cbn; by rewrite IH.
Qed.

Lemma stop_writes_quiet (a0 : Z) (t : list event) :
  Forall (quiet a0) t -> stop_writes t = 0%nat.
Proof.
  induction 1 as [|[cmd res|size attempt res] t Hq _ IH]; cbn; try done.
  destruct Hq as [Hq _]. by rewrite bool_decide_eq_false_2.
Qed.

Lemma stop_writes_body (a0 : Z) (body : list event) :
  body_shape a0 body -> stop_writes body = 0%nat.
Proof.
  intros (res & mid & -> & Hq). cbn [stop_writes].
  rewrite bool_decide_eq_false_2.
  - by eapply stop_writes_quiet.
  - intros H. assert (H' : prolog_cmd a0 = _stop) by congruence.
    by apply prolog_cmd_not_stop in H'.
Qed.

Lemma stop_writes_epilog (re : outcome unit) (te : list event) :
  epilog_run re te -> stop_writes te = 1%nat.
Proof. inversion 1; cbn; by rewrite bool_decide_eq_true_2. Qed.

Lemma attempts_stop_writes (a0 : Z) (bodies : list (list event))
    (t : list event) :
  attempts a0 bodies t -> stop_writes t = length bodies.
Proof.
  induction 1 as [|body re te Hb He|body buf bodies rest Hb Hn Hne Hat IH].
  - done.
  - rewrite stop_writes_app, (stop_writes_body a0), (stop_writes_epilog re)
      by done. done.
  - rewrite stop_writes_app, (stop_writes_body a0) by done.
    cbn. rewrite bool_decide_eq_true_2 by done. by rewrite IH.
Qed.

End Operations.

(** ** Outcomes against records *)

Section Outcomes.
Context {F : Type} {api : FtdiApi F} {patience : Patience}.

Lemma emits_and {A : Type} (m : @M F A)
    (P Q : outcome A -> list event -> Prop) :
  emits F m P -> emits F m Q -> emits F m (fun r t => P r t /\ Q r t).
Proof.
  intros HP HQ c c' r Hc Hrun.
  destruct (HP _ _ _ Hc Hrun) as (Hc' & t & Ht & Hp).
  destruct (HQ _ _ _ Hc Hrun) as (_ & t' & Ht' & Hq).
  rewrite Ht in Ht'. apply app_inv_head in Ht'. subst t'. eauto.
Qed.

Lemma no_failure_app (t1 t2 : list event) :
  no_failure (t1 ++ t2) <-> no_failure t1 /\ no_failure t2.
Proof. apply Forall_app. Qed.

Lemma raises_last_clean {A : Type} (a : A) (t : list event) :
  raises_last (Ok a) t -> no_failure t.
Proof. intros [H|(pre & ev & e & _ & _ & _ & H)]; done. Qed.

Lemma told_nil {A : Type} (r : outcome A) :
  (forall msg, r <> Raise (I2cIOError msg)) -> told r [].
Proof. intros H. split; [left; constructor|]. intros msg Hr. by destruct (H msg). Qed.

Lemma told_app {A : Type} (r : outcome A) (t1 t2 : list event) :
  no_failure t1 -> told r t2 -> told r (t1 ++ t2).
Proof.
  intros H1 [Hl Hio]. split.
  - destruct Hl as [H2|(pre & ev & e & -> & Hpre & Hev & ->)].
    + left. by apply no_failure_app.
    + right. exists (t1 ++ pre), ev, e. rewrite app_assoc.
      split; [done|]. split; [by apply no_failure_app|done].
  - intros msg Hr. destruct (Hio msg Hr) as (-> & pre & ->).
    split; [done|]. exists (t1 ++ pre). by rewrite app_assoc.
Qed.

Lemma told_cast {A B : Type} (e : exn) (t : list event) :
  told (Raise e : outcome A) t -> told (Raise e : outcome B) t.
Proof.
  intros [Hl Hio]. split.
  - destruct Hl as [H|(pre & ev & e' & -> & Hpre & Hev & [= ->])];
      [by left|]. right. by exists pre, ev, e'.
  - intros msg [= ->]. by apply Hio.
Qed.

Lemma told_diverge {A B : Type} (t : list event) :
  told (Diverge : outcome A) t -> told (Diverge : outcome B) t.
Proof.
  intros [[H|(pre & ev & e' & _ & _ & _ & [=])] _].
  split; [by left|]. intros msg [=].
Qed.

Lemma emits_bind_told {A B : Type} (m : @M F A) (k : A -> @M F B) :
  emits F m told -> (forall a, emits F (k a) told) ->
  emits F (bind m k) told.
Proof.
  intros Hm Hk.
  eapply emits_conseq; [by apply (emits_bind m k told (fun _ => told))|].
  intros r t [(a & t1 & t2 & -> & H1 & H2)|[(e & -> & H)|(-> & H)]].
  - apply told_app; [|done]. destruct H1 as [H1 _].
    by eapply raises_last_clean.
  - by eapply told_cast.
  - by eapply told_diverge.
Qed.

Lemma emits_write_told (cmd : option (list Z)) :
  emits F (ftdi_write_data cmd) told.
Proof.
  eapply emits_conseq; [apply emits_write|].
  intros r t (res & -> & ->). destruct res as [e|].
  - split; [|intros msg [=]]. right. exists [], (EvWrite cmd (Some e)), e.
    repeat split; constructor.
  - split; [|intros msg [=]]. left. by repeat constructor.
Qed.

Lemma emits_read_told (size attempt : Z) :
  emits F (ftdi_read_data_bytes size attempt) told.
Proof.
  eapply emits_conseq; [apply emits_read|].
  intros r t (res & -> & ->). destruct res as [e|buf].
  - split; [|intros msg [=]]. right.
    exists [], (EvRead size attempt (inl e)), e. repeat split; constructor.
  - split; [|intros msg [=]]. left. by repeat constructor.
Qed.

Lemma ack_step_told (cmd : list Z) (r : outcome unit) (t : list event) :
  ack_step cmd r t -> told r t.
Proof.
  inversion 1 as [e|e|ack]; subst.
  - split; [|intros msg [=]]. right.
    exists [], (EvWrite (Some cmd) (Some e)), e. repeat split; constructor.
  - split; [|intros msg [=]]. right.
    exists [EvWrite (Some cmd) None], (EvRead 1 4 (inl e)), e.
    repeat split; by repeat constructor.
  - split; [left; by repeat constructor|].
    intros msg Hr. destruct ack as [|a tl]; cbn in Hr.
    + injection Hr as <-. split; [done|].
      by exists [EvWrite (Some cmd) None].
    + destruct (Z.land a BIT0 =? 0); discriminate.
Qed.

Lemma write_run_told (out : list Z) (r : outcome unit) (t : list event) :
  write_run out r t -> told r t.
Proof.
  induction 1 as [|byte rest r t Hs Hr|byte rest t1 r t2 Hs Hw IH].
  - apply told_nil. intros msg [=].
  - by eapply ack_step_told.
  - apply told_app; [|done].
    apply ack_step_told in Hs as [Hs _]. by eapply raises_last_clean.
Qed.

Lemma emits_do_read_loop_told (fuel : nat) :
  forall (chunk_size last_count count : Z) (last_cmd : option (list Z))
         (chunks : list (list Z)),
    emits F (_do_read_loop fuel chunk_size last_count count last_cmd chunks)
          told.
Proof.
  assert (Hret : forall (A : Type) (a : A), emits F (@ret F A a) told).
  { intros A a. eapply emits_conseq; [apply emits_ret|].
    intros r t [-> ->]. apply told_nil. intros msg [=]. }
  induction fuel as [|fuel IH]; intros chunk_size last_count count last_cmd
                                       chunks; cbn [_do_read_loop];
    destruct (count =? 0); try apply Hret.
  - intros c c' r Hc [= <- <-]. split; [done|]. exists [].
    rewrite app_nil_r. split; [done|]. apply told_nil. intros msg [=].
  - cbv zeta. apply emits_bind_told.
    + destruct (_ <=? 0); [|apply Hret].
      destruct (block_cmd _ _ _); [apply Hret|].
      eapply emits_conseq; [apply emits_raise|].
      intros r t [-> ->]. apply told_nil. intros msg [=].
    + intros cmd. apply emits_bind_told; [apply emits_write_told|].
      intros _. apply emits_bind_told; [apply emits_read_told|].
      intros buf. apply IH.
Qed.

Lemma emits_do_read_told (readlen : Z) : emits F (_do_read readlen) told.
Proof.
  intros c c' r Hc Hrun. unfold _do_read in Hrun. revert Hrun.
  apply emits_bind_told; [apply emits_do_read_loop_told| |done].
  intros chunks. eapply emits_conseq; [apply emits_ret|].
  intros r' t [-> ->]. apply told_nil. intros msg [=].
Qed.

Lemma emits_prolog_told (i2caddress : Z) :
  emits F (_do_prolog i2caddress) told.
Proof.
  eapply emits_conseq; [apply emits_prolog|]. intros r t.
  apply ack_step_told.
Qed.

Lemma emits_do_write_told (out : list Z) : emits F (_do_write out) told.
Proof.
  eapply emits_conseq; [apply emits_do_write|]. intros r t.
  apply write_run_told.
Qed.

Lemma emits_ret_told {A : Type} (a : A) : emits F (@ret F A a) told.
Proof.
  eapply emits_conseq; [apply emits_ret|].
  intros r t [-> ->]. apply told_nil. intros msg [=].
Qed.

Lemma emits_read_body_end (a0 readlen : Z) :
  emits F (read_body a0 readlen) (body_end a0).
Proof.
  apply emits_and; [apply emits_read_body|].
  apply emits_bind_told; [apply emits_prolog_told|]. intros _.
  apply emits_bind_told; [apply emits_do_read_told|]. intros data.
  apply emits_ret_told.
Qed.

Lemma emits_write_body_end (a0 : Z) (out : list Z) :
  emits F (write_body a0 out) (body_end a0).
Proof.
  apply emits_and; [apply emits_write_body|].
  apply emits_bind_told; [apply emits_prolog_told|]. intros _.
  apply emits_do_write_told.
Qed.

Lemma emits_exchange_body_end (address : Z) (out : list Z) (readlen : Z) :
  emits F (exchange_body (Z.land (Z.shiftl address 1) HIGH) out readlen)
        (body_end (Z.land (Z.shiftl address 1) HIGH)).
Proof.
  apply emits_and; [apply emits_exchange_body|].
  apply emits_bind_told; [apply emits_prolog_told|]. intros _.
  apply emits_bind_told; [apply emits_do_write_told|]. intros _.
  apply emits_bind_told; [apply emits_prolog_told|]. intros _.
  apply emits_bind_told; [apply emits_do_read_told|]. intros data.
  apply emits_ret_told.
Qed.

(** The [try] statement, with what its body and its [finally] clause
    ended with. *)
Lemma emits_attempt_end {A : Type} (body : @M F A) (retries : Z)
    (P : outcome A -> list event -> Prop) :
  emits F body P ->
  emits F (attempt body retries)
        (fun r t =>
           r = Diverge
           \/ exists tb te rb re,
               t = tb ++ te /\ P rb tb /\ rb <> Diverge
               /\ epilog_run re te
               /\ r = attempt_outcome retries rb re).
Proof.
  intros Hbody c c' r Hc Hrun.
  unfold attempt, try_finally, except_nack in Hrun.
  destruct (body c) as [rb c1] eqn:Eb.
  destruct (Hbody _ _ _ Hc Eb) as (Hc1 & tb & Htb & Hb).
  destruct (_do_epilog c1) as [re c2] eqn:Ee.
  destruct (emits_epilog _ _ _ Hc1 Ee) as (Hc2 & te & Hte & He).
  destruct rb as [v|e|].
  2: destruct e as [msg|msg|f].
  3: destruct (retries - 1 =? 0) eqn:Er.
  all: try (inversion Hrun; subst; split; [done|]; exists tb;
            split; [done|]; by left).
  all: cbv beta iota in Hrun; rewrite ?Ee in Hrun;
    assert (c' = c2) as -> by (destruct re; by inversion Hrun);
    (split; [done|]); exists (tb ++ te);
    (split; [by rewrite Hte, Htb, app_assoc|]); right;
    eexists tb, te, _, re; (split; [done|]); (split; [exact Hb|]);
    (split; [done|]); (split; [done|]);
    destruct re as [[]|e'|]; cbn; rewrite ?Er;
    by inversion Hrun.
Qed.

Lemma epilog_run_ok (te : list event) :
  epilog_run (Ok tt) te ->
  exists buf, te = [EvWrite (Some _stop) None; EvRead 1 1 (inr buf)].
Proof. inversion 1. eauto. Qed.

Lemma epilog_run_not_diverge (re : outcome unit) (te : list event) :
  epilog_run re te -> re <> Diverge.
Proof. by inversion 1. Qed.

(** The retry loop: its record is cut into attempts, and its outcome
    is the one of the last attempt. *)
Lemma emits_retry_tries {A : Type} (a0 : Z) (body : @M F A) (fuel : nat) :
  emits F body (body_end a0) ->
  forall retries,
    emits F (retry_loop fuel body retries)
          (fun r t => r = Diverge
                      \/ exists bodies, tries a0 None retries bodies t r).
Proof.
  intros Hbody. induction fuel as [|fuel IH]; intros retries;
    cbn [retry_loop].
  - intros c c' r Hc Hrun. inversion Hrun; subst. split; [done|].
    exists []. rewrite app_nil_r. split; [done|]. by left.
  - eapply emits_conseq.
    + eapply emits_bind; [by apply emits_attempt_end|].
      intros fl.
      instantiate (1 := fun fl r t =>
                          match fl with
                          | Return v => r = Ok v /\ t = []
                          | Continue n =>
                              r = Diverge
                              \/ exists bodies, tries a0 None n bodies t r
                          end).
      destruct fl; [apply emits_ret|apply IH].
    + intros r t [(fl & t1 & t2 & -> & H1 & H2)|[(e & -> & H)|(-> & H)]].
      * destruct H1 as [|(tb & te & rb & re & -> & Hb & Hnd & He & Hout)];
          [discriminate|].
        unfold attempt_outcome in Hout.
        destruct re as [[]|e'|]; try discriminate.
        destruct rb as [v|[msg|msg|f]|]; try discriminate.
        -- injection Hout as ->. destruct H2 as [-> ->].
           right. exists [tb]. rewrite app_nil_r.
           apply (tries_last a0 None retries tb (Ok v) (Ok tt) te);
             try done.
        -- destruct (Z.eqb_spec (retries - 1) 0) as [E|E]; [discriminate|].
           injection Hout as ->.
           destruct H2 as [->|(bodies & Htr)]; [by left|].
           right. exists (tb :: bodies). rewrite <- app_assoc.
           destruct (epilog_run_ok _ He) as (buf & ->).
           eapply tries_again; eauto. lia.
      * destruct H as [|(tb & te & rb & re & -> & Hb & Hnd & He & Hout)];
          [discriminate|].
        right. exists [tb].
        assert (Hfin : Raise e = final None rb re).
        { unfold attempt_outcome in Hout. unfold final.
          destruct re as [[]|e'|]; [|by injection Hout as ->|done].
          destruct rb as [v|[msg|msg|f]|]; try done;
            try (by injection Hout as ->).
          destruct (retries - 1 =? 0); [by injection Hout as ->|done]. }
        rewrite Hfin. apply tries_last; try done.
        intros msg -> -> _. unfold attempt_outcome in Hout.
        destruct (Z.eqb_spec (retries - 1) 0) as [E|E]; [lia|discriminate].
      * destruct H as [|(tb & te & rb & re & -> & Hb & Hnd & He & Hout)];
          [by left|].
        exfalso. unfold attempt_outcome in Hout.
        apply epilog_run_not_diverge in He.
        destruct re as [[]|e'|]; try done.
        destruct rb as [v|[msg|msg|f]|]; try done.
        by destruct (retries - 1 =? 0).
Qed.

Lemma body_run_map {A B : Type} (f : A -> B) (a0 : Z) (rb : outcome A)
    (body : list event) :
  body_end a0 rb body -> body_end a0 (outcome_map f rb) body.
Proof.
  intros [(H1 & H2 & H3) [Hl Hio]].
  split; [split; [done|split]|split].
  - intros msg Hr. destruct rb; try discriminate. injection Hr as ->.
    by eapply H2.
  - intros e Hr. destruct rb; try discriminate. injection Hr as ->.
    by eapply H3.
  - destruct Hl as [H|(pre & ev & e & -> & Hpre & Hev & ->)]; [by left|].
    right. by exists pre, ev, e.
  - intros msg Hr. destruct rb; try discriminate. injection Hr as ->.
    by apply Hio.
Qed.

Lemma final_map {A B : Type} (f : A -> B) (caught : option A)
    (rb : outcome A) (re : outcome unit) :
  outcome_map f (final caught rb re)
  = final (option_map f caught) (outcome_map f rb) re.
Proof.
  destruct re as [[]|e|]; try done.
  destruct rb as [v|[msg|msg|g]|]; try done. by destruct caught.
Qed.

Lemma tries_map {A B : Type} (f : A -> B) (a0 : Z) (caught : option A)
    (retries : Z) (bodies : list (list event)) (t : list event)
    (r : outcome A) :
  tries a0 caught retries bodies t r ->
  tries a0 (option_map f caught) retries bodies t (outcome_map f r).
Proof.
  induction 1 as [retries body rb re te Hb Hnd He Hn
                 |retries body msg buf bodies rest r Hb Hc Hr Ht IH].
  - rewrite final_map. apply tries_last; try done.
    + by apply body_run_map.
    + by destruct rb.
    + intros msg Hrb -> Hc. destruct caught; [done|].
      destruct rb; try discriminate. injection Hrb as ->. by eapply Hn.
  - eapply tries_again; try done.
    + apply (body_run_map f) in Hb. exact Hb.
    + by subst caught.
Qed.

(** A retry loop under [perform]. *)
Lemma perform_tries {A : Type} (f : A -> retval) (a0 : Z) (fuel : nat)
    (retries : Z) (body : @M F A) (c c' : I2cController F)
    (r : outcome retval) :
  emits F body (body_end a0) -> is_Some (_ftdi c) ->
  bind (retry_loop fuel body retries) (fun a => ret (f a)) c = (r, c') ->
  r <> Diverge ->
  exists bodies t,
    io_log c' = io_log c ++ t /\ tries a0 None retries bodies t r.
Proof.
  intros Hbody Hc Hrun Hr. unfold bind in Hrun.
  destruct (retry_loop fuel body retries c) as [rl cl] eqn:El.
  destruct (emits_retry_tries a0 body fuel Hbody retries _ _ _ Hc El)
    as (_ & t & Ht & Hl).
  assert (r = outcome_map f rl /\ c' = cl) as [-> ->]
    by (destruct rl; by inversion Hrun).
  destruct Hl as [->|(bodies & Htr)]; [done|].
  exists bodies, t. split; [done|]. by apply (tries_map f) in Htr.
Qed.

(** The [try] statement of [poll]. *)
Lemma poll_tries (a0 : Z) (c c' : I2cController F) (r : outcome bool) :
  is_Some (_ftdi c) ->
  try_finally
    (fun c =>
       match _do_prolog a0 c with
       | (Ok _, c1) => (Ok true, c1)
       | (Raise (I2cNackError _), c1) => (Ok false, c1)
       | (Raise e, c1) => (Raise e, c1)
       | (Diverge, c1) => (Diverge, c1)
       end)
    _do_epilog c = (r, c') ->
  exists body t,
    io_log c' = io_log c ++ t /\ tries a0 (Some false) 1 [body] t r.
Proof.
  intros Hc Hrun. unfold try_finally in Hrun.
  destruct (_do_prolog a0 c) as [rp c1] eqn:Ep.
  destruct (emits_prolog _ _ _ _ Hc Ep) as (Hc1 & tb & Htb & Hp).
  destruct (_do_epilog c1) as [re c2] eqn:Ee.
  destruct (emits_epilog _ _ _ Hc1 Ee) as (Hc2 & te & Hte & He).
  assert (Hb : body_end a0 (outcome_map (fun _ : unit => true) rp) tb).
  { apply body_run_map. split; [by apply body_run_prolog|].
    by apply (ack_step_told (prolog_cmd a0)). }
  assert (Hnd : rp <> Diverge).
  { intros ->. by apply ack_step_not_diverge in Hp. }
  assert (r = final (Some false) (outcome_map (fun _ : unit => true) rp) re
          /\ c' = c2) as [-> ->].
  { destruct rp as [[]|[msg|msg|g]|]; try done; cbv beta iota in Hrun;
      rewrite ?Ee in Hrun; destruct re as [[]|e'|]; by inversion Hrun. }
  exists tb, (tb ++ te). split; [by rewrite Hte, Htb, app_assoc|].
  apply tries_last; try done. by destruct rp.
Qed.

(** Every request that passed the checks and ended: its record is cut
    into attempts and its outcome is the one of the last attempt. *)
Lemma perform_accepted (op : call) (c c' : I2cController F)
    (r : outcome retval) :
  perform op c = (r, c') -> request_accepted c op = true ->
  r <> Diverge ->
  exists bodies t,
    io_log c' = io_log c ++ t
    /\ tries (first_i2caddress op) (nack_result op)
             (Z.of_nat (attempt_budget op)) bodies t r.
Proof.
  intros Hrun Hacc Hr. unfold request_accepted in Hacc.
  destruct (_ftdi c) as [f|] eqn:Hf; [|discriminate].
  assert (Hc : is_Some (_ftdi c)) by (rewrite Hf; eauto).
  apply andb_true_iff in Hacc as [Ha Hp].
  apply negb_true_iff, Z.ltb_ge in Ha.
  destruct op as [address readlen|address out|address out readlen|address];
    cbn [call_address] in Ha;
    unfold perform in Hrun; unfold read, write, exchange, poll in Hrun;
    unfold bind at 1 in Hrun;
    rewrite (guard_passed _ _ f) in Hrun by done;
    cbn [first_i2caddress attempt_budget nack_result].
  - apply negb_true_iff in Hp. rewrite Hp in Hrun.
    eapply (perform_tries RBytes); [|done|exact Hrun|done].
    apply emits_read_body_end.
  - apply negb_true_iff in Hp. rewrite Hp in Hrun.
    eapply (perform_tries (fun _ => RNone)); [|done|exact Hrun|done].
    apply emits_write_body_end.
  - apply andb_true_iff in Hp as [Hp Hp3].
    apply andb_true_iff in Hp as [Hp1 Hp2].
    apply negb_true_iff in Hp1, Hp2, Hp3.
    rewrite Hp1, Hp2, Hp3 in Hrun.
    eapply (perform_tries RBytes); [|done|exact Hrun|done].
    apply emits_exchange_body_end.
  - destruct (try_finally _ _ c) as [rl cl] eqn:El.
    destruct (poll_tries _ _ _ _ Hc El) as (body & t & Ht & Htr).
    assert (r = outcome_map RBool rl /\ c' = cl) as [-> ->]
      by (destruct rl; by inversion Hrun).
    exists [body], t. split; [done|]. by apply (tries_map RBool) in Htr.
Qed.

(** *** What the attempts say *)

Lemma tries_attempts {A : Type} (a0 : Z) (caught : option A)
    (retries : Z) (bodies : list (list event)) (t : list event)
    (r : outcome A) :
  tries a0 caught retries bodies t r ->
  attempts a0 bodies t /\ bodies <> []
  /\ (1 <= retries -> (length bodies <= Z.to_nat retries)%nat)
  /\ (caught <> None -> length bodies = 1%nat).
Proof.
  induction 1 as [retries body rb re te [(Hs & _) _] Hnd He Hn
                 |retries body msg buf bodies rest r [(Hs & Hk & _) _]
                    Hc Hr Ht (IH1 & IH2 & IH3 & IH4)].
  - split; [by eapply attempts_last|]. split; [done|].
    split; [cbn; lia|done].
  - split; [apply attempts_retry; eauto|]. split; [done|].
    split; [|done]. intros Hge. cbn.
    assert (1 <= retries - 1) by lia. specialize (IH3 ltac:(lia)). lia.
Qed.

Lemma last_failure_app (t1 t2 : list event) :
  last_failure (t1 ++ t2)
  = match last_failure t2 with
    | Some e => Some e
    | None => last_failure t1
    end.
Proof.
  induction t1 as [|ev t1 IH]; cbn; [by destruct (last_failure t2)|].
  rewrite IH. by destruct (last_failure t2).
Qed.

Lemma no_failure_last (t : list event) :
  no_failure t -> last_failure t = None.
Proof. induction 1 as [|ev t Hev _ IH]; cbn; [done|]. by rewrite IH. Qed.

Lemma failure_after_clean (t1 t2 pre post : list event) (ev : event) :
  no_failure t1 -> t1 ++ t2 = pre ++ ev :: post -> failure_of ev <> None ->
  exists pre', pre = t1 ++ pre' /\ t2 = pre' ++ ev :: post.
Proof.
  intros H1. revert pre. induction H1 as [|x t1 Hx _ IH]; intros pre Heq Hev.
  - by exists pre.
  - destruct pre as [|y pre]; cbn in Heq.
    + injection Heq as -> _. done.
    + injection Heq as -> Heq. destruct (IH pre Heq Hev) as (pre' & -> & ->).
      by exists pre'.
Qed.

Lemma failure_at_end (pre0 pre post : list event) (ev0 ev : event) :
  no_failure pre0 -> pre0 ++ [ev0] = pre ++ ev :: post ->
  failure_of ev <> None -> post = [] /\ ev = ev0.
Proof.
  intros H0 Heq Hev.
  destruct (failure_after_clean pre0 [ev0] pre post ev H0 Heq Hev)
    as (pre' & -> & Hpre').
  destruct pre' as [|y [|z pre']]; cbn in Hpre'; try discriminate.
  by injection Hpre' as -> ->.
Qed.

(** When an engine call raised, the operation raised the exception of
    the last call that did, and after the first such call nothing
    followed but the epilog of that attempt. *)
Lemma tries_failure {A : Type} (a0 : Z) (caught : option A)
    (retries : Z) (bodies : list (list event)) (t : list event)
    (r : outcome A) :
  tries a0 caught retries bodies t r ->
  (forall e, last_failure t = Some e -> r = Raise (Foreign e))
  /\ (no_failure t -> forall e, r = Raise e ->
       exists body, last bodies = Some body
                    /\ body_end a0 (Raise e : outcome A) body)
  /\ forall pre ev post,
      t = pre ++ ev :: post -> failure_of ev <> None ->
      post = [] \/ exists re, epilog_run re post.
Proof.
  induction 1 as [retries body rb re te Hb Hnd He Hn
                 |retries body msg buf bodies rest r Hb Hc Hr Ht
                    (IH1 & IH2 & IH3)].
  - pose proof Hb as [_ [Hl _]].
    assert (Hte : (re = Ok tt /\ no_failure te)
                  \/ exists e pre0 ev0,
                      re = Raise (Foreign e) /\ te = pre0 ++ [ev0]
                      /\ no_failure pre0 /\ failure_of ev0 = Some e
                      /\ last_failure te = Some e).
    { inversion He as [e|e|buf]; subst.
      - right. exists e, [], (EvWrite (Some _stop) (Some e)).
        repeat split; constructor.
      - right. exists e, [EvWrite (Some _stop) None],
                 (EvRead 1 1 (inl e)).
        repeat split; by repeat constructor.
      - left. split; [done|]. by repeat constructor. }
    split; [|split].
    + intros e. rewrite last_failure_app.
      destruct Hte as [[-> Hcl]|(e' & pre0 & ev0 & -> & _ & _ & _ & Hlast)].
      * rewrite (no_failure_last _ Hcl).
        destruct Hl as [Hcb|(pre & ev & e' & -> & Hpre & Hev & ->)].
        { by rewrite (no_failure_last _ Hcb). }
        rewrite last_failure_app. cbn. rewrite Hev. by intros [= ->].
      * rewrite Hlast. by intros [= ->].
    + intros Hcl e Hr. apply no_failure_app in Hcl as [Hcb Hce].
      destruct Hte as [[-> _]|(e' & pre0 & ev0 & _ & -> & _ & Hev & _)].
      2:{ apply no_failure_app in Hce as [_ Hce].
          inversion Hce as [|? ? Hx _]; subst. congruence. }
      unfold final in Hr.
      destruct rb as [v|[m|m|g]|]; try discriminate;
        try (destruct caught; [discriminate|]); injection Hr as <-;
        by exists body.
    + intros pre ev post Heq Hev.
      destruct Hl as [Hcb|(pre1 & ev1 & e1 & -> & Hpre1 & Hev1 & ->)].
      * destruct (failure_after_clean _ _ _ _ _ Hcb Heq Hev)
          as (pre' & -> & Hte').
        destruct Hte as [[_ Hcl]|(e' & pre0 & ev0 & _ & -> & Hp0 & _ & _)].
        { rewrite Hte' in Hcl. apply no_failure_app in Hcl as [_ Hcl].
          inversion Hcl; subst. done. }
        left. by destruct (failure_at_end _ _ _ _ _ Hp0 Hte' Hev).
      * rewrite <- app_assoc in Heq. cbn in Heq.
        destruct (failure_after_clean _ _ _ _ _ Hpre1 Heq Hev)
          as (pre' & -> & Hrest).
        destruct pre' as [|y pre']; cbn in Hrest.
        { injection Hrest as _ <-. right. by exists re. }
        injection Hrest as <- Hrest.
        destruct Hte as [[_ Hcl]|(e' & pre0 & ev0 & _ & -> & Hp0 & _ & _)].
        { rewrite Hrest in Hcl. apply no_failure_app in Hcl as [_ Hcl].
          inversion Hcl; subst. done. }
        left. by destruct (failure_at_end _ _ _ _ _ Hp0 Hrest Hev).
  - pose proof Hb as [_ [Hl _]].
    assert (Hcb : no_failure body).
    { destruct Hl as [H|(pre & ev & e & _ & _ & _ & [=])]. done. }
    assert (Hcl : no_failure
                    (body ++ [EvWrite (Some _stop) None;
                              EvRead 1 1 (inr buf)])).
    { apply no_failure_app. split; [done|]. by repeat constructor. }
    rewrite app_assoc. split; [|split].
    + intros e. rewrite last_failure_app.
      destruct (last_failure rest) as [e'|] eqn:El.
      * intros [= <-]. by apply IH1.
      * by rewrite (no_failure_last _ Hcl).
    + intros Hall e Hre. apply no_failure_app in Hall as [_ Hrest].
      destruct (IH2 Hrest e Hre) as (b & Hlast & Hbe).
      exists b. split; [|done].
      destruct bodies as [|b0 bs]; [done|]. exact Hlast.
    + intros pre ev post Heq Hev.
      destruct (failure_after_clean _ _ _ _ _ Hcl Heq Hev)
        as (pre' & -> & Hrest).
      by eapply IH3.
Qed.

Lemma last_failure_none (t : list event) :
  last_failure t = None -> no_failure t.
Proof.
  induction t as [|ev t IH]; cbn; [constructor|].
  destruct (last_failure t) as [e|]; [discriminate|].
  intros Hev. constructor; [done|by apply IH].
Qed.

(** [I2cNackError] comes out of the last run allowed, every attempt
    having ended on a negative acknowledgement. *)
Lemma tries_nack {A : Type} (a0 : Z) (caught : option A)
    (retries : Z) (bodies : list (list event)) (t : list event)
    (r : outcome A) (msg : string) :
  tries a0 caught retries bodies t r -> 1 <= retries ->
  r = Raise (I2cNackError msg) ->
  length bodies = Z.to_nat retries /\ Forall ends_with_nack bodies.
Proof.
  induction 1 as [retries body rb re te Hb Hnd He Hn
                 |retries body msg' buf bodies rest r Hb Hc Hr Ht IH];
    intros Hge Hout.
  - unfold final in Hout. inversion He as [e|e|buf]; subst;
      try discriminate.
    destruct rb as [v|[m|m|g]|]; try discriminate.
    destruct caught as [v|]; [discriminate|].
    rewrite (Hn m eq_refl eq_refl eq_refl). split; [done|].
    constructor; [|done]. destruct Hb as [(_ & Hk & _) _]. by eapply Hk.
  - destruct (IH ltac:(lia) Hout) as [Hlen Hall]. split.
    + cbn. rewrite Hlen. lia.
    + constructor; [|done]. destruct Hb as [(_ & Hk & _) _]. by eapply Hk.
Qed.

End Outcomes.

(** ** The epilog and the retry discipline *)

Section Transactions.
Context {F : Type} {api : FtdiApi F} {patience : Patience}.

Lemma attempts_retried_nack (a0 : Z) (bodies : list (list event))
    (t : list event) :
  attempts a0 bodies t -> Forall ends_with_nack (removelast bodies).
Proof.
  induction 1 as [|body re te Hb He|body buf bodies rest Hb Hn Hne Hat IH];
    cbn; try constructor.
  destruct bodies as [|b bs]; [done|]. by constructor.
Qed.

(** C2: whatever way [read], [write], [exchange] or [poll] ends, the
    calls it made on the engine are a sequence of attempts, each one a
    body (the prolog buffer first, no stop sequence in it) followed by
    one epilog: the stop sequence handed to the engine and, unless the
    engine refused it, one read of one reply byte, which is dropped.
    So the stop sequence is sent exactly as many times as there are
    attempts, after a refused prolog and after a payload byte that was
    not acknowledged as well.  The stop sequence is four times clock
    and data low, four times data low and four times the idle state,
    which it leaves on the bus.  The outcome is the one of the last
    attempt: the exception of its epilog if the engine raised there,
    and else what its body ended with, whatever the reply byte was; and
    a request rejected by the checks ends with [I2cIOError], nothing
    sent. *)
Theorem epilog_once_per_attempt (op : call) (c c' : I2cController F)
    (r : outcome retval) :
  perform op c = (r, c') -> r <> Diverge ->
  exists bodies t,
    io_log c' = io_log c ++ t
    /\ attempts (first_i2caddress op) bodies t
    /\ stop_writes t = length bodies
    /\ (length bodies <= attempt_budget op)%nat
    /\ (request_accepted c op = true -> bodies <> [])
    /\ _stop = tuple_mul [SET_BITS_LOW; 0xfc; 0x03] 4
               ++ tuple_mul [SET_BITS_LOW; 0xfd; 0x03] 4
               ++ tuple_mul [SET_BITS_LOW; 0xff; 0x03] 4
    /\ (request_accepted c op = false ->
        t = [] /\ c' = c /\ exists msg, r = Raise (I2cIOError msg))
    /\ (request_accepted c op = true ->
        tries (first_i2caddress op) (nack_result op)
              (Z.of_nat (attempt_budget op)) bodies t r).
Proof.
  intros Hrun Hr.
  destruct (request_accepted c op) eqn:Hacc.
  - destruct (perform_accepted _ _ _ _ Hrun Hacc Hr)
      as (bodies & t & Ht & Htr).
    destruct (tries_attempts _ _ _ _ _ _ Htr) as (Hat & Hne & Hlen & Hone).
    exists bodies, t. split; [done|]. split; [done|].
    split; [by eapply attempts_stop_writes|].
    split.
    { rewrite Nat2Z.id in Hlen. apply Hlen.
      destruct op; vm_compute; discriminate. }
    split; [done|]. split; [reflexivity|]. split; [done|]. done.
  - destruct (perform_run _ _ _ _ Hrun) as [(_ & -> & H)|(Hacc' & _)];
      [|congruence].
    exists [], []. rewrite app_nil_r.
    split; [done|]. split; [constructor|]. split; [done|].
    split; [cbn; lia|]. split; [done|]. split; [reflexivity|].
    split; [done|]. done.
Qed.

(** *** An attempt on a bus where nobody answers *)

Lemma write_data_accepted (cmd : option (list Z)) (c : I2cController F) :
  always_nack -> is_Some (_ftdi c) ->
  exists f', ftdi_write_data cmd c
             = (Ok tt, set_ftdi c (Some f') [EvWrite cmd None]).
Proof.
  intros (Hw & _) [f Hf]. unfold ftdi_write_data. rewrite Hf.
  specialize (Hw cmd f). destruct (write_data cmd f) as [f' res].
  cbn in Hw. subst res. eauto.
Qed.

Lemma prolog_nacked (a0 : Z) (c : I2cController F) :
  always_nack -> is_Some (_ftdi c) ->
  exists c1 ack,
    _do_prolog a0 c = (Raise (I2cNackError "NACK from slave"), c1)
    /\ is_Some (_ftdi c1) /\ nack_reply ack
    /\ io_log c1
       = io_log c ++ [EvWrite (Some (prolog_cmd a0)) None;
                      EvRead 1 4 (inr ack)].
Proof.
  intros Hn Hc.
  destruct (write_data_accepted (Some (prolog_cmd a0)) c Hn Hc)
    as [f1 Hw].
  unfold _do_prolog, bind. rewrite Hw.
  unfold ftdi_read_data_bytes. cbn [_ftdi set_ftdi].
  destruct Hn as (_ & Hr & _). destruct (Hr f1) as (a & tl & Hrd & Ha).
  destruct (read_data_bytes 1 4 f1) as [f2 res]. cbn in Hrd. subst res.
  rewrite check_ack_outcome. cbn [ack_outcome].
  destruct (Z.eqb_spec (Z.land a BIT0) 0) as [E|_]; [done|].
  eexists _, (a :: tl). split; [reflexivity|].
  cbn. split; [eauto|]. split; [by exists a, tl|].
  by rewrite <- app_assoc.
Qed.

Lemma epilog_answered (c : I2cController F) :
  always_nack -> is_Some (_ftdi c) ->
  exists c1 buf,
    _do_epilog c = (Ok tt, c1) /\ is_Some (_ftdi c1)
    /\ io_log c1
       = io_log c ++ [EvWrite (Some _stop) None; EvRead 1 1 (inr buf)].
Proof.
  intros Hn Hc.
  destruct (write_data_accepted (Some _stop) c Hn Hc) as [f1 Hw].
  unfold _do_epilog, bind. rewrite Hw.
  unfold ftdi_read_data_bytes. cbn [_ftdi set_ftdi].
  destruct Hn as (_ & _ & He). destruct (He f1) as (buf & Hrd).
  destruct (read_data_bytes 1 1 f1) as [f2 res]. cbn in Hrd. subst res.
  eexists _, buf. split; [reflexivity|].
  cbn. split; [eauto|]. by rewrite <- app_assoc.
Qed.

Lemma attempt_nacked {A : Type} (a0 retries : Z) (k : unit -> @M F A)
    (c : I2cController F) :
  always_nack -> is_Some (_ftdi c) ->
  exists c2 x,
    attempt (bind (_do_prolog a0) k) retries c
    = (if retries - 1 =? 0
       then Raise (I2cNackError "NACK from slave")
       else Ok (Continue (retries - 1)), c2)
    /\ is_Some (_ftdi c2) /\ nack_reply (fst x)
    /\ io_log c2 = io_log c ++ nacked_attempt a0 x.
Proof.
  intros Hn Hc.
  destruct (prolog_nacked a0 c Hn Hc) as (c1 & ack & Hp & Hc1 & Hack & Hl1).
  destruct (epilog_answered c1 Hn Hc1) as (c2 & buf & He & Hc2 & Hl2).
  exists c2, (ack, buf).
  unfold attempt, try_finally, except_nack, bind. rewrite Hp.
  split.
  - destruct (retries - 1 =? 0); by rewrite He.
  - split; [done|]. split; [done|].
    rewrite Hl2, Hl1, <- app_assoc. reflexivity.
Qed.

Lemma retry_loop_nacked {A : Type} (a0 : Z) (k : unit -> @M F A)
    (c : I2cController F) :
  always_nack -> is_Some (_ftdi c) ->
  exists c' xs,
    retry_loop (Z.to_nat RETRY_COUNT) (bind (_do_prolog a0) k)
               RETRY_COUNT c
    = (Raise (I2cNackError "NACK from slave"), c')
    /\ length xs = Z.to_nat RETRY_COUNT
    /\ Forall (fun x => nack_reply (fst x)) xs
    /\ io_log c' = io_log c ++ flat_map (nacked_attempt a0) xs.
Proof.
  intros Hn Hc.
  destruct (attempt_nacked a0 3 k c Hn Hc) as (c1 & x1 & H1 & Hc1 & Hx1 & Hl1).
  destruct (attempt_nacked a0 2 k c1 Hn Hc1)
    as (c2 & x2 & H2 & Hc2 & Hx2 & Hl2).
  destruct (attempt_nacked a0 1 k c2 Hn Hc2)
    as (c3 & x3 & H3 & Hc3 & Hx3 & Hl3).
  exists c3, [x1; x2; x3].
  change (Z.to_nat RETRY_COUNT) with 3%nat.
  change RETRY_COUNT with 3.
  change (3 - 1 =? 0) with false in H1. change (3 - 1) with 2 in H1.
  change (2 - 1 =? 0) with false in H2. change (2 - 1) with 1 in H2.
  change (1 - 1 =? 0) with true in H3.
  cbv iota in H1, H2, H3.
  cbn [retry_loop].
  unfold bind at 1. rewrite H1. cbv beta iota.
  unfold bind at 1. rewrite H2. cbv beta iota.
  unfold bind at 1. rewrite H3. cbv beta iota.
  split; [reflexivity|]. split; [reflexivity|].
  split; [by repeat constructor|].
  rewrite Hl3, Hl2, Hl1. cbn [flat_map].
  by rewrite app_nil_r, <- !app_assoc.
Qed.

Lemma perform_nacked (op : call) (c c' : I2cController F)
    (r : outcome retval) :
  perform op c = (r, c') -> always_nack ->
  request_accepted c op = true ->
  r = match op with
      | CallPoll _ => Ok (RBool false)
      | _ => Raise (I2cNackError "NACK from slave")
      end
  /\ exists xs,
      length xs = attempt_budget op
      /\ Forall (fun x => nack_reply (fst x)) xs
      /\ io_log c' = io_log c
                     ++ flat_map (nacked_attempt (first_i2caddress op)) xs.
Proof.
  intros Hrun Hn Hacc. unfold request_accepted in Hacc.
  destruct (_ftdi c) as [f|] eqn:Hf; [|discriminate].
  assert (Hc : is_Some (_ftdi c)) by (rewrite Hf; eauto).
  apply andb_true_iff in Hacc as [Ha Hp].
  apply negb_true_iff, Z.ltb_ge in Ha.
  destruct op as [address readlen|address out|address out readlen|address];
    cbn [call_address] in Ha;
    unfold perform, read, write, exchange, poll in Hrun;
    unfold bind at 1 in Hrun;
    rewrite (guard_passed _ _ f) in Hrun by done;
    cbn [first_i2caddress attempt_budget].
  - apply negb_true_iff in Hp. rewrite Hp in Hrun.
    unfold read_body in Hrun.
    destruct (retry_loop_nacked
                (Z.lor (Z.land (Z.shiftl address 1) HIGH) BIT0)
                (fun _ => bind (_do_read readlen) (fun data => ret data))
                c Hn Hc) as (c3 & xs & Hl & Hlen & Hxs & Hlog).
    rewrite Hl in Hrun. inversion Hrun; subst. eauto.
  - apply negb_true_iff in Hp. rewrite Hp in Hrun.
    unfold write_body in Hrun.
    destruct (retry_loop_nacked (Z.land (Z.shiftl address 1) HIGH)
                (fun _ => _do_write out) c Hn Hc)
      as (c3 & xs & Hl & Hlen & Hxs & Hlog).
    rewrite Hl in Hrun. inversion Hrun; subst. eauto.
  - apply andb_true_iff in Hp as [Hp Hp3].
    apply andb_true_iff in Hp as [Hp1 Hp2].
    apply negb_true_iff in Hp1, Hp2, Hp3.
    rewrite Hp1, Hp2, Hp3 in Hrun.
    unfold exchange_body in Hrun.
    destruct (retry_loop_nacked (Z.land (Z.shiftl address 1) HIGH)
                (fun _ =>
                   bind (_do_write out)
                     (fun _ =>
                        bind (_do_prolog
                                (Z.lor (Z.land (Z.shiftl address 1) HIGH)
                                       BIT0))
                          (fun _ => bind (_do_read readlen)
                                      (fun data => ret data))))
                c Hn Hc) as (c3 & xs & Hl & Hlen & Hxs & Hlog).
    rewrite Hl in Hrun. inversion Hrun; subst. eauto.
  - unfold try_finally in Hrun.
    destruct (prolog_nacked
                (Z.lor (Z.land (Z.shiftl address 1) HIGH) BIT0) c Hn Hc)
      as (c1 & ack & Hpr & Hc1 & Hack & Hl1).
    destruct (epilog_answered c1 Hn Hc1) as (c2 & buf & He & Hc2 & Hl2).
    rewrite Hpr, He in Hrun. inversion Hrun; subst.
    split; [done|]. exists [(ack, buf)].
    split; [done|]. split; [by repeat constructor|].
    rewrite Hl2, Hl1, <- app_assoc. reflexivity.
Qed.

(** C3: on a bus where every prolog is answered with a negative
    acknowledgement, [read], [write] and [exchange] make exactly three
    attempts, each of them the prolog, its refused acknowledge bit, the
    stop sequence and its reply, and end with [I2cNackError]; [poll]
    makes one such attempt and returns [False].  On any engine, an
    attempt is followed by another one only when it ended on a negative
    acknowledgement, so that any other failure ends the operation in
    the attempt where it happens: when an engine call raised, nothing
    follows it but the epilog of its attempt, and the operation raises
    the exception of the last call that raised; [I2cIOError] stands for
    an acknowledge read that came back empty at the end of the last
    body; [I2cNackError] is raised only when every run allowed ended on
    a negative acknowledgement; and a value is returned only when no
    engine call raised.  A request rejected by the checks makes no
    attempt at all. *)
Theorem retry_only_on_nack (op : call) (c c' : I2cController F)
    (r : outcome retval) :
  perform op c = (r, c') ->
  (always_nack -> request_accepted c op = true ->
   r = match op with
       | CallPoll _ => Ok (RBool false)
       | _ => Raise (I2cNackError "NACK from slave")
       end
   /\ exists xs,
       length xs = attempt_budget op
       /\ Forall (fun x => nack_reply (fst x)) xs
       /\ io_log c' = io_log c
                      ++ flat_map (nacked_attempt (first_i2caddress op)) xs)
  /\ (r <> Diverge ->
      exists bodies t,
        io_log c' = io_log c ++ t
        /\ attempts (first_i2caddress op) bodies t
        /\ (length bodies <= attempt_budget op)%nat
        /\ Forall ends_with_nack (removelast bodies)
        /\ (forall e, last_failure t = Some e -> r = Raise (Foreign e))
        /\ (forall pre ev post,
               t = pre ++ ev :: post -> failure_of ev <> None ->
               post = [] \/ exists re, epilog_run re post)
        /\ (forall msg,
               r = Raise (I2cIOError msg) -> request_accepted c op = true ->
               msg = "No answer from FTDI"
               /\ exists body pre,
                   last bodies = Some body
                   /\ body = pre ++ [EvRead 1 4 (inr [])])
        /\ (forall msg,
               r = Raise (I2cNackError msg) ->
               length bodies = attempt_budget op
               /\ Forall ends_with_nack bodies)
        /\ (forall v, r = Ok v -> no_failure t)
        /\ (request_accepted c op = true ->
            tries (first_i2caddress op) (nack_result op)
                  (Z.of_nat (attempt_budget op)) bodies t r))
  /\ (request_accepted c op = false ->
      c' = c /\ exists msg, r = Raise (I2cIOError msg)).
Proof.
  intros Hrun. split; [|split].
  - by apply perform_nacked.
  - intros Hr. destruct (request_accepted c op) eqn:Hacc.
    + destruct (perform_accepted _ _ _ _ Hrun Hacc Hr)
        as (bodies & t & Ht & Htr).
      destruct (tries_attempts _ _ _ _ _ _ Htr)
        as (Hat & Hne & Hlen & Hone).
      destruct (tries_failure _ _ _ _ _ _ Htr) as (Hlast & Hclean & Hpost).
      assert (Hbudget : (length bodies <= attempt_budget op)%nat).
      { rewrite Nat2Z.id in Hlen. apply Hlen.
        destruct op; vm_compute; discriminate. }
      assert (Hnone : forall e, (forall g, e <> Foreign g) ->
                                r = Raise e -> no_failure t).
      { intros e He Hre. apply last_failure_none.
        destruct (last_failure t) as [g|] eqn:El; [|done].
        rewrite (Hlast g eq_refl) in Hre. injection Hre as <-.
        by destruct (He g). }
      exists bodies, t. split; [done|]. split; [done|]. split; [done|].
      split; [by eapply attempts_retried_nack|].
      split; [done|]. split; [done|]. split; [|split; [|split]].
      * intros msg Hre _.
        assert (Hcl : no_failure t).
        { apply (Hnone (I2cIOError msg)); [by intros g|done]. }
        destruct (Hclean Hcl _ Hre) as (body & Hbody & _ & _ & Hio).
        destruct (Hio msg eq_refl) as (-> & pre & ->). eauto.
      * intros msg Hre.
        assert (Hb1 : 1 <= Z.of_nat (attempt_budget op))
          by (destruct op; vm_compute; discriminate).
        destruct (tries_nack _ _ _ _ _ _ msg Htr Hb1 Hre) as [Hl Hall].
        split; [|done]. by rewrite Hl, Nat2Z.id.
      * intros v Hre. apply last_failure_none.
        destruct (last_failure t) as [g|] eqn:El; [|done].
        rewrite (Hlast g eq_refl) in Hre. discriminate.
      * done.
    + destruct (perform_run _ _ _ _ Hrun) as [(_ & -> & H)|(Hacc' & _)];
        [|congruence].
      destruct H as [msg ->].
      exists [], []. rewrite app_nil_r.
      split; [done|]. split; [constructor|]. split; [cbn; lia|].
      split; [constructor|]. split; [intros e [=]|].
      split; [by intros [|? ?] ? ? [=]|].
      split; [done|]. split; [intros ? [=]|]. split; [intros ? [=]|done].
  - intros Hacc.
    destruct (perform_run _ _ _ _ Hrun) as [(_ & -> & H)|(Hacc' & _)].
    + done.
    + congruence.
Qed.

End Transactions.

(** ** The checks made before a transaction *)

Section Checks.
Context {F : Type} {api : FtdiApi F} {patience : Patience}.

(** An [exchange] that passed its checks raises nothing but what a
    transaction raises. *)
Lemma exchange_accepted_allowed (c c' : I2cController F)
    (address readlen : Z) (out : list Z) (r : outcome (list Z)) (e : exn) :
  exchange address out readlen c = (r, c') ->
  request_accepted c (CallExchange address out readlen) = true ->
  r = Raise e -> allowed e.
Proof.
  intros Hrun Hacc ->.
  assert (Hp : perform (CallExchange address out readlen) c
               = (Raise e, c')).
  { unfold perform, bind. by rewrite Hrun. }
  destruct (perform_run _ _ _ _ Hp) as [(Hacc' & _)|(_ & t & _ & Hl)];
    [congruence|].
  destruct Hl as [|(bodies & _ & _ & _ & Hall)]; [discriminate|].
  by apply Hall.
Qed.

(** C5: with a live controller, an address in range and a payload to
    write, [exchange] raises "Input payload is too large" exactly when
    the read length is above 0x10000/3 - 1, that is above 21844; and
    whenever one of its checks rejects the request, the controller is
    left as it was: nothing was handed to the engine. *)
Theorem exchange_payload_limit (c c' : I2cController F)
    (address readlen : Z) (out : list Z) (r : outcome (list Z)) :
  exchange address out readlen c = (r, c') ->
  PAYLOAD_MAX_LENGTH / 3 - 1 = 21844
  /\ (_ftdi c <> None -> address <= HIGHEST_I2C_ADDRESS -> out <> [] ->
      (r = Raise (I2cIOError "Input payload is too large")
       <-> 21844 < readlen))
  /\ (_ftdi c = None \/ HIGHEST_I2C_ADDRESS < address \/ out = []
      \/ readlen < 1 \/ 21844 < readlen ->
      c' = c /\ io_log c' = io_log c
      /\ exists msg, r = Raise (I2cIOError msg)).
Proof.
  intros Hrun. split; [reflexivity|].
  pose proof Hrun as Hrun0.
  unfold exchange in Hrun.
  destruct (_ftdi c) as [f|] eqn:Hf.
  2:{ rewrite guard_unconfigured in Hrun by done.
      inversion Hrun; subst. split; [congruence|]. eauto. }
  destruct (Z.ltb_spec HIGHEST_I2C_ADDRESS address) as [Ha|Ha].
  { rewrite (guard_address _ _ f) in Hrun by done.
    inversion Hrun; subst. split; [lia|]. eauto. }
  rewrite (guard_passed _ _ f) in Hrun by done.
  destruct out as [|b out].
  { inversion Hrun; subst. split; [congruence|]. eauto. }
  cbn [length Nat.eqb] in Hrun.
  destruct (Z.ltb_spec readlen 1) as [Hr|Hr].
  { inversion Hrun; subst. split; [|eauto].
    intros _ _ _. split; [congruence|lia]. }
  destruct (payload_too_large readlen) eqn:Hp.
  { apply payload_too_large_iff in Hp.
    inversion Hrun; subst. split; [|eauto]. tauto. }
  assert (Hle : ~ 21844 < readlen).
  { rewrite <- payload_too_large_iff. congruence. }
  split.
  - intros _ _ _. split; [|tauto]. intros ->.
    assert (Hacc : request_accepted c (CallExchange address (b :: out)
                                                    readlen) = true).
    { unfold request_accepted. rewrite Hf. cbn [call_address length Nat.eqb].
      rewrite Hp. destruct (Z.ltb_spec HIGHEST_I2C_ADDRESS address); [lia|].
      destruct (Z.ltb_spec readlen 1); [lia|]. reflexivity. }
    destruct (exchange_accepted_allowed _ _ _ _ _ _ _ Hrun0 Hacc eq_refl)
      as [H|[H|[f' H]]]; discriminate.
  - intros [?|[?|[?|[?|?]]]]; try congruence; lia.
Qed.

End Checks.

(** ** Ports *)

Section Ports.
Context {F : Type} {api : FtdiApi F} {patience : Patience}.

Lemma get_port_cached_lookup (c : I2cController F) (a : Z) (p : nat) :
  _ftdi c <> None -> a <= HIGHEST_I2C_ADDRESS ->
  _slaves c !! a = Some p -> get_port a c = (Ok p, c).
Proof.
  intros Hf Ha Hp. unfold get_port.
  destruct (_ftdi c) as [f|] eqn:Ef; [|done].
  rewrite (guard_passed _ _ f) by done. by rewrite Hp.
Qed.

Lemma get_port_keeps (c c2 : I2cController F) (a b : Z) (p : nat)
    (rb : outcome nat) :
  _slaves c !! a = Some p -> get_port b c = (rb, c2) ->
  _slaves c2 !! a = Some p /\ _ftdi c2 = _ftdi c /\ io_log c2 = io_log c.
Proof.
  intros Hp Hrun. unfold get_port in Hrun.
  destruct (_ftdi c) as [f|] eqn:Ef.
  2:{ rewrite guard_unconfigured in Hrun by done. by inversion Hrun; subst. }
  destruct (Z.ltb_spec HIGHEST_I2C_ADDRESS b) as [Hb|Hb].
  { rewrite (guard_address _ _ f) in Hrun by done.
    by inversion Hrun; subst. }
  rewrite (guard_passed _ _ f) in Hrun by done.
  destruct (_slaves c !! b) as [q|] eqn:Eb.
  - by inversion Hrun; subst.
  - inversion Hrun; subst. cbn. split; [|done].
    rewrite lookup_insert_ne; [done|]. congruence.
Qed.

(** C6: on a live controller, [get_port] succeeds for every address
    from 0 to 0x7f, and calling it again with the same address, at once
    or after ports were obtained for other addresses, returns the same
    port object and changes nothing; for an address above 0x7f it
    raises [I2cIOError] and leaves the controller, the record of calls
    included, as it was.  The handle returned is the one the table
    holds for the address: the entry found there, returned with the
    controller unchanged, or else a new port object built for that
    address, put last among the objects and entered in the table.
    Where the table is sound the handle names a port object whose
    address is the one asked for, later calls leave that object in
    place, and another address gets another handle. *)
Theorem get_port_same_instance (c : I2cController F) (a : Z) :
  (HIGHEST_I2C_ADDRESS < a ->
   exists msg, get_port a c = (Raise (I2cIOError msg), c))
  /\ (_ftdi c <> None -> 0 <= a <= HIGHEST_I2C_ADDRESS ->
      exists p c1,
        get_port a c = (Ok p, c1)
        /\ io_log c1 = io_log c
        /\ get_port a c1 = (Ok p, c1)
        /\ (forall b rb c2,
              get_port b c1 = (rb, c2) -> get_port a c2 = (Ok p, c2))
        /\ _slaves c1 !! a = Some p
        /\ (forall q, _slaves c !! a = Some q -> p = q /\ c1 = c)
        /\ (_slaves c !! a = None ->
            p = length (ports c)
            /\ ports c1 = ports c ++ [mkPort a 0 "<" "B"]
            /\ _slaves c1 = <[a := p]> (_slaves c))
        /\ (cache_ok c ->
            cache_ok c1
            /\ (exists port, ports c1 !! p = Some port /\ _address port = a)
            /\ forall b rb c2,
                get_port b c1 = (rb, c2) ->
                ports c2 !! p = ports c1 !! p
                /\ forall q, rb = Ok q -> b <> a -> q <> p)).
Proof.
  split.
  - intros Ha. unfold get_port.
    destruct (_ftdi c) as [f|] eqn:Ef.
    + rewrite (guard_address _ _ f) by done. eauto.
    + rewrite guard_unconfigured by done. eauto.
  - intros Hf [_ Ha].
    assert (Hrun : exists p c1,
               get_port a c = (Ok p, c1) /\ io_log c1 = io_log c
               /\ _ftdi c1 = _ftdi c /\ _slaves c1 !! a = Some p
               /\ (forall q, _slaves c !! a = Some q -> p = q /\ c1 = c)
               /\ (_slaves c !! a = None ->
                   p = length (ports c)
                   /\ ports c1 = ports c ++ [mkPort a 0 "<" "B"]
                   /\ _slaves c1 = <[a := p]> (_slaves c))).
    { unfold get_port. destruct (_ftdi c) as [f|] eqn:Ef; [|done].
      rewrite (guard_passed _ _ f) by done.
      destruct (_slaves c !! a) as [p|] eqn:Ep.
      - exists p, c. rewrite Ef. repeat split; try done. congruence.
      - eexists _, _. split; [reflexivity|]. cbn.
        rewrite lookup_insert_eq. by rewrite Ef. }
    destruct Hrun as (p & c1 & Hrun & Hlog & Hf1 & Hp & Hold & Hnew).
    exists p, c1. split; [done|]. split; [done|].
    assert (Hlive : _ftdi c1 <> None) by congruence.
    split; [by apply get_port_cached_lookup|].
    split.
    { intros b rb c2 Hb.
      destruct (get_port_keeps _ _ _ _ _ _ Hp Hb) as (Hp2 & Hf2 & _).
      apply get_port_cached_lookup; congruence. }
    split; [done|]. split; [done|]. split; [done|].
    intros Hok.
    assert (Hok1 : cache_ok c1).
    { destruct (_slaves c !! a) as [q|] eqn:Eq.
      - destruct (Hold q eq_refl) as [_ ->]. done.
      - destruct (Hnew eq_refl) as (-> & Hports & Hslaves).
        intros b q Hb. rewrite Hslaves in Hb. rewrite Hports.
        destruct (decide (b = a)) as [->|Hne].
        + rewrite lookup_insert_eq in Hb. injection Hb as <-.
          split; [done|]. exists (mkPort a 0 "<" "B").
          split; [|done]. by rewrite lookup_app_r, Nat.sub_diag.
        + rewrite lookup_insert_ne in Hb by done.
          destruct (Hok b q Hb) as (Hle & port & Hport & Haddr).
          split; [done|]. exists port. split; [|done].
          by rewrite lookup_app_l by (by eapply lookup_lt_Some). }
    split; [done|].
    destruct (Hok1 a p Hp) as (_ & port & Hport & Haddr).
    split; [by exists port|].
    intros b rb c2 Hb. unfold get_port in Hb.
    destruct (_ftdi c1) as [f|] eqn:Ef; [|done].
    destruct (Z.ltb_spec HIGHEST_I2C_ADDRESS b) as [Hhigh|Hlow].
    { rewrite (guard_address _ _ f) in Hb by done.
      inversion Hb; subst. split; [done|]. by intros q [=]. }
    rewrite (guard_passed _ _ f) in Hb by done.
    destruct (_slaves c1 !! b) as [q|] eqn:Eb.
    + inversion Hb; subst. split; [done|].
      intros q' [= <-] Hne ->.
      destruct (Hok1 b p Eb) as (_ & port' & Hport' & Haddr').
      congruence.
    + inversion Hb; subst. cbn. split.
      * by rewrite lookup_app_l by (by eapply lookup_lt_Some).
      * intros q' [= <-] Hne Heq.
        apply lookup_lt_Some in Hport. lia.
Qed.

(** C7, on the code: a controller that was just built, with no call of
    [configure], hands out a port for address 0x21; the test of
    [self._ftdi] finds the [Ftdi] object that [__init__] created. *)
Theorem get_port_before_configure :
  get_port 0x21 I2cController__init__
  = (Ok 0%nat,
     mkController (Some Ftdi_new) (<[0x21 := 0%nat]> ∅)
                  [mkPort 0x21 0 "<" "B"] 0%Q 1 1 []).
Proof.
  unfold get_port.
  rewrite (guard_passed _ _ Ftdi_new) by (done || (cbv; discriminate)).
  cbn [_slaves I2cController__init__]. by rewrite lookup_empty.
Qed.

Lemma FORMATS_lookup_other (width : Z) :
  width <> 1 -> width <> 2 -> width <> 4 -> FORMATS !! width = None.
Proof.
  intros H1 H2 H4. unfold FORMATS. cbn [fold_left].
  change (scalc "B") with 1. change (scalc "H") with 2.
  change (scalc "I") with 4.
  rewrite !lookup_insert_ne by done. apply lookup_empty.
Qed.

Lemma FORMATS_lookup_2 : FORMATS !! 2 = Some "H".
Proof.
  unfold FORMATS. cbn [fold_left].
  change (scalc "B") with 1. change (scalc "H") with 2.
  change (scalc "I") with 4.
  rewrite lookup_insert_ne by done. apply lookup_insert_eq.
Qed.

Lemma configure_register_width_2 (c : I2cController F) (p : nat)
    (port : I2cPort) (bigendian : bool) :
  ports c !! p = Some port ->
  exists c1,
    configure_register p bigendian 2 c = (Ok tt, c1)
    /\ ports c1 !! p
       = Some (mkPort (_address port) (_shift port)
                      (if bigendian then ">" else "<") "H").
Proof.
  intros Hp. unfold configure_register, bind, port_self. rewrite Hp.
  rewrite FORMATS_lookup_2. eexists. split; [reflexivity|].
  cbn. apply list_lookup_insert_eq. by eapply lookup_lt_Some.
Qed.

Lemma write_to_payload (c : I2cController F) (p : nat) (port : I2cPort)
    (regaddr : Z) (out prefix : list Z) :
  ports c !! p = Some port ->
  spack (_endian port ++ _format port)%string regaddr = Ok prefix ->
  out <> [] ->
  write_to p regaddr out c
  = write (_address port + _shift port) (prefix ++ out) c.
Proof.
  intros Hp Hs Ho. unfold write_to, _make_buffer, bind, port_self.
  rewrite Hp. cbv beta iota. rewrite Hp. cbv beta iota. rewrite Hs.
  destruct out as [|b bs]; [done|]. reflexivity.
Qed.

(** C9: on a port set with [configure_register(bigendian=True,
    width=2)], [write_to(0x0102, b'\xAA')] is the controller's [write]
    with the payload [0x01, 0x02, 0xAA] at the port's address; set with
    [bigendian=False], with the payload [0x02, 0x01, 0xAA]; and
    [configure_register] with a width other than 1, 2 and 4 raises
    "Unsupported integer width" and changes nothing. *)
Theorem write_to_register_prefix (c : I2cController F) (p : nat)
    (port : I2cPort) :
  ports c !! p = Some port ->
  (exists c1,
      configure_register p true 2 c = (Ok tt, c1)
      /\ write_to p 0x0102 [0xAA] c1
         = write (_address port + _shift port) [0x01; 0x02; 0xAA] c1)
  /\ (exists c1,
         configure_register p false 2 c = (Ok tt, c1)
         /\ write_to p 0x0102 [0xAA] c1
            = write (_address port + _shift port) [0x02; 0x01; 0xAA] c1)
  /\ (forall bigendian width,
         width <> 1 -> width <> 2 -> width <> 4 ->
         configure_register p bigendian width c
         = (Raise (I2cIOError "Unsupported integer width"), c)).
Proof.
  intros Hp. split; [|split].
  - destruct (configure_register_width_2 c p port true Hp) as (c1 & H1 & H2).
    exists c1. split; [done|].
    by rewrite (write_to_payload c1 p _ 0x0102 [0xAA] [0x01; 0x02] H2).
  - destruct (configure_register_width_2 c p port false Hp) as (c1 & H1 & H2).
    exists c1. split; [done|].
    by rewrite (write_to_payload c1 p _ 0x0102 [0xAA] [0x02; 0x01] H2).
  - intros bigendian width H1 H2 H4.
    unfold configure_register, bind, port_self. rewrite Hp.
    by rewrite FORMATS_lookup_other.
Qed.

End Ports.

(** ** Addresses below zero *)

Section Addresses.
Context {F : Type} {api : FtdiApi F} {patience : Patience}.

Lemma attempts_head (a0 : Z) (bodies : list (list event))
    (t : list event) :
  attempts a0 bodies t -> bodies <> [] ->
  exists res t', t = EvWrite (Some (prolog_cmd a0)) res :: t'.
Proof.
  destruct 1 as [|body re te (res & mid & -> & _) _
                 |body buf bodies rest (res & mid & -> & _) _ _ _];
    [done| |]; intros _; eauto.
Qed.

Lemma first_i2caddress_encoding (op : call) :
  first_i2caddress op = Z.land (Z.shiftl (call_address op) 1) HIGH
  \/ first_i2caddress op
     = Z.lor (Z.land (Z.shiftl (call_address op) 1) HIGH) BIT0.
Proof. destruct op; cbn; auto. Qed.

(** C10: the only test made on an address is [address > 0x7f].  Every
    address up to 0x7f, the negative ones included, passes
    [validate_address], gets a port from [get_port], is accepted as
    the shifted address of a port, and opens the transaction of
    [read], [write], [exchange] and [poll]: the first buffer handed to
    the engine is the prolog whose address byte is
    [(address << 1) & 0xff], with bit 0 set for [read] and [poll]. *)
Theorem address_upper_bound_only (a : Z) (c : I2cController F) :
  a <= HIGHEST_I2C_ADDRESS ->
  validate_address a c = (Ok tt, c)
  /\ (_ftdi c <> None -> exists p c1, get_port a c = (Ok p, c1))
  /\ (forall p port offset,
         ports c !! p = Some port -> _address port + offset = a ->
         exists c1,
           shift_address p offset c = (Ok tt, c1)
           /\ ports c1 !! p
              = Some (mkPort (_address port) offset (_endian port)
                             (_format port)))
  /\ (forall op r c',
         call_address op = a -> request_accepted c op = true ->
         perform op c = (r, c') -> r <> Diverge ->
         (first_i2caddress op = Z.land (Z.shiftl a 1) HIGH
          \/ first_i2caddress op
             = Z.lor (Z.land (Z.shiftl a 1) HIGH) BIT0)
         /\ nth 30 (prolog_cmd (first_i2caddress op)) 0
            = first_i2caddress op
         /\ exists res t,
             io_log c' = io_log c
               ++ EvWrite (Some (prolog_cmd (first_i2caddress op))) res
                  :: t).
Proof.
  intros Ha. split; [by apply validate_address_ok|]. split; [|split].
  - intros Hf. unfold get_port.
    destruct (_ftdi c) as [f|] eqn:Ef; [|done].
    rewrite (guard_passed _ _ f) by done.
    destruct (_slaves c !! a); eauto.
  - intros p port offset Hp <-.
    unfold shift_address, bind, port_self. rewrite Hp.
    rewrite validate_address_ok by done.
    eexists. split; [reflexivity|]. cbn.
    apply list_lookup_insert_eq. by eapply lookup_lt_Some.
  - intros op r c' <- Hacc Hrun Hr.
    split; [apply first_i2caddress_encoding|].
    split; [apply prolog_cmd_address|].
    destruct (perform_run _ _ _ _ Hrun)
      as [(Hacc' & _)|(_ & t & Ht & [->|(bodies & H1 & H2 & _)])];
      [congruence|done|].
    destruct (attempts_head _ _ _ H1 H2) as (res & t' & ->). eauto.
Qed.

End Addresses.

(** ** The payload-write phase *)

Section WritePhase.
Context {F : Type} {api : FtdiApi F} {patience : Patience}.

Lemma ack_step_bytes_written (byte : Z) (r : outcome unit)
    (t : list event) :
  ack_step (write_cmd byte) r t -> bytes_written t = [byte].
Proof. inversion 1; reflexivity. Qed.

Lemma bytes_written_app (t1 t2 : list event) :
  bytes_written (t1 ++ t2) = bytes_written t1 ++ bytes_written t2.
Proof.
  induction t1 as [|[[cmd|] res|size attempt res] t1 IH]; cbn; try done.
  by rewrite IH.
Qed.

(** The bytes that went out are a prefix of the payload, all of it
    when the phase returns. *)
Lemma write_run_prefix (out : list Z) (r : outcome unit)
    (t : list event) :
  write_run out r t ->
  exists k, bytes_written t = firstn k out
            /\ (k <= length out)%nat
            /\ (r = Ok tt -> k = length out).
Proof.
  induction 1 as [|byte rest r t Hs Hr|byte rest t1 r t2 Hs Hw IH].
  - exists 0%nat. by cbn.
  - exists 1%nat. rewrite (ack_step_bytes_written _ _ _ Hs).
    split; [done|]. split; [cbn; lia|done].
  - destruct IH as (k & Hk & Hle & Hall). exists (S k).
    rewrite bytes_written_app, (ack_step_bytes_written _ _ _ Hs), Hk.
    split; [done|]. split; [cbn; lia|].
    intros Hok. cbn. by rewrite Hall.
Qed.

Lemma ack_outcome_no_answer (ack : list Z) (msg : string) :
  ack_outcome ack = Raise (I2cIOError msg) ->
  ack = [] /\ msg = "No answer from FTDI".
Proof.
  destruct ack as [|a tl]; cbn.
  - by intros [= <-].
  - destruct (Z.land a BIT0 =? 0); discriminate.
Qed.

Lemma write_run_no_answer (out : list Z) (msg : string)
    (t : list event) :
  write_run out (Raise (I2cIOError msg)) t ->
  msg = "No answer from FTDI"
  /\ exists pre, t = pre ++ [EvRead 1 4 (inr [])].
Proof.
  remember (Raise (I2cIOError msg)) as r eqn:Er.
  induction 1 as [|byte rest r t Hs Hr|byte rest t1 r t2 Hs Hw IH];
    subst; [discriminate| |].
  - inversion Hs as [| |ack Hack]; subst.
    destruct (ack_outcome_no_answer _ _ Hack) as [-> ->].
    split; [done|]. by exists [EvWrite (Some (write_cmd byte)) None].
  - destruct (IH eq_refl) as (-> & pre & ->). split; [done|].
    exists (t1 ++ pre). by rewrite app_assoc.
Qed.

(** C8: [_do_write] on a live controller records a run of the
    payload-write phase: for each byte in turn its buffer is sent and
    one reply byte is read, and the phase goes on to the next byte only
    when bit 0 of the reply is clear.  The bytes sent are a prefix of
    the payload in its order, the whole payload when the phase returns.
    An empty reply raises "No answer from FTDI" and a reply with bit 0
    set raises [I2cNackError]; in both cases the read of that reply is
    the last call made, so no further byte is sent. *)
Theorem do_write_byte_by_byte (out : list Z) (c c' : I2cController F)
    (r : outcome unit) :
  is_Some (_ftdi c) -> _do_write out c = (r, c') ->
  exists t,
    io_log c' = io_log c ++ t
    /\ write_run out r t
    /\ (exists k, bytes_written t = firstn k out
                  /\ (k <= length out)%nat
                  /\ (r = Ok tt -> k = length out))
    /\ (forall msg, r = Raise (I2cNackError msg) -> ends_with_nack t)
    /\ (forall msg, r = Raise (I2cIOError msg) ->
                    msg = "No answer from FTDI"
                    /\ exists pre, t = pre ++ [EvRead 1 4 (inr [])])
    /\ r <> Diverge.
Proof.
  intros Hc Hrun.
  destruct (emits_do_write out _ _ _ Hc Hrun) as (_ & t & Ht & Hw).
  exists t. split; [done|]. split; [done|].
  split; [by apply write_run_prefix|].
  split; [|split].
  - intros msg ->. by destruct (write_run_quiet 0 _ _ _ Hw) as (_ & Hn & _);
      eapply Hn.
  - intros msg ->. by eapply write_run_no_answer.
  - intros ->. clear Hrun Ht. remember Diverge as r eqn:Er.
    induction Hw as [|byte rest r t Hs Hr|byte rest t1 r t2 Hs Hw IH];
      subst; [discriminate| |by apply IH].
    by apply ack_step_not_diverge in Hs.
Qed.

End WritePhase.

(** ** The chunks of a read *)

Section Chunks.
Context {F : Type} {api : FtdiApi F} {patience : Patience}.

Lemma emits_chunks (chunk_size : Z) (fuel : nat) :
  1 <= chunk_size ->
  forall (count : Z) (last_cmd : option (list Z)) (chunks : list (list Z)),
    0 <= count -> (Z.to_nat count <= fuel)%nat ->
    emits F (_do_read_loop fuel chunk_size 0 count last_cmd chunks)
          (chunk_run chunk_size count chunks).
Proof.
  intros Hchunk.
  assert (Hret : forall chunks : list (list Z),
             emits F (@ret F _ chunks) (chunk_run chunk_size 0 chunks)).
  { intros chunks. eapply emits_conseq; [apply emits_ret|].
    intros r t [-> ->]. constructor. }
  induction fuel as [|fuel IH]; intros count last_cmd chunks Hcount Hfuel;
    cbn [_do_read_loop]; destruct (Z.eqb_spec count 0) as [->|Hne];
    try apply Hret; [lia|].
  cbv zeta. set (bc := Z.min count chunk_size).
  assert (Hbc : 1 <= bc <= count) by (unfold bc; lia).
  assert (Hcmd : (if count - bc <=? 0
                  then match block_cmd 0 bc last_cmd with
                       | Some buf => @ret F _ (Some (buf ++ _immediate))
                       | None => raise (Foreign (BuiltinError "AttributeError"))
                       end
                  else ret (block_cmd 0 bc last_cmd))
                 = ret (Some (chunk_cmd chunk_size count))).
  { unfold block_cmd, chunk_cmd. fold bc.
    destruct (Z.eqb_spec 0 bc) as [E|_]; [lia|]. cbn [negb].
    destruct (count - bc <=? 0); [by rewrite <- app_assoc|].
    by rewrite app_nil_r. }
  rewrite Hcmd. clear Hcmd.
  intros c c' r Hc Hrun. unfold bind at 1 in Hrun. cbn [ret] in Hrun.
  unfold bind at 1 in Hrun.
  destruct (ftdi_write_data (Some (chunk_cmd chunk_size count)) c)
    as [rw c1] eqn:Ew.
  destruct (emits_write _ _ _ _ Hc Ew) as (Hc1 & t1 & Ht1 & res & -> & ->).
  destruct res as [e|].
  { inversion Hrun; subst. split; [done|]. eexists; split; [done|].
    constructor. lia. }
  unfold bind at 1 in Hrun.
  destruct (ftdi_read_data_bytes bc 4 c1) as [rr c2] eqn:Er.
  destruct (emits_read _ _ _ _ _ Hc1 Er) as (Hc2 & t2 & Ht2 & res & -> & ->).
  destruct res as [e|buf].
  { inversion Hrun; subst. split; [done|].
    eexists. split; [by rewrite Ht2, Ht1, <- app_assoc|].
    constructor. lia. }
  destruct (IH (count - bc) (Some (chunk_cmd chunk_size count))
               (chunks ++ [buf]) ltac:(lia) ltac:(lia) _ _ _ Hc2 Hrun)
    as (Hc' & t3 & Ht3 & Hrun3).
  split; [done|]. eexists. split.
  - rewrite Ht3, Ht2, Ht1, <- !app_assoc. reflexivity.
  - cbn. apply chunk_run_next; [lia|done].
Qed.

Lemma chunk_cmd_nack_terminated (chunk_size count : Z) :
  nack_terminated (chunk_cmd chunk_size count).
Proof.
  unfold chunk_cmd. eexists _, _. split; [reflexivity|].
  destruct (_ <=? 0); auto.
Qed.

Lemma chunk_run_not_diverge (chunk_size count : Z)
    (chunks : list (list Z)) (r : outcome (list (list Z)))
    (t : list event) :
  chunk_run chunk_size count chunks r t -> r <> Diverge.
Proof. induction 1; done. Qed.

(** Every buffer of the read ends with the unit that sends the nack
    bit. *)
Lemma chunk_run_nack_terminated (chunk_size count : Z)
    (chunks : list (list Z)) (r : outcome (list (list Z)))
    (t : list event) :
  chunk_run chunk_size count chunks r t ->
  Forall nack_terminated (sent_commands t).
Proof.
  induction 1; cbn; repeat constructor;
    try apply chunk_cmd_nack_terminated; done.
Qed.

(** The sizes asked of the engine add up to the length to read, and
    with an engine that returns what it is asked for so do the bytes
    returned. *)
Lemma chunk_run_total (chunk_size count : Z) (chunks res : list (list Z))
    (t : list event) :
  chunk_run chunk_size count chunks (Ok res) t ->
  fold_right Z.add 0 (sizes_requested t) = count
  /\ length (sent_commands t) = length (sizes_requested t)
  /\ (Forall faithful t ->
      Z.of_nat (length (concat res))
      = Z.of_nat (length (concat chunks)) + count).
Proof.
  remember (Ok res) as r eqn:Er. intros Hrun. revert res Er.
  induction Hrun as [chunks| | |count chunks buf r t Hpos Hrun IH];
    intros res Er; try discriminate.
  - injection Er as ->. cbn. split; [done|]. split; [done|]. lia.
  - destruct (IH res Er) as (IH1 & IH2 & IH3). cbn.
    split; [lia|]. split; [by rewrite IH2|].
    intros Hf. inversion Hf as [|? ? _ Hf']; subst.
    inversion Hf' as [|? ? Hbuf Hf'']; subst. cbn in Hbuf.
    rewrite (IH3 Hf''), concat_app, length_app. cbn.
    rewrite app_nil_r. lia.
Qed.

(** A read longer than a chunk takes more than one buffer. *)
Lemma chunk_run_several (chunk_size count : Z) (chunks res : list (list Z))
    (t : list event) :
  1 <= chunk_size < count ->
  chunk_run chunk_size count chunks (Ok res) t ->
  (2 <= length (sent_commands t))%nat.
Proof.
  intros Hc Hrun.
  inversion Hrun as [| | |? ? buf ? t1 Hpos Hrun1]; subst; [lia|].
  inversion Hrun1 as [c0 Hz| | |]; subst; cbn; lia.
Qed.

(** X1: [_do_read] with a positive chunk size: it ends; every buffer it
    sends ends with the nack unit; when it returns, the sizes it asked
    for add up to [readlen], the bytes returned are [readlen] if every
    read was answered in full, and a read longer than the chunk size
    took at least two buffers, hence at least two nack units. *)
Lemma do_read_chunks (readlen : Z) (c c' : I2cController F)
    (r : outcome (list Z)) :
  is_Some (_ftdi c) ->
  1 <= read_chunk_size (_tx_size c) (_rx_size c) -> 0 <= readlen ->
  _do_read readlen c = (r, c') ->
  r <> Diverge
  /\ exists t,
      io_log c' = io_log c ++ t
      /\ Forall nack_terminated (sent_commands t)
      /\ forall data,
          r = Ok data ->
          fold_right Z.add 0 (sizes_requested t) = readlen
          /\ length (sent_commands t) = length (sizes_requested t)
          /\ (Forall faithful t -> Z.of_nat (length data) = readlen)
          /\ (read_chunk_size (_tx_size c) (_rx_size c) < readlen ->
              (2 <= length (sent_commands t))%nat).
Proof.
  intros Hc Hchunk Hlen Hrun. unfold _do_read, bind in Hrun.
  destruct (_do_read_loop _ _ _ _ _ _ c) as [rl cl] eqn:El.
  destruct (emits_chunks _ (Z.to_nat readlen + iterations) Hchunk readlen
              None []
              Hlen ltac:(lia) _ _ _ Hc El) as (_ & t & Ht & Hr).
  assert (Hcl : cl = c' /\ r = match rl with
                               | Ok chunks => Ok (concat chunks)
                               | Raise e => Raise e
                               | Diverge => Diverge
                               end).
  { destruct rl; by inversion Hrun. }
  destruct Hcl as [-> ->].
  pose proof (chunk_run_not_diverge _ _ _ _ _ Hr) as Hnd.
  split; [by destruct rl|].
  exists t. split; [done|].
  split; [by eapply chunk_run_nack_terminated|].
  intros data Hdata. destruct rl as [chunks| |]; try discriminate.
  injection Hdata as <-.
  destruct (chunk_run_total _ _ _ _ _ Hr) as (H1 & H2 & H3).
  split; [done|]. split; [done|]. split.
  - intros Hf. rewrite (H3 Hf). cbn. lia.
  - intros Hlt. eapply chunk_run_several; [|exact Hr]. lia.
Qed.

End Chunks.

(** ** The chunked read on an FT2232H *)

(** C1, on the code: a read of 456 bytes with FIFOs of 4096 bytes is cut
    in a chunk of 455 bytes and a chunk of one byte, and the 456 bytes
    asked for come back; but the buffer of each chunk ends with the
    read-byte unit that sends the nack bit, so that the stream holds two
    of them: the last unit of the first chunk is followed by a nack and
    not by an ack. *)
Theorem do_read_nack_at_chunk_boundary :
  let rc := _do_read (api := ack_engine) 456 bench in
  fst rc = Ok (repeat 0 456)
  /\ sizes_requested (io_log (snd rc)) = [455; 1]
  /\ read_units (api := ack_engine) (io_log (snd rc))
     = repeat (read_not_last (api := ack_engine)) 454
       ++ [read_last (api := ack_engine); read_last (api := ack_engine)]
  /\ read_units (api := ack_engine) (io_log (snd rc))
     <> repeat (read_not_last (api := ack_engine)) 455
        ++ [read_last (api := ack_engine)].
Proof.
  vm_compute. repeat split; try reflexivity. intros H. discriminate H.
Qed.

(** ** The theorems at work *)

Lemma run_pair {A B : Type} (x : A * B) : x = (fst x, snd x).
Proof. by destruct x. Qed.

(** A write of two bytes whose second byte is refused once: two
    attempts, two stop sequences, and the write returns.  And a read of
    one byte with FIFOs of one byte, where the chunk size is -1, the
    first chunk is answered with nothing and the engine raises at the
    second: the loop is followed for one iteration more than the
    length asked for, the operation makes one attempt, sends one stop
    sequence and raises the exception of the engine. *)
Lemma epilog_once_per_attempt_witness :
  (let op := CallWrite 0x21 [0x06; 0x00] in
   let c := scripted [inr [0]; inr [0]; inr [1]; inr [0];
                      inr [0]; inr [0]; inr [0]; inr [0]] in
   let rc := perform (api := scripted_engine) op c in
   fst rc = Ok RNone
   /\ stop_writes (api := scripted_engine) (io_log (snd rc)) = 2%nat
   /\ exists bodies t,
       io_log (snd rc) = io_log c ++ t
       /\ attempts (api := scripted_engine)
                   (first_i2caddress op) bodies t
       /\ stop_writes (api := scripted_engine) t = length bodies
       /\ (length bodies <= attempt_budget op)%nat
       /\ (request_accepted c op = true -> bodies <> [])
       /\ _stop (api := scripted_engine)
          = tuple_mul [SET_BITS_LOW (FtdiApi := scripted_engine);
                       0xfc; 0x03] 4
            ++ tuple_mul [SET_BITS_LOW (FtdiApi := scripted_engine);
                          0xfd; 0x03] 4
            ++ tuple_mul [SET_BITS_LOW (FtdiApi := scripted_engine);
                          0xff; 0x03] 4
       /\ (request_accepted c op = false ->
           t = [] /\ snd rc = c
           /\ exists msg, fst rc = Raise (I2cIOError msg))
       /\ (request_accepted c op = true ->
           tries (api := scripted_engine) (first_i2caddress op)
                 (nack_result op) (Z.of_nat (attempt_budget op)) bodies t
                 (fst rc)))
  /\ (let patient : Patience := {| iterations := 1 |} in
      let op := CallRead 0x21 1 in
      let c := controller_on
                 (mkScript [inr [0]; inr []; inl (FtdiError "usb"); inr [0]]
                           (1, 1)) 1 1 in
      let rc := perform (api := scripted_engine) (patience := patient)
                        op c in
      fst rc = Raise (Foreign (FtdiError "usb"))
      /\ sizes_requested (io_log (snd rc)) = [1; -1; -1; 1]
      /\ stop_writes (api := scripted_engine) (io_log (snd rc)) = 1%nat
      /\ exists bodies t,
          io_log (snd rc) = io_log c ++ t
          /\ attempts (api := scripted_engine)
                      (first_i2caddress op) bodies t
          /\ stop_writes (api := scripted_engine) t = length bodies
          /\ (length bodies <= attempt_budget op)%nat
          /\ (request_accepted c op = true -> bodies <> [])
          /\ _stop (api := scripted_engine)
             = tuple_mul [SET_BITS_LOW (FtdiApi := scripted_engine);
                          0xfc; 0x03] 4
               ++ tuple_mul [SET_BITS_LOW (FtdiApi := scripted_engine);
                             0xfd; 0x03] 4
               ++ tuple_mul [SET_BITS_LOW (FtdiApi := scripted_engine);
                             0xff; 0x03] 4
          /\ (request_accepted c op = false ->
              t = [] /\ snd rc = c
              /\ exists msg, fst rc = Raise (I2cIOError msg))
          /\ (request_accepted c op = true ->
              tries (api := scripted_engine) (first_i2caddress op)
                    (nack_result op) (Z.of_nat (attempt_budget op))
                    bodies t (fst rc))).
Proof.
  split.
  - intros op c rc.
    assert (H : fst rc <> Diverge) by (vm_compute; discriminate).
    split; [reflexivity|]. split; [by vm_compute|].
    exact (epilog_once_per_attempt (api := scripted_engine) op c (snd rc)
             (fst rc) (run_pair rc) H).
  - intros patient op c rc.
    assert (H : fst rc <> Diverge) by (vm_compute; discriminate).
    split; [reflexivity|]. split; [reflexivity|]. split; [by vm_compute|].
    exact (epilog_once_per_attempt (api := scripted_engine)
             (patience := patient) op c (snd rc) (fst rc) (run_pair rc) H).
Defined.

Lemma nack_engine_always_nack : always_nack (api := nack_engine).
Proof.
  split; [reflexivity|]. split.
  - intros f. exists 0xff, []. split; [reflexivity|]. vm_compute. discriminate.
  - intros f. by exists [0xff].
Defined.

(** A read from an address where nobody answers: three attempts and
    [I2cNackError].  And a write whose first payload byte the engine
    fails to answer: one attempt, and the exception of the engine. *)
Lemma retry_only_on_nack_witness :
  (let op := CallRead 0x21 1 in
   let rc := perform (api := nack_engine) op bench in
   fst rc = Raise (I2cNackError "NACK from slave")
   /\ exists xs,
       length xs = 3%nat
       /\ Forall (fun x => nack_reply (fst x)) xs
       /\ io_log (snd rc)
          = io_log bench
              ++ flat_map (nacked_attempt (api := nack_engine)
                                          (first_i2caddress op)) xs)
  /\ (let op := CallWrite 0x21 [0x06; 0x00] in
      let c := scripted [inr [0]; inl (FtdiError "usb"); inr [0]] in
      let rc := perform (api := scripted_engine) op c in
      fst rc = Raise (Foreign (FtdiError "usb"))
      /\ stop_writes (api := scripted_engine) (io_log (snd rc)) = 1%nat
      /\ exists bodies t,
          io_log (snd rc) = io_log c ++ t
          /\ attempts (api := scripted_engine)
                      (first_i2caddress op) bodies t
          /\ (length bodies <= attempt_budget op)%nat
          /\ Forall ends_with_nack (removelast bodies)
          /\ (forall e, last_failure t = Some e ->
                        fst rc = Raise (Foreign e))
          /\ (forall pre ev post,
                 t = pre ++ ev :: post -> failure_of ev <> None ->
                 post = []
                 \/ exists re, epilog_run (api := scripted_engine) re post)).
Proof.
  split.
  - intros op rc.
    exact (proj1 (retry_only_on_nack (api := nack_engine) op bench (snd rc)
                    (fst rc) (run_pair rc))
                 nack_engine_always_nack eq_refl).
  - intros op c rc.
    assert (H : fst rc <> Diverge) by (vm_compute; discriminate).
    split; [reflexivity|]. split; [by vm_compute|].
    destruct (proj1 (proj2 (retry_only_on_nack (api := scripted_engine)
                              op c (snd rc) (fst rc) (run_pair rc))) H)
      as (bodies & t & H1 & H2 & H3 & H4 & H5 & H6 & _).
    exists bodies, t. by repeat split.
Defined.

(** One byte more than the bound: rejected, nothing sent. *)
Lemma exchange_payload_limit_witness :
  let rc := exchange (api := ack_engine) 0x21 [0x04] 21845 bench in
  fst rc = Raise (I2cIOError "Input payload is too large")
  /\ snd rc = bench.
Proof.
  intros rc.
  destruct (exchange_payload_limit (api := ack_engine) bench (snd rc) 0x21
              21845 [0x04] (fst rc) (run_pair rc)) as (_ & Hiff & Hrej).
  split.
  - apply Hiff; [discriminate|vm_compute; discriminate|discriminate|lia].
  - apply Hrej. do 4 right. lia.
Defined.

Lemma get_port_same_instance_witness :
  exists p c1,
    get_port 0x21 bench = (Ok p, c1)
    /\ io_log c1 = io_log bench
    /\ get_port 0x21 c1 = (Ok p, c1)
    /\ (forall b rb c2,
          get_port b c1 = (rb, c2) -> get_port 0x21 c2 = (Ok p, c2))
    /\ _slaves c1 !! 0x21 = Some p
    /\ (forall q, _slaves bench !! 0x21 = Some q -> p = q /\ c1 = bench)
    /\ (_slaves bench !! 0x21 = None ->
        p = length (ports bench)
        /\ ports c1 = ports bench ++ [mkPort 0x21 0 "<" "B"]
        /\ _slaves c1 = <[0x21 := p]> (_slaves bench))
    /\ (cache_ok bench ->
        cache_ok c1
        /\ (exists port, ports c1 !! p = Some port /\ _address port = 0x21)
        /\ forall b rb c2,
            get_port b c1 = (rb, c2) ->
            ports c2 !! p = ports c1 !! p
            /\ forall q, rb = Ok q -> b <> 0x21 -> q <> p).
Proof.
  apply (proj2 (get_port_same_instance bench 0x21));
    [discriminate|vm_compute; split; discriminate].
Defined.

(** Three bytes to write, the second one refused: the third is not
    sent. *)
Lemma do_write_byte_by_byte_witness :
  let c := scripted [inr [0]; inr [1]] in
  let rc := _do_write (api := scripted_engine) [0x10; 0x20; 0x30] c in
  fst rc = Raise (I2cNackError "NACK from slave")
  /\ bytes_written (io_log (snd rc)) = [0x10; 0x20]
  /\ exists t,
      io_log (snd rc) = io_log c ++ t
      /\ write_run (api := scripted_engine) [0x10; 0x20; 0x30] (fst rc) t
      /\ (exists k, bytes_written t = firstn k [0x10; 0x20; 0x30]
                    /\ (k <= 3)%nat
                    /\ (fst rc = Ok tt -> k = 3%nat))
      /\ (forall msg, fst rc = Raise (I2cNackError msg) -> ends_with_nack t)
      /\ (forall msg, fst rc = Raise (I2cIOError msg) ->
                      msg = "No answer from FTDI"
                      /\ exists pre, t = pre ++ [EvRead 1 4 (inr [])])
      /\ fst rc <> Diverge.
Proof.
  intros c rc. split; [reflexivity|]. split; [reflexivity|].
  apply (do_write_byte_by_byte (api := scripted_engine) [0x10; 0x20; 0x30]
           c (snd rc) (fst rc)); [by eexists|apply run_pair].
Defined.

Lemma write_to_register_prefix_witness :
  (exists c1,
      configure_register 0 true 2 bench_with_port = (Ok tt, c1)
      /\ write_to (api := ack_engine) 0 0x0102 [0xAA] c1
         = write (api := ack_engine) (0x21 + 0) [0x01; 0x02; 0xAA] c1)
  /\ (exists c1,
         configure_register 0 false 2 bench_with_port = (Ok tt, c1)
         /\ write_to (api := ack_engine) 0 0x0102 [0xAA] c1
            = write (api := ack_engine) (0x21 + 0) [0x02; 0x01; 0xAA] c1)
  /\ (forall bigendian width,
         width <> 1 -> width <> 2 -> width <> 4 ->
         configure_register 0 bigendian width bench_with_port
         = (Raise (I2cIOError "Unsupported integer width"),
            bench_with_port)).
Proof.
  apply (write_to_register_prefix (api := ack_engine) bench_with_port 0
           (mkPort 0x21 0 "<" "B")).
  reflexivity.
Defined.

(** The address -1 is taken as it comes: its address byte is 0xff for a
    read. *)
Lemma address_upper_bound_only_witness :
  validate_address (-1) bench = (Ok tt, bench)
  /\ (exists p c1, get_port (-1) bench = (Ok p, c1))
  /\ let rc := perform (api := ack_engine) (CallRead (-1) 1) bench in
     first_i2caddress (CallRead (-1) 1) = 0xff
     /\ exists res t,
         io_log (snd rc)
         = io_log bench
             ++ EvWrite (Some (prolog_cmd (api := ack_engine) 0xff)) res :: t.
Proof.
  destruct (address_upper_bound_only (api := ack_engine) (-1) bench)
    as (Hv & Hg & _ & Hop); [vm_compute; discriminate|].
  split; [exact Hv|]. split; [apply Hg; discriminate|].
  intros rc. split; [reflexivity|].
  destruct (Hop (CallRead (-1) 1) (fst rc) (snd rc) eq_refl eq_refl
                (run_pair rc)) as (_ & _ & H).
  - vm_compute. discriminate.
  - exact H.
Defined.

(** ** What the bus operations leave alone *)

Section Frame.
Context {F : Type} {api : FtdiApi F} {patience : Patience}.

Lemma kept_refl (c : I2cController F) : kept c c.
Proof. by repeat split. Qed.

Lemma kept_trans (c1 c2 c3 : I2cController F) :
  kept c1 c2 -> kept c2 c3 -> kept c1 c3.
Proof.
  intros (A1 & A2 & A3 & A4 & A5 & A6) (B1 & B2 & B3 & B4 & B5 & B6).
  repeat split; try congruence; tauto.
Qed.

Lemma keeps_ret {A : Type} (a : A) : keeps (@ret F A a).
Proof. intros c r c' [= <- <-]. apply kept_refl. Qed.

Lemma keeps_raise {A : Type} (e : exn) : keeps (@raise F A e).
Proof. intros c r c' [= <- <-]. apply kept_refl. Qed.

Lemma keeps_bind {A B : Type} (m : @M F A) (k : A -> @M F B) :
  keeps m -> (forall a, keeps (k a)) -> keeps (bind m k).
Proof.
  intros Hm Hk c r c' Hrun. unfold bind in Hrun.
  destruct (m c) as [[a|e|] c1] eqn:Em.
  - eapply kept_trans; [by eapply Hm|by eapply Hk].
  - inversion Hrun; subst. by eapply Hm.
  - inversion Hrun; subst. by eapply Hm.
Qed.

Lemma kept_set_ftdi (c : I2cController F) (f : F) (evs : list event) :
  is_Some (_ftdi c) -> kept c (set_ftdi c (Some f) evs).
Proof. intros Hc. repeat split; cbn; eauto. Qed.

Lemma keeps_write (cmd : option (list Z)) : keeps (ftdi_write_data cmd).
Proof.
  intros c r c' Hrun. unfold ftdi_write_data in Hrun.
  destruct (_ftdi c) as [f|] eqn:Hf.
  - destruct (write_data cmd f) as [f' res].
    assert (c' = set_ftdi c (Some f') [EvWrite cmd res])
      as -> by (destruct res; by inversion Hrun).
    apply kept_set_ftdi. rewrite Hf. eauto.
  - inversion Hrun; subst. apply kept_refl.
Qed.

Lemma keeps_read (size attempt : Z) :
  keeps (ftdi_read_data_bytes size attempt).
Proof.
  intros c r c' Hrun. unfold ftdi_read_data_bytes in Hrun.
  destruct (_ftdi c) as [f|] eqn:Hf.
  - destruct (read_data_bytes size attempt f) as [f' res].
    assert (c' = set_ftdi c (Some f') [EvRead size attempt res])
      as -> by (destruct res; by inversion Hrun).
    apply kept_set_ftdi. rewrite Hf. eauto.
  - inversion Hrun; subst. apply kept_refl.
Qed.

Lemma keeps_lift_engine (step : F -> F * option foreign_exn) :
  keeps (lift_engine step).
Proof.
  intros c r c' Hrun. unfold lift_engine in Hrun.
  destruct (_ftdi c) as [f|] eqn:Hf.
  - destruct (step f) as [f' res].
    assert (c' = set_ftdi c (Some f') [])
      as -> by (destruct res; by inversion Hrun).
    apply kept_set_ftdi. rewrite Hf. eauto.
  - inversion Hrun; subst. apply kept_refl.
Qed.

Lemma keeps_check_ack (ack : list Z) : keeps (@check_ack F ack).
Proof.
  intros c r c' Hrun. rewrite check_ack_outcome in Hrun.
  inversion Hrun; subst. apply kept_refl.
Qed.

Lemma keeps_check_ftdi : keeps (@check_ftdi F).
Proof.
  intros c r c' Hrun. unfold check_ftdi in Hrun.
  destruct (_ftdi c); inversion Hrun; subst; apply kept_refl.
Qed.

Lemma keeps_validate_address (address : Z) :
  keeps (@validate_address F address).
Proof.
  unfold validate_address.
  destruct (_ <? _); [apply keeps_raise|apply keeps_ret].
Qed.

Lemma keeps_prolog (i2caddress : Z) : keeps (_do_prolog i2caddress).
Proof.
  apply keeps_bind; [apply keeps_write|]. intros _.
  apply keeps_bind; [apply keeps_read|]. intros ack. apply keeps_check_ack.
Qed.

Lemma keeps_epilog : keeps _do_epilog.
Proof.
  apply keeps_bind; [apply keeps_write|]. intros _.
  apply keeps_bind; [apply keeps_read|]. intros ack. apply keeps_ret.
Qed.

Lemma keeps_do_write (out : list Z) : keeps (_do_write out).
Proof.
  induction out as [|byte rest IH]; [apply keeps_ret|].
  cbn [_do_write].
  apply keeps_bind; [apply keeps_write|]. intros _.
  apply keeps_bind; [apply keeps_read|]. intros ack.
  apply keeps_bind; [apply keeps_check_ack|]. by intros _.
Qed.

Lemma keeps_do_read_loop (fuel : nat) :
  forall (chunk_size last_count count : Z) (last_cmd : option (list Z))
         (chunks : list (list Z)),
    keeps (_do_read_loop fuel chunk_size last_count count last_cmd chunks).
Proof.
  induction fuel as [|fuel IH]; intros chunk_size last_count count last_cmd
                                       chunks; cbn [_do_read_loop];
    destruct (count =? 0); try apply keeps_ret.
  - intros c r c' [= <- <-]. apply kept_refl.
  - apply keeps_bind.
    + destruct (_ <=? 0); [|apply keeps_ret].
      destruct (block_cmd _ _ _); [apply keeps_ret|apply keeps_raise].
    + intros cmd. apply keeps_bind; [apply keeps_write|]. intros _.
      apply keeps_bind; [apply keeps_read|]. intros buf. apply IH.
Qed.

Lemma keeps_do_read (readlen : Z) : keeps (_do_read readlen).
Proof.
  intros c r c' Hrun. unfold _do_read in Hrun.
  revert Hrun. apply keeps_bind; [apply keeps_do_read_loop|].
  intros chunks. apply keeps_ret.
Qed.

Lemma keeps_try_finally {A : Type} (body : @M F A) (fin : @M F unit) :
  keeps body -> keeps fin -> keeps (try_finally body fin).
Proof.
  intros Hb Hf c r c' Hrun. unfold try_finally in Hrun.
  destruct (body c) as [rb c1] eqn:Eb.
  pose proof (Hb _ _ _ Eb) as H1.
  destruct rb as [v|e|].
  - destruct (fin c1) as [rf c2] eqn:Ef. pose proof (Hf _ _ _ Ef) as H2.
    assert (c' = c2) as -> by (destruct rf; by inversion Hrun).
    by eapply kept_trans.
  - destruct (fin c1) as [rf c2] eqn:Ef. pose proof (Hf _ _ _ Ef) as H2.
    assert (c' = c2) as -> by (destruct rf; by inversion Hrun).
    by eapply kept_trans.
  - by inversion Hrun; subst.
Qed.

Lemma keeps_except_nack {A : Type} (body : @M F A) (retries : Z) :
  keeps body -> keeps (except_nack body retries).
Proof.
  intros Hb c r c' Hrun. unfold except_nack in Hrun.
  destruct (body c) as [rb c1] eqn:Eb.
  pose proof (Hb _ _ _ Eb) as H1.
  assert (c' = c1) as ->; [|done].
  destruct rb as [v|[msg|msg|f]|]; try (by inversion Hrun).
  destruct (retries - 1 =? 0); by inversion Hrun.
Qed.

Lemma keeps_retry_loop {A : Type} (body : @M F A) (fuel : nat) :
  keeps body -> forall retries, keeps (retry_loop fuel body retries).
Proof.
  intros Hb. induction fuel as [|fuel IH]; intros retries; cbn [retry_loop].
  - intros c r c' [= <- <-]. apply kept_refl.
  - apply keeps_bind.
    + apply keeps_try_finally; [by apply keeps_except_nack|].
      apply keeps_epilog.
    + intros [v|retries']; [apply keeps_ret|apply IH].
Qed.

Lemma keeps_read_op (address readlen : Z) : keeps (read address readlen).
Proof.
  apply keeps_bind; [apply keeps_check_ftdi|]. intros _.
  apply keeps_bind; [apply keeps_validate_address|]. intros _.
  destruct (_ <? _); [apply keeps_raise|].
  apply keeps_retry_loop.
  apply keeps_bind; [apply keeps_prolog|]. intros _.
  apply keeps_bind; [apply keeps_do_read|]. intros data. apply keeps_ret.
Qed.

Lemma keeps_write_op (address : Z) (out : list Z) :
  keeps (write address out).
Proof.
  apply keeps_bind; [apply keeps_check_ftdi|]. intros _.
  apply keeps_bind; [apply keeps_validate_address|]. intros _.
  destruct (_ =? _)%nat; [apply keeps_raise|].
  apply keeps_retry_loop.
  apply keeps_bind; [apply keeps_prolog|]. intros _. apply keeps_do_write.
Qed.

Lemma keeps_exchange_op (address : Z) (out : list Z) (readlen : Z) :
  keeps (exchange address out readlen).
Proof.
  apply keeps_bind; [apply keeps_check_ftdi|]. intros _.
  apply keeps_bind; [apply keeps_validate_address|]. intros _.
  destruct (_ =? _)%nat; [apply keeps_raise|].
  destruct (_ <? _); [apply keeps_raise|].
  destruct (payload_too_large _); [apply keeps_raise|].
  apply keeps_retry_loop.
  apply keeps_bind; [apply keeps_prolog|]. intros _.
  apply keeps_bind; [apply keeps_do_write|]. intros _.
  apply keeps_bind; [apply keeps_prolog|]. intros _.
  apply keeps_bind; [apply keeps_do_read|]. intros data. apply keeps_ret.
Qed.

Lemma keeps_poll_op (address : Z) : keeps (poll address).
Proof.
  apply keeps_bind; [apply keeps_check_ftdi|]. intros _.
  apply keeps_bind; [apply keeps_validate_address|]. intros _.
  apply keeps_try_finally; [|apply keeps_epilog].
  intros c r c' Hrun.
  destruct (_do_prolog _ c) as [rp c1] eqn:Ep.
  pose proof (keeps_prolog _ _ _ _ Ep) as H1.
  assert (c' = c1) as ->; [|done].
  destruct rp as [v|[msg|msg|f]|]; by inversion Hrun.
Qed.

Lemma keeps_flush : keeps flush.
Proof.
  apply keeps_bind; [apply keeps_write|]. intros _. apply keeps_lift_engine.
Qed.

Lemma keeps_perform (op : call) : keeps (perform op).
Proof.
  destruct op; cbn [perform].
  - apply keeps_bind; [apply keeps_read_op|]. intros ?. apply keeps_ret.
  - apply keeps_bind; [apply keeps_write_op|]. intros ?. apply keeps_ret.
  - apply keeps_bind; [apply keeps_exchange_op|]. intros ?. apply keeps_ret.
  - apply keeps_bind; [apply keeps_poll_op|]. intros ?. apply keeps_ret.
Qed.

(** X4: [read], [write], [exchange] and [poll] change nothing of the
    controller but the state of the engine and the record of calls: the
    table of ports, the port objects, the frequency and the FIFO sizes
    are as before, and the [Ftdi] object is neither dropped nor
    created, whatever the engine does and however the operation ends. *)
Theorem perform_keeps_objects (op : call) (c : I2cController F) :
  _slaves (snd (perform op c)) = _slaves c
  /\ ports (snd (perform op c)) = ports c
  /\ _frequency (snd (perform op c)) = _frequency c
  /\ _tx_size (snd (perform op c)) = _tx_size c
  /\ _rx_size (snd (perform op c)) = _rx_size c
  /\ (is_Some (_ftdi (snd (perform op c))) <-> is_Some (_ftdi c)).
Proof.
  apply (keeps_perform op c (fst (perform op c))). by destruct (perform op c).
Qed.

End Frame.

(** ** Which operations end *)

Section Ending.
Context {F : Type} {api : FtdiApi F} {patience : Patience}.

Lemma kept_chunk_positive (c c' : I2cController F) :
  kept c c' -> chunk_positive c -> chunk_positive c'.
Proof.
  intros (_ & _ & _ & Htx & Hrx & _). unfold chunk_positive.
  by rewrite Htx, Hrx.
Qed.

Lemma ends_bind {A B : Type} (Q : I2cController F -> Prop)
    (m : @M F A) (k : A -> @M F B) :
  ends_if Q m -> (forall c r c', Q c -> m c = (r, c') -> Q c') ->
  (forall a, ends_if Q (k a)) -> ends_if Q (bind m k).
Proof.
  intros Hm Hq Hk c HQ. unfold bind.
  pose proof (Hm c HQ) as H1.
  destruct (m c) as [[a|e|] c1] eqn:Em; cbn in *; try done.
  apply Hk. by eapply Hq.
Qed.

Lemma write_data_ends (cmd : option (list Z)) (c : I2cController F) :
  fst (ftdi_write_data cmd c) <> Diverge.
Proof.
  unfold ftdi_write_data. destruct (_ftdi c) as [f|]; [|done].
  destruct (write_data cmd f) as [f' [e|]]; done.
Qed.

Lemma read_data_bytes_ends (size attempt : Z) (c : I2cController F) :
  fst (ftdi_read_data_bytes size attempt c) <> Diverge.
Proof.
  unfold ftdi_read_data_bytes. destruct (_ftdi c) as [f|]; [|done].
  destruct (read_data_bytes size attempt f) as [f' [e|buf]]; done.
Qed.

Lemma check_ack_ends (ack : list Z) (c : I2cController F) :
  fst (check_ack ack c) <> Diverge.
Proof.
  rewrite check_ack_outcome. destruct ack as [|a tl]; cbn; [done|].
  by destruct (_ =? 0).
Qed.

Lemma ends_always {A : Type} (Q : I2cController F -> Prop) (m : @M F A) :
  (forall c, fst (m c) <> Diverge) -> ends_if Q m.
Proof. intros H c _. apply H. Qed.

Lemma ends_keeps {A : Type} (m : @M F A) :
  keeps m ->
  forall c r c', chunk_positive c -> m c = (r, c') -> chunk_positive c'.
Proof.
  intros Hm c r c' Hq Hrun. eapply kept_chunk_positive; [|done].
  by eapply Hm.
Qed.

Lemma prolog_ends (Q : I2cController F -> Prop) (i2caddress : Z) :
  ends_if Q (_do_prolog i2caddress).
Proof.
  apply ends_always. intros c. unfold _do_prolog, bind.
  pose proof (write_data_ends (Some (prolog_cmd i2caddress)) c) as H1.
  destruct (ftdi_write_data _ c) as [[[]|e|] c1]; try done.
  pose proof (read_data_bytes_ends 1 4 c1) as H2.
  destruct (ftdi_read_data_bytes 1 4 c1) as [[ack|e|] c2]; try done.
  apply check_ack_ends.
Qed.

Lemma epilog_ends (c : I2cController F) : fst (_do_epilog c) <> Diverge.
Proof.
  unfold _do_epilog, bind.
  pose proof (write_data_ends (Some _stop) c) as H1.
  destruct (ftdi_write_data _ c) as [[[]|e|] c1]; try done.
  pose proof (read_data_bytes_ends 1 1 c1) as H2.
  destruct (ftdi_read_data_bytes 1 1 c1) as [[ack|e|] c2]; done.
Qed.

Lemma do_write_ends (out : list Z) (c : I2cController F) :
  fst (_do_write out c) <> Diverge.
Proof.
  revert c. induction out as [|byte rest IH]; intros c; [done|].
  cbn [_do_write]. unfold bind.
  pose proof (write_data_ends (Some (write_cmd byte)) c) as H1.
  destruct (ftdi_write_data _ c) as [[[]|e|] c1]; try done.
  pose proof (read_data_bytes_ends 1 4 c1) as H2.
  destruct (ftdi_read_data_bytes 1 4 c1) as [[ack|e|] c2]; try done.
  pose proof (check_ack_ends ack c2) as H3.
  destruct (check_ack ack c2) as [[[]|e|] c3]; try done; apply IH.
Qed.

(** With a positive chunk size the count reaches zero before the
    iterations run out. *)
Lemma do_read_loop_ends (chunk_size : Z) (fuel : nat) :
  1 <= chunk_size ->
  forall (last_count count : Z) (last_cmd : option (list Z))
         (chunks : list (list Z)) (c : I2cController F),
    0 <= count -> (Z.to_nat count <= fuel)%nat ->
    fst (_do_read_loop fuel chunk_size last_count count last_cmd chunks c)
    <> Diverge.
Proof.
  intros Hchunk. induction fuel as [|fuel IH];
    intros last_count count last_cmd chunks c Hcount Hfuel;
    cbn [_do_read_loop]; destruct (Z.eqb_spec count 0) as [->|Hne];
    try done; [lia|].
  cbv zeta. unfold bind at 1.
  set (pick := if _ <=? 0 then _ else _).
  assert (Hpick : fst (pick c) <> Diverge /\ snd (pick c) = c).
  { unfold pick. destruct (_ <=? 0); [|done].
    by destruct (block_cmd _ _ _). }
  destruct (pick c) as [[cmd|e|] c0]; cbn in Hpick; destruct Hpick as [? ->];
    try done.
  unfold bind at 1.
  pose proof (write_data_ends cmd c) as H1.
  destruct (ftdi_write_data cmd c) as [[[]|e|] c1]; try done.
  unfold bind at 1.
  pose proof (read_data_bytes_ends (Z.min count chunk_size) 4 c1) as H2.
  destruct (ftdi_read_data_bytes _ 4 c1) as [[buf|e|] c2]; try done.
  apply IH; lia.
Qed.

Lemma do_read_ends (readlen : Z) :
  0 <= readlen -> ends_if chunk_positive (_do_read readlen).
Proof.
  intros Hlen c Hq. unfold _do_read, bind.
  pose proof (do_read_loop_ends _ (Z.to_nat readlen + iterations) Hq 0
                readlen None [] c
                Hlen ltac:(lia)) as H.
  by destruct (_do_read_loop _ _ _ _ _ _ c) as [[chunks|e|] c1].
Qed.

(** What an iteration of the retry loop hands to the next one. *)
Lemma attempt_continue {A : Type} (body : @M F A) (retries : Z)
    (c c1 : I2cController F) (r1 : outcome (flow A)) :
  fst (body c) <> Diverge -> attempt body retries c = (r1, c1) ->
  r1 <> Diverge
  /\ forall retries', r1 = Ok (Continue retries') ->
                      retries' = retries - 1 /\ retries - 1 <> 0.
Proof.
  intros Hb Hrun. unfold attempt, try_finally, except_nack in Hrun.
  destruct (body c) as [rb c0]. cbn in Hb.
  pose proof (epilog_ends c0) as He.
  destruct rb as [v|[msg|msg|f]|]; try done;
    try destruct (Z.eqb_spec (retries - 1) 0) as [E|E];
    cbv beta iota in Hrun;
    destruct (_do_epilog c0) as [re c2]; cbn in He;
    destruct re; try done; inversion Hrun; subst; (split; [done|]);
    try (intros ? [=]; fail).
  by intros ? [= <-].
Qed.

Lemma retry_loop_ends {A : Type} (Q : I2cController F -> Prop)
    (body : @M F A) (fuel : nat) :
  ends_if Q body -> keeps body ->
  (forall c c', kept c c' -> Q c -> Q c') ->
  forall retries, 1 <= retries -> (Z.to_nat retries <= fuel)%nat ->
                  ends_if Q (retry_loop fuel body retries).
Proof.
  intros Hb Hk Hq. induction fuel as [|fuel IH]; intros retries Hr Hf c HQ;
    [lia|].
  cbn [retry_loop]. unfold bind.
  destruct (attempt body retries c) as [r1 c1] eqn:Ea.
  destruct (attempt_continue _ _ _ _ _ (Hb c HQ) Ea) as (Hnd & Hcont).
  assert (Hkept : kept c c1).
  { revert Ea. apply keeps_try_finally; [by apply keeps_except_nack|].
    apply keeps_epilog. }
  destruct r1 as [[v|retries']|e|]; try done.
  destruct (Hcont retries' eq_refl) as [-> Hne].
  apply IH; [lia|lia|]. by eapply Hq.
Qed.

(** X5: [write] and [poll] always end, and so do [read] and [exchange]
    when the chunk size computed from the FIFO sizes is positive: the
    retry loop makes at most three iterations and the loop of the
    chunked read at most [readlen]. *)
Theorem perform_ends (op : call) (c : I2cController F) :
  match op with
  | CallRead _ _ | CallExchange _ _ _ => chunk_positive c
  | CallWrite _ _ | CallPoll _ => True
  end ->
  fst (perform op c) <> Diverge.
Proof.
  intros Hop.
  assert (Hmap : forall (A : Type) (f : A -> retval) (m : @M F A),
             fst (m c) <> Diverge ->
             fst (bind m (fun a => ret (f a)) c) <> Diverge).
  { intros A f m H. unfold bind. by destruct (m c) as [[a|e|] c1]. }
  assert (Hguard : forall (A : Type) (address : Z) (k : @M F A),
             fst (k c) <> Diverge ->
             fst (bind check_ftdi
                       (fun _ => bind (validate_address address)
                                      (fun _ => k)) c) <> Diverge).
  { intros A address k H. unfold bind, check_ftdi, validate_address.
    destruct (_ftdi c); [|done]. by destruct (_ <? _). }
  destruct op as [address readlen|address out|address out readlen|address];
    cbn [perform]; apply Hmap;
    unfold read, write, exchange, poll; apply Hguard.
  - destruct (Z.ltb_spec readlen 1); [done|].
    apply (retry_loop_ends chunk_positive); try done; try lia.
    + apply ends_bind; [apply prolog_ends|apply ends_keeps, keeps_prolog|].
      intros _. apply ends_bind;
        [apply do_read_ends; lia|apply ends_keeps, keeps_do_read|].
      intros data. by apply ends_always.
    + apply keeps_bind; [apply keeps_prolog|]. intros _.
      apply keeps_bind; [apply keeps_do_read|]. intros ?. apply keeps_ret.
    + apply kept_chunk_positive.
  - destruct (_ =? _)%nat; [done|].
    apply (retry_loop_ends (fun _ => True)); try done; try lia.
    + apply ends_bind; [apply prolog_ends|done|].
      intros _. apply ends_always, do_write_ends.
    + apply keeps_bind; [apply keeps_prolog|]. intros _.
      apply keeps_do_write.
  - destruct (_ =? _)%nat; [done|].
    destruct (Z.ltb_spec readlen 1); [done|].
    destruct (payload_too_large _); [done|].
    apply (retry_loop_ends chunk_positive); try done; try lia.
    + apply ends_bind; [apply prolog_ends|apply ends_keeps, keeps_prolog|].
      intros _. apply ends_bind;
        [apply ends_always, do_write_ends
        |apply ends_keeps, keeps_do_write|].
      intros _. apply ends_bind;
        [apply prolog_ends|apply ends_keeps, keeps_prolog|].
      intros _. apply ends_bind;
        [apply do_read_ends; lia|apply ends_keeps, keeps_do_read|].
      intros data. by apply ends_always.
    + apply keeps_bind; [apply keeps_prolog|]. intros _.
      apply keeps_bind; [apply keeps_do_write|]. intros _.
      apply keeps_bind; [apply keeps_prolog|]. intros _.
      apply keeps_bind; [apply keeps_do_read|]. intros ?. apply keeps_ret.
    + apply kept_chunk_positive.
  - unfold try_finally.
    pose proof (prolog_ends (fun _ => True)
                  (Z.lor (Z.land (Z.shiftl address 1) HIGH) BIT0) c I) as Hp.
    destruct (_do_prolog _ c) as [[[]|[msg|msg|f]|] c1]; cbn in Hp;
      try done;
      pose proof (epilog_ends c1) as He;
      destruct (_do_epilog c1) as [[[]|e|] c2]; done.
Qed.

End Ending.

(** ** The chunked read when the chunk size is not positive *)

Section Stuck.
Context {F : Type} {api : FtdiApi F} {patience : Patience}.

(** With a chunk size of zero or less the count never goes down: however
    many iterations are allowed, the loop has not returned. *)
Lemma do_read_loop_stuck (chunk_size : Z) (fuel : nat) :
  chunk_size <= 0 ->
  forall (last_count count : Z) (last_cmd : option (list Z))
         (chunks res : list (list Z)) (c : I2cController F),
    1 <= count ->
    fst (_do_read_loop fuel chunk_size last_count count last_cmd chunks c)
    <> Ok res.
Proof.
  intros Hchunk. induction fuel as [|fuel IH];
    intros last_count count last_cmd chunks res c Hcount;
    cbn [_do_read_loop]; destruct (Z.eqb_spec count 0) as [E|_];
    try lia; [done|].
  cbv zeta.
  destruct (Z.leb_spec (count - Z.min count chunk_size) 0) as [E|_];
    [lia|].
  unfold bind at 1. cbn [ret]. unfold bind at 1.
  destruct (ftdi_write_data _ c) as [[[]|e|] c1]; try done.
  unfold bind at 1.
  destruct (ftdi_read_data_bytes _ 4 c1) as [[buf|e|] c2]; try done.
  apply IH. lia.
Qed.

Lemma bind_ok {A B : Type} (m : @M F A) (k : A -> @M F B)
    (c : I2cController F) (v : B) :
  fst (bind m k c) = Ok v ->
  exists a c1, m c = (Ok a, c1) /\ fst (k a c1) = Ok v.
Proof.
  unfold bind. destruct (m c) as [[a|e|] c1]; try done. eauto.
Qed.

(** A retry loop that returns a value got it from its body, run in a
    state with the same objects. *)
Lemma retry_loop_ok {A : Type} (body : @M F A) (fuel : nat) :
  keeps body ->
  forall retries c v,
    fst (retry_loop fuel body retries c) = Ok v ->
    exists c0, kept c c0 /\ fst (body c0) = Ok v.
Proof.
  intros Hk. induction fuel as [|fuel IH]; intros retries c v Hrun;
    [done|].
  cbn [retry_loop] in Hrun.
  destruct (bind_ok _ _ _ _ Hrun) as (fl & c1 & Ha & Hrest).
  assert (Hkept : kept c c1).
  { revert Ha. apply keeps_try_finally; [by apply keeps_except_nack|].
    apply keeps_epilog. }
  destruct fl as [v'|retries'].
  - injection Hrest as ->. exists c. split; [apply kept_refl|].
    unfold attempt, try_finally, except_nack in Ha.
    destruct (body c) as [[v0|[msg|msg|f]|] c0]; cbn;
      try destruct (retries - 1 =? 0);
      destruct (_do_epilog c0) as [[[]|e|] c2]; by inversion Ha.
  - destruct (IH _ _ _ Hrest) as (c0 & H0 & Hb). exists c0.
    split; [by eapply kept_trans|done].
Qed.

Lemma keeps_read_body (i2caddress readlen : Z) :
  keeps (read_body i2caddress readlen).
Proof.
  apply keeps_bind; [apply keeps_prolog|]. intros _.
  apply keeps_bind; [apply keeps_do_read|]. intros ?. apply keeps_ret.
Qed.

Lemma keeps_exchange_body (i2caddress : Z) (out : list Z) (readlen : Z) :
  keeps (exchange_body i2caddress out readlen).
Proof.
  apply keeps_bind; [apply keeps_prolog|]. intros _.
  apply keeps_bind; [apply keeps_do_write|]. intros _.
  apply keeps_bind; [apply keeps_prolog|]. intros _.
  apply keeps_bind; [apply keeps_do_read|]. intros ?. apply keeps_ret.
Qed.

Lemma do_read_stuck (readlen : Z) (c : I2cController F) (data : list Z) :
  ~ chunk_positive c -> 1 <= readlen -> fst (_do_read readlen c) <> Ok data.
Proof.
  intros Hq Hlen Hrun. unfold _do_read in Hrun.
  destruct (bind_ok _ _ _ _ Hrun) as (chunks & c1 & Hl & _).
  eapply (do_read_loop_stuck _ (Z.to_nat readlen + iterations));
    [|exact Hlen|by rewrite Hl]. unfold chunk_positive in Hq. lia.
Qed.

Lemma kept_not_chunk_positive (c c' : I2cController F) :
  kept c c' -> ~ chunk_positive c -> ~ chunk_positive c'.
Proof.
  intros (_ & _ & _ & Htx & Hrx & _). unfold chunk_positive.
  by rewrite Htx, Hrx.
Qed.

(** X2: when the chunk size computed from the FIFO sizes is zero or
    less, as it is with the sizes of a controller that was not
    configured (1 and 1, chunk size -1), the loop of the chunked read
    never returns, however many iterations it is given, and neither
    [read] nor [exchange] returns data: they raise or do not end. *)
Theorem read_never_returns_without_chunk (c : I2cController F)
    (address readlen : Z) :
  ~ chunk_positive c ->
  read_chunk_size 1 1 = -1
  /\ (forall fuel last_count count last_cmd chunks res,
         1 <= count ->
         fst (_do_read_loop fuel
                (read_chunk_size (_tx_size c) (_rx_size c))
                last_count count last_cmd chunks c) <> Ok res)
  /\ (forall data, fst (read address readlen c) <> Ok data)
  /\ (forall out data, fst (exchange address out readlen c) <> Ok data).
Proof.
  intros Hq. split; [reflexivity|]. split; [|split].
  - intros fuel last_count count last_cmd chunks res Hcount.
    apply do_read_loop_stuck; [|done]. unfold chunk_positive in Hq. lia.
  - intros data Hrun. unfold read in Hrun.
    destruct (bind_ok _ _ _ _ Hrun) as ([] & c1 & H1 & Hrun1).
    destruct (bind_ok _ _ _ _ Hrun1) as ([] & c2 & H2 & Hrun2).
    assert (Hk : kept c c2).
    { eapply kept_trans; [by eapply keeps_check_ftdi|].
      by eapply keeps_validate_address. }
    destruct (Z.ltb_spec readlen 1) as [|Hlen]; [done|].
    destruct (retry_loop_ok _ _ (keeps_read_body _ _) _ _ _ Hrun2)
      as (c0 & Hk0 & Hb).
    unfold read_body in Hb.
    destruct (bind_ok _ _ _ _ Hb) as ([] & c3 & H3 & Hb3).
    destruct (bind_ok _ _ _ _ Hb3) as (d & c4 & H4 & _).
    eapply (do_read_stuck readlen c3 d); [|done|by rewrite H4].
    eapply kept_not_chunk_positive; [|exact Hq].
    eapply kept_trans; [exact Hk|]. eapply kept_trans; [exact Hk0|].
    by eapply keeps_prolog.
  - intros out data Hrun. unfold exchange in Hrun.
    destruct (bind_ok _ _ _ _ Hrun) as ([] & c1 & H1 & Hrun1).
    destruct (bind_ok _ _ _ _ Hrun1) as ([] & c2 & H2 & Hrun2).
    assert (Hk : kept c c2).
    { eapply kept_trans; [by eapply keeps_check_ftdi|].
      by eapply keeps_validate_address. }
    destruct (_ =? _)%nat; [done|].
    destruct (Z.ltb_spec readlen 1) as [|Hlen]; [done|].
    destruct (payload_too_large readlen); [done|].
    destruct (retry_loop_ok _ _ (keeps_exchange_body _ _ _) _ _ _ Hrun2)
      as (c0 & Hk0 & Hb).
    unfold exchange_body in Hb.
    destruct (bind_ok _ _ _ _ Hb) as ([] & c3 & H3 & Hb3).
    destruct (bind_ok _ _ _ _ Hb3) as ([] & c4 & H4 & Hb4).
    destruct (bind_ok _ _ _ _ Hb4) as ([] & c5 & H5 & Hb5).
    destruct (bind_ok _ _ _ _ Hb5) as (d & c6 & H6 & _).
    eapply (do_read_stuck readlen c5 d); [|done|by rewrite H6].
    eapply kept_not_chunk_positive; [|exact Hq].
    eapply kept_trans; [exact Hk|]. eapply kept_trans; [exact Hk0|].
    eapply kept_trans; [by eapply keeps_prolog|].
    eapply kept_trans; [by eapply keeps_do_write|].
    by eapply keeps_prolog.
Qed.

End Stuck.

(** ** What the operations return *)

Section Returned.
Context {F : Type} {api : FtdiApi F} {patience : Patience}.

Lemma chunk_run_buffers (chunk_size count : Z) (chunks res : list (list Z))
    (t : list event) :
  chunk_run chunk_size count chunks (Ok res) t ->
  res = chunks ++ read_buffers t
  /\ length (read_buffers t) = length (sizes_requested t).
Proof.
  remember (Ok res) as r eqn:Er. intros Hrun. revert res Er.
  induction Hrun as [chunks| | |count chunks buf r t Hpos Hrun IH];
    intros res Er; try discriminate.
  - injection Er as ->. by rewrite app_nil_r.
  - destruct (IH res Er) as [-> Hlen]. cbn.
    rewrite <- app_assoc. split; [done|]. by rewrite Hlen.
Qed.

(** X3: the bytes [_do_read] returns are the replies of the engine to
    its reads, one reply per chunk, joined in the order received; their
    lengths are not compared with the sizes asked for, so that a reply
    shorter than its chunk is returned as it is. *)
Theorem do_read_returns_replies (readlen : Z) (c c' : I2cController F)
    (data : list Z) :
  is_Some (_ftdi c) -> chunk_positive c -> 0 <= readlen ->
  _do_read readlen c = (Ok data, c') ->
  exists t,
    io_log c' = io_log c ++ t
    /\ data = concat (read_buffers t)
    /\ length (read_buffers t) = length (sizes_requested t)
    /\ fold_right Z.add 0 (sizes_requested t) = readlen.
Proof.
  intros Hc Hchunk Hlen Hrun. unfold _do_read, bind in Hrun.
  destruct (_do_read_loop _ _ _ _ _ _ c) as [rl cl] eqn:El.
  destruct (emits_chunks _ (Z.to_nat readlen + iterations) Hchunk readlen
              None []
              Hlen ltac:(lia) _ _ _ Hc El) as (_ & t & Ht & Hr).
  destruct rl as [chunks|e|]; try discriminate.
  inversion Hrun; subst.
  destruct (chunk_run_buffers _ _ _ _ _ Hr) as [-> Hl].
  destruct (chunk_run_total _ _ _ _ _ Hr) as (Hsum & _).
  exists t. by repeat split.
Qed.

(** X14: when [poll] returns, the engine was handed the prolog of the
    read address and the stop sequence, once each, and the value
    returned is [True] exactly when bit 0 of the sampled acknowledge
    byte is clear: a reply was there, and nothing else decides. *)
Theorem poll_reports_ack (address : Z) (c c' : I2cController F) (b : bool) :
  poll address c = (Ok b, c') ->
  exists x tl buf,
    io_log c'
    = io_log c
        ++ [EvWrite (Some (prolog_cmd
                             (Z.lor (Z.land (Z.shiftl address 1) HIGH)
                                    BIT0))) None;
            EvRead 1 4 (inr (x :: tl));
            EvWrite (Some _stop) None; EvRead 1 1 (inr buf)]
    /\ b = (Z.land x BIT0 =? 0).
Proof.
  intros Hrun. unfold poll in Hrun.
  destruct (_ftdi c) as [f|] eqn:Hf.
  2:{ by rewrite guard_unconfigured in Hrun. }
  destruct (Z.ltb_spec HIGHEST_I2C_ADDRESS address) as [Ha|Ha].
  { by rewrite (guard_address _ _ f) in Hrun. }
  rewrite (guard_passed _ _ f) in Hrun by done.
  assert (Hc : is_Some (_ftdi c)) by (rewrite Hf; eauto).
  unfold try_finally in Hrun.
  destruct (_do_prolog _ c) as [rp c1] eqn:Ep.
  destruct (emits_prolog _ _ _ _ Hc Ep) as (Hc1 & tb & Htb & Hp).
  destruct (_do_epilog c1) as [re c2] eqn:Ee.
  destruct (emits_epilog _ _ _ Hc1 Ee) as (Hc2 & te & Hte & He).
  assert (Hre : re = Ok tt /\ c' = c2
                /\ (rp = Ok tt /\ b = true
                    \/ exists msg, rp = Raise (I2cNackError msg)
                                   /\ b = false)).
  { destruct rp as [[]|[msg|msg|e]|]; cbv beta iota in Hrun;
      rewrite ?Ee in Hrun; destruct re as [[]|e'|];
      inversion Hrun; subst; eauto 10. }
  destruct Hre as (-> & -> & Hb).
  inversion He as [| |buf Hbuf]; subst.
  inversion Hp as [e|e|ack]; subst;
    try (destruct Hb as [[? _]|(? & ? & _)]; discriminate).
  destruct ack as [|x tl].
  { cbn in Hb. destruct Hb as [[? _]|(? & ? & _)]; discriminate. }
  exists x, tl, buf. split.
  - rewrite Hte, Htb, <- app_assoc. reflexivity.
  - cbn in Hb. destruct (Z.land x BIT0 =? 0);
      destruct Hb as [[? ->]|(? & ? & ->)]; done.
Qed.

End Returned.

(** ** A controller that was closed *)

Section Closing.
Context {F : Type} {api : FtdiApi F} {patience : Patience}.

Lemma requested_frequency_delete (kwargs : gmap string pyval) :
  requested_frequency (delete "initial" (delete "direction" kwargs))
  = requested_frequency kwargs.
Proof.
  unfold requested_frequency. by rewrite !lookup_delete_ne.
Qed.

Lemma requested_frequency_ends (kwargs : gmap string pyval) :
  requested_frequency kwargs <> Diverge.
Proof.
  unfold requested_frequency, float_mul, float_of_int.
  destruct (kwargs !! "frequency") as [[|b|n|x|s]|]; try done.
  by destruct (is_infinity _).
Qed.

Lemma perform_unconfigured (op : call) (c : I2cController F) :
  _ftdi c = None ->
  perform op c = (Raise (I2cIOError "FTDI controller not initialized"), c).
Proof.
  intros Hf. destruct op; unfold perform, read, write, exchange, poll;
    unfold bind at 1; by rewrite guard_unconfigured.
Qed.

Lemma port_self_found (c : I2cController F) (p : nat) (port : I2cPort)
    {A : Type} (k : I2cPort -> @M F A) :
  ports c !! p = Some port -> bind (port_self p) k c = k port c.
Proof. intros Hp. unfold bind, port_self. by rewrite Hp. Qed.

(** X6: [terminate] always returns; it drops the [Ftdi] object and
    keeps the ports, their table and the record of calls; a second
    [terminate] does nothing.  From then on [read], [write], [exchange],
    [poll] and [get_port], and the operations of the ports handed out
    before, raise [I2cIOError] "FTDI controller not initialized" and
    change nothing, whereas [flush] and [configure] fail on the
    missing object: [configure] always raises and changes nothing,
    with [AttributeError] unless the frequency given is no number, so
    that a closed controller cannot be configured again. *)
Theorem terminate_closes (c : I2cController F) :
  exists c',
    terminate c = (Ok tt, c')
    /\ _ftdi c' = None
    /\ _slaves c' = _slaves c /\ ports c' = ports c
    /\ io_log c' = io_log c
    /\ terminate c' = (Ok tt, c')
    /\ (forall op,
           perform op c'
           = (Raise (I2cIOError "FTDI controller not initialized"), c'))
    /\ (forall a,
           get_port a c'
           = (Raise (I2cIOError "FTDI controller not initialized"), c'))
    /\ (forall p port out readlen,
           ports c !! p = Some port ->
           port_write p out c'
           = (Raise (I2cIOError "FTDI controller not initialized"), c')
           /\ port_read p readlen c'
              = (Raise (I2cIOError "FTDI controller not initialized"), c')
           /\ port_exchange p out readlen c'
              = (Raise (I2cIOError "FTDI controller not initialized"), c')
           /\ port_poll p c'
              = (Raise (I2cIOError "FTDI controller not initialized"), c')
           /\ port_flush p c'
              = (Raise (Foreign (BuiltinError "AttributeError")), c'))
    /\ flush c' = (Raise (Foreign (BuiltinError "AttributeError")), c')
    /\ (forall url kwargs,
           exists e,
             configure url kwargs c' = (Raise e, c')
             /\ (forall x, requested_frequency kwargs = Ok x ->
                           e = Foreign (BuiltinError "AttributeError"))).
Proof.
  assert (Hclosed : forall c' : I2cController F,
             _ftdi c' = None -> ports c' = ports c ->
             terminate c' = (Ok tt, c')
             /\ (forall op,
                    perform op c'
                    = (Raise (I2cIOError "FTDI controller not initialized"),
                       c'))
             /\ (forall a,
                    get_port a c'
                    = (Raise (I2cIOError "FTDI controller not initialized"),
                       c'))
             /\ (forall p port out readlen,
                    ports c !! p = Some port ->
                    port_write p out c'
                    = (Raise (I2cIOError "FTDI controller not initialized"),
                       c')
                    /\ port_read p readlen c'
                       = (Raise (I2cIOError "FTDI controller not initialized"),
                          c')
                    /\ port_exchange p out readlen c'
                       = (Raise (I2cIOError "FTDI controller not initialized"),
                          c')
                    /\ port_poll p c'
                       = (Raise (I2cIOError "FTDI controller not initialized"),
                          c')
                    /\ port_flush p c'
                       = (Raise (Foreign (BuiltinError "AttributeError")),
                          c'))
             /\ flush c'
                = (Raise (Foreign (BuiltinError "AttributeError")), c')
             /\ (forall url kwargs,
                    exists e,
                      configure url kwargs c' = (Raise e, c')
                      /\ (forall x, requested_frequency kwargs = Ok x ->
                                    e = Foreign
                                          (BuiltinError "AttributeError")))).
  { intros c' Hf Hports.
    assert (Hflush : flush c'
                     = (Raise (Foreign (BuiltinError "AttributeError")), c')).
    { unfold flush, bind, ftdi_write_data. by rewrite Hf. }
    split; [unfold terminate; by rewrite Hf|].
    split; [intros op; by apply perform_unconfigured|].
    split; [intros a; unfold get_port; by apply guard_unconfigured|].
    split; [|split; [done|]].
    - intros p port out readlen Hp. rewrite <- Hports in Hp.
      unfold port_write, port_read, port_exchange, port_poll, port_flush.
      rewrite !(port_self_found c' p port) by done.
      unfold write, read, exchange, poll.
      by rewrite !guard_unconfigured.
    - intros url kwargs. unfold configure.
      rewrite requested_frequency_delete.
      pose proof (requested_frequency_ends kwargs) as Hnd.
      destruct (requested_frequency kwargs) as [x|e|]; [|by exists e|done].
      rewrite Hf. eexists. split; [reflexivity|done]. }
  destruct (_ftdi c) as [f|] eqn:Hf.
  - exists (mkController None (_slaves c) (ports c) (_frequency c)
                         (_tx_size c) (_rx_size c) (io_log c)).
    split; [unfold terminate; by rewrite Hf|].
    do 4 (split; [reflexivity|]). by apply Hclosed.
  - exists c. split; [unfold terminate; by rewrite Hf|].
    do 4 (split; [done|]). by apply Hclosed.
Qed.

End Closing.

(** ** Configuration *)

Section Configuring.
Context {F : Type} {api : FtdiApi F} {patience : Patience}.

Lemma lift_engine_run (step : F -> F * option foreign_exn)
    (c c' : I2cController F) (f : F) (r : outcome unit) :
  _ftdi c = Some f -> lift_engine step c = (r, c') ->
  c' = set_ftdi c (Some (fst (step f))) []
  /\ r = match snd (step f) with
         | None => Ok tt
         | Some e => Raise (Foreign e)
         end.
Proof.
  intros Hf Hrun. unfold lift_engine in Hrun. rewrite Hf in Hrun.
  destruct (step f) as [f' [e|]]; by inversion Hrun.
Qed.

(** X7: [configure] on a controller that has its [Ftdi] object keeps
    the ports, their table and the record of calls.  The frequency
    handed to the bridge is [(3.0*frequency)/2.0] in binary64
    arithmetic, 150000.0 when none is given; a frequency that is no
    number is a [TypeError] and an integer beyond the doubles an
    [OverflowError], raised before the bridge is touched.  The bridge
    is opened with the direction SCL|SDA_O, the initial value IDLE,
    that frequency and the keyword arguments left once [direction],
    [initial] and [frequency] are taken out.  When the opening fails
    its exception is raised and the frequency and the FIFO sizes are
    as before; when it succeeds the frequency is the one the bridge
    returned and the FIFO sizes are those it reports, also when a
    later step raises.  If the two clock settings succeed, an
    [FtdiFeatureError] of the drive-zero mode is dropped unless
    [notristate] was given and is false as a boolean; any other
    exception of that call is raised. *)
Theorem configure_outcome (url : string) (kwargs : gmap string pyval)
    (c c' : I2cController F) (f : F) (r : outcome unit) :
  _ftdi c = Some f ->
  configure url kwargs c = (r, c') ->
  _slaves c' = _slaves c /\ ports c' = ports c /\ io_log c' = io_log c
  /\ is_Some (_ftdi c')
  /\ (kwargs !! "frequency" = None ->
      requested_frequency kwargs = Ok 150000%float)
  /\ (forall x, kwargs !! "frequency" = Some (PyFloat x) ->
                requested_frequency kwargs
                = Ok (PrimFloat.div (PrimFloat.mul 3 x) 2))
  /\ match requested_frequency kwargs with
     | Diverge => False
     | Raise e => r = Raise e /\ c' = c
     | Ok frequency =>
         exists f1 res,
           open_mpsse_from_url url (Z.lor SCL_BIT SDA_O_BIT) IDLE frequency
             (delete "frequency"
                (delete "initial" (delete "direction" kwargs))) f
           = (f1, res)
           /\ match res with
              | inl e =>
                  r = Raise (Foreign e) /\ _frequency c' = _frequency c
                  /\ _tx_size c' = _tx_size c /\ _rx_size c' = _rx_size c
              | inr actual =>
                  _frequency c' = actual
                  /\ (_tx_size c', _rx_size c') = fifo_sizes f1
                  /\ forall f2 f3 f4 res',
                      enable_adaptive_clock false f1 = (f2, None) ->
                      enable_3phase_clock true f2 = (f3, None) ->
                      enable_drivezero_mode
                        (Z.lor (Z.lor SCL_BIT SDA_O_BIT) SDA_I_BIT) f3
                      = (f4, res') ->
                      _ftdi c' = Some f4
                      /\ r = match res' with
                             | None => Ok tt
                             | Some (FtdiFeatureError msg) =>
                                 if truthy (default (PyBool true)
                                              (kwargs !! "notristate"))
                                 then Ok tt
                                 else Raise (Foreign (FtdiFeatureError msg))
                             | Some e => Raise (Foreign e)
                             end
              end
     end.
Proof.
  intros Hf Hrun.
  assert (Hdef : kwargs !! "frequency" = None ->
                 requested_frequency kwargs = Ok 150000%float).
  { intros H. unfold requested_frequency. by rewrite H. }
  assert (Hflt : forall x, kwargs !! "frequency" = Some (PyFloat x) ->
                           requested_frequency kwargs
                           = Ok (PrimFloat.div (PrimFloat.mul 3 x) 2)).
  { intros x H. unfold requested_frequency. by rewrite H. }
  unfold configure in Hrun. rewrite requested_frequency_delete in Hrun.
  rewrite !lookup_delete_ne in Hrun by done.
  pose proof (requested_frequency_ends kwargs) as Hnd.
  destruct (requested_frequency kwargs) as [frequency|e0|]; [| |done].
  2:{ inversion Hrun; subst. do 3 (split; [done|]).
      split; [rewrite Hf; eauto|]. by repeat split. }
  rewrite Hf in Hrun.
  change _direction with (Z.lor SCL_BIT SDA_O_BIT) in Hrun.
  destruct (open_mpsse_from_url _ _ _ _ _ f) as [f1 [e|actual]] eqn:Eo.
  { inversion Hrun; subst. cbn. rewrite app_nil_r.
    do 3 (split; [done|]). split; [eauto|]. split; [done|]. split; [done|].
    exists f1, (inl e). by repeat split. }
  destruct (fifo_sizes f1) as [tx rx] eqn:Es.
  set (c1 := mkController (Some f1) (_slaves c) (ports c) actual tx rx
                          (io_log c)) in Hrun.
  unfold bind at 1 in Hrun.
  destruct (lift_engine (enable_adaptive_clock false) c1) as [r1 c2] eqn:E1.
  destruct (lift_engine_run _ c1 _ f1 _ eq_refl E1) as [-> ->].
  destruct (enable_adaptive_clock false f1) as [f2 res2] eqn:Ea.
  cbn [fst snd] in Hrun.
  assert (Hfr : forall (g : F) (d : I2cController F),
             d = set_ftdi c1 (Some g) [] \/
             (exists g1, d = set_ftdi (set_ftdi c1 (Some g1) []) (Some g) [])
             \/ (exists g1 g2,
                    d = set_ftdi (set_ftdi (set_ftdi c1 (Some g1) [])
                                           (Some g2) []) (Some g) []) ->
             _slaves d = _slaves c /\ ports d = ports c
             /\ io_log d = io_log c /\ is_Some (_ftdi d)
             /\ _frequency d = actual
             /\ (_tx_size d, _rx_size d) = (tx, rx)
             /\ _ftdi d = Some g).
  { intros g d [->|[(g1 & ->)|(g1 & g2 & ->)]]; cbn;
      rewrite ?app_nil_r; repeat split; eauto. }
  destruct res2 as [e2|].
  { inversion Hrun; subst.
    destruct (Hfr f2 _ (or_introl eq_refl)) as (A1 & A2 & A3 & A4 & A5 & A6 & _).
    do 4 (split; [done|]). split; [done|]. split; [done|].
    exists f1, (inr actual).
    split; [done|]. split; [done|]. split; [done|].
    intros f2' f3' f4' res' H1. congruence. }
  unfold bind at 1 in Hrun.
  destruct (lift_engine (enable_3phase_clock true)
                        (set_ftdi c1 (Some f2) [])) as [r2 c3] eqn:E2.
  destruct (lift_engine_run _ (set_ftdi c1 (Some f2) []) _ f2 _ eq_refl E2)
    as [-> ->].
  destruct (enable_3phase_clock true f2) as [f3 res3] eqn:Eb.
  cbn [fst snd] in Hrun.
  destruct res3 as [e3|].
  { inversion Hrun; subst.
    destruct (Hfr f3 _ (or_intror (or_introl (ex_intro _ f2 eq_refl))))
      as (A1 & A2 & A3 & A4 & A5 & A6 & _).
    do 4 (split; [done|]). split; [done|]. split; [done|].
    exists f1, (inr actual).
    split; [done|]. split; [done|]. split; [done|].
    intros f2' f3' f4' res' H1 H2.
    assert (f2' = f2) as -> by congruence. congruence. }
  destruct (lift_engine _ (set_ftdi (set_ftdi c1 (Some f2) []) (Some f3) []))
    as [r3 c4] eqn:E3.
  destruct (lift_engine_run _ (set_ftdi (set_ftdi c1 (Some f2) [])
                                         (Some f3) []) _ f3 _ eq_refl E3)
    as [-> ->].
  destruct (enable_drivezero_mode _ f3) as [f4 res4] eqn:Ec.
  cbn [fst snd] in Hrun.
  assert (Hc' : c' = set_ftdi (set_ftdi (set_ftdi c1 (Some f2) [])
                                        (Some f3) []) (Some f4) []
                /\ r = match res4 with
                       | None => Ok tt
                       | Some (FtdiFeatureError msg) =>
                           if truthy (default (PyBool true)
                                        (kwargs !! "notristate"))
                           then Ok tt
                           else Raise (Foreign (FtdiFeatureError msg))
                       | Some e => Raise (Foreign e)
                       end).
  { destruct res4 as [[msg|msg|name]|]; try (by inversion Hrun).
    destruct (truthy _); by inversion Hrun. }
  destruct Hc' as [-> ->].
  destruct (Hfr f4 _ (or_intror (or_intror
                        (ex_intro _ f2 (ex_intro _ f3 eq_refl)))))
    as (A1 & A2 & A3 & A4 & A5 & A6 & A7).
  do 4 (split; [done|]). split; [done|]. split; [done|].
  exists f1, (inr actual).
  split; [done|]. split; [done|]. split; [done|].
  intros f2' f3' f4' res' H1 H2 H3.
  assert (f2' = f2) as -> by congruence.
  assert (f3' = f3) as -> by congruence.
  assert (f4' = f4 /\ res' = res4) as [-> ->] by (split; congruence).
  done.
Qed.

End Configuring.

(** ** The register prefix of [read_from] and [write_to] *)

Section Registers.
Context {F : Type} {api : FtdiApi F} {patience : Patience}.

Lemma le_bytes_length (n : nat) (v : Z) : length (le_bytes n v) = n.
Proof. revert v. induction n as [|n IH]; intros v; cbn; by rewrite ?IH. Qed.

Lemma land_byte (v : Z) : Z.land v 0xff = v mod 256.
Proof. change 0xff with (Z.ones 8). by rewrite Z.land_ones. Qed.

Lemma le_bytes_range (n : nat) (v : Z) :
  Forall (fun b => 0 <= b < 256) (le_bytes n v).
Proof.
  revert v. induction n as [|n IH]; intros v; cbn [le_bytes];
    constructor; [|apply IH].
  rewrite land_byte. by apply Z.mod_pos_bound.
Qed.

Lemma le_value_le_bytes (n : nat) (v : Z) :
  le_value (le_bytes n v) = v mod 256 ^ Z.of_nat n.
Proof.
  revert v. induction n as [|n IH]; intros v.
  - cbn. by rewrite Z.mod_1_r.
  - cbn [le_bytes le_value]. rewrite IH, land_byte, Z.shiftr_div_pow2 by lia.
    rewrite Nat2Z.inj_succ, Z.pow_succ_r by lia.
    change (2 ^ 8) with 256.
    rewrite (Z.rem_mul_r v 256 (256 ^ Z.of_nat n)) by lia. done.
Qed.

Lemma FORMATS_lookup_1 : FORMATS !! 1 = Some "B".
Proof.
  unfold FORMATS. cbn [fold_left].
  change (scalc "B") with 1. change (scalc "H") with 2.
  change (scalc "I") with 4.
  rewrite !lookup_insert_ne by done. apply lookup_insert_eq.
Qed.

Lemma FORMATS_lookup_4 : FORMATS !! 4 = Some "I".
Proof.
  unfold FORMATS. cbn [fold_left].
  change (scalc "B") with 1. change (scalc "H") with 2.
  change (scalc "I") with 4.
  apply lookup_insert_eq.
Qed.

(** The formats of [FORMATS] are keyed by their size. *)
Lemma FORMATS_lookup_Some (width : Z) (fmt : string) :
  FORMATS !! width = Some fmt ->
  width = 1 /\ fmt = "B" \/ width = 2 /\ fmt = "H"
  \/ width = 4 /\ fmt = "I".
Proof.
  intros H.
  destruct (decide (width = 1)) as [->|H1].
  { rewrite FORMATS_lookup_1 in H. left. split; congruence. }
  destruct (decide (width = 2)) as [->|H2].
  { rewrite FORMATS_lookup_2 in H. right; left. split; congruence. }
  destruct (decide (width = 4)) as [->|H4].
  { rewrite FORMATS_lookup_4 in H. right; right. split; congruence. }
  by rewrite FORMATS_lookup_other in H.
Qed.

Lemma spack_formats (bigendian : bool) (fmt : string) (width v : Z) :
  FORMATS !! width = Some fmt ->
  spack ((if bigendian then ">" else "<") ++ fmt)%string v
  = if (v <? 0) || (256 ^ width <=? v)
    then Raise (Foreign (BuiltinError "struct.error"))
    else Ok (if bigendian then rev (le_bytes (Z.to_nat width) v)
             else le_bytes (Z.to_nat width) v).
Proof.
  intros H.
  destruct (FORMATS_lookup_Some _ _ H) as [[-> ->]|[[-> ->]|[-> ->]]];
    destruct bigendian; reflexivity.
Qed.

Lemma make_buffer_run (c : I2cController F) (p : nat) (port : I2cPort)
    (regaddr : Z) (out : option (list Z)) :
  ports c !! p = Some port ->
  _make_buffer p regaddr out c
  = match spack (_endian port ++ _format port)%string regaddr with
    | Ok data => (Ok (data ++ default [] out), c)
    | Raise e => (Raise e, c)
    | Diverge => (Diverge, c)
    end.
Proof.
  intros Hp. unfold _make_buffer. rewrite (port_self_found c p port) by done.
  destruct (spack _ regaddr) as [data|e|]; try done.
  destruct out as [[|b bs]|]; cbn; by rewrite ?app_nil_r.
Qed.

Lemma configure_register_run (c c1 : I2cController F) (p : nat)
    (port : I2cPort) (bigendian : bool) (width : Z) :
  ports c !! p = Some port ->
  configure_register p bigendian width c = (Ok tt, c1) ->
  exists fmt,
    FORMATS !! width = Some fmt
    /\ c1 = mkController (_ftdi c) (_slaves c)
              (<[p := mkPort (_address port) (_shift port)
                             (if bigendian then ">" else "<") fmt]>
                 (ports c))
              (_frequency c) (_tx_size c) (_rx_size c) (io_log c).
Proof.
  intros Hp Hrun. unfold configure_register in Hrun.
  rewrite (port_self_found c p port) in Hrun by done.
  destruct (FORMATS !! width) as [fmt|]; [|done].
  exists fmt. split; [done|]. by inversion Hrun.
Qed.

(** X9: after [configure_register(bigendian, width)] has returned the
    width is 1, 2 or 4, and the prefix [_make_buffer] puts before the
    payload is the register address on exactly [width] bytes in the
    byte order chosen: [write_to] is [write] and [read_from] is
    [exchange] with that prefix, at the shifted address of the port,
    also when the payload of [write_to] is empty.  A register address
    below zero or not below [256 ^ width] makes both raise
    [struct.error] before anything is sent. *)
Theorem register_prefix_round_trip (c c1 : I2cController F) (p : nat)
    (port : I2cPort) (bigendian : bool) (width regaddr : Z) :
  ports c !! p = Some port ->
  configure_register p bigendian width c = (Ok tt, c1) ->
  (width = 1 \/ width = 2 \/ width = 4)
  /\ (regaddr < 0 \/ 256 ^ width <= regaddr ->
      forall out readlen,
        write_to p regaddr out c1
        = (Raise (Foreign (BuiltinError "struct.error")), c1)
        /\ read_from p regaddr readlen c1
           = (Raise (Foreign (BuiltinError "struct.error")), c1))
  /\ (0 <= regaddr < 256 ^ width ->
      exists prefix,
        Z.of_nat (length prefix) = width
        /\ Forall (fun b => 0 <= b < 256) prefix
        /\ register_of (if bigendian then ">" else "<") prefix = regaddr
        /\ (forall out,
               write_to p regaddr out c1
               = write (_address port + _shift port) (prefix ++ out) c1)
        /\ (forall readlen,
               read_from p regaddr readlen c1
               = exchange (_address port + _shift port) prefix readlen c1)).
Proof.
  intros Hp Hrun.
  destruct (configure_register_run _ _ _ _ _ _ Hp Hrun) as (fmt & Hfmt & Hc1).
  set (port1 := mkPort (_address port) (_shift port)
                       (if bigendian then ">" else "<") fmt) in Hc1.
  assert (Hp1 : ports c1 !! p = Some port1).
  { rewrite Hc1. cbn. apply list_lookup_insert_eq. by eapply lookup_lt_Some. }
  assert (Hw : width = 1 \/ width = 2 \/ width = 4).
  { destruct (FORMATS_lookup_Some _ _ Hfmt) as [[-> _]|[[-> _]|[-> _]]];
      auto. }
  assert (Hmk : forall out,
             _make_buffer p regaddr out c1
             = if (regaddr <? 0) || (256 ^ width <=? regaddr)
               then (Raise (Foreign (BuiltinError "struct.error")), c1)
               else (Ok ((if bigendian
                          then rev (le_bytes (Z.to_nat width) regaddr)
                          else le_bytes (Z.to_nat width) regaddr)
                         ++ default [] out), c1)).
  { intros out. rewrite (make_buffer_run c1 p port1) by done.
    unfold port1. cbn [_endian _format].
    rewrite (spack_formats bigendian fmt width) by done.
    by destruct (_ || _). }
  split; [done|]. split.
  - intros Hbad out readlen.
    assert (Hb : (regaddr <? 0) || (256 ^ width <=? regaddr) = true).
    { apply orb_true_iff. destruct Hbad; [left|right]; lia. }
    unfold write_to, read_from.
    rewrite !(port_self_found c1 p port1) by done.
    unfold bind. by rewrite !Hmk, Hb.
  - intros Hgood.
    assert (Hb : (regaddr <? 0) || (256 ^ width <=? regaddr) = false).
    { apply orb_false_iff. lia. }
    exists (if bigendian then rev (le_bytes (Z.to_nat width) regaddr)
            else le_bytes (Z.to_nat width) regaddr).
    split; [|split; [|split; [|split]]].
    + destruct bigendian; rewrite ?length_rev, le_bytes_length; lia.
    + destruct bigendian; [apply Forall_rev|]; apply le_bytes_range.
    + unfold register_of. destruct bigendian; cbn [String.eqb Ascii.eqb];
        rewrite ?rev_involutive, le_value_le_bytes, Z2Nat.id by lia;
        by apply Z.mod_small.
    + intros out. unfold write_to.
      rewrite (port_self_found c1 p port1) by done.
      unfold bind. by rewrite Hmk, Hb.
    + intros readlen. unfold read_from.
      rewrite (port_self_found c1 p port1) by done.
      unfold bind. rewrite Hmk, Hb. cbn [default]. by rewrite app_nil_r.
Qed.

End Registers.

(** ** The shifted address of a port *)

Section Shifting.
Context {F : Type} {api : FtdiApi F} {patience : Patience}.

(** X10: [shift_address] tests the sum of the address the port was
    built for and the offset.  Above 0x7f it raises and changes
    nothing.  Otherwise only the shift of that port changes, and the
    offset replaces the one set before: a second [shift_address] is
    tested against the same address and, when it passes, leaves what
    it would have left without the first.  From then on [read],
    [write], [exchange] and [poll] of the port are those of the
    controller at the address plus the offset. *)
Theorem shift_address_replaces (c : I2cController F) (p : nat)
    (port : I2cPort) (offset : Z) :
  ports c !! p = Some port ->
  (HIGHEST_I2C_ADDRESS < _address port + offset ->
   shift_address p offset c = (Raise (I2cIOError "No such I2c slave"), c))
  /\ (_address port + offset <= HIGHEST_I2C_ADDRESS ->
      exists c1,
        shift_address p offset c = (Ok tt, c1)
        /\ _slaves c1 = _slaves c /\ _ftdi c1 = _ftdi c
        /\ io_log c1 = io_log c
        /\ length (ports c1) = length (ports c)
        /\ (forall q, q <> p -> ports c1 !! q = ports c !! q)
        /\ (forall offset',
               if HIGHEST_I2C_ADDRESS <? _address port + offset'
               then shift_address p offset' c1
                    = (Raise (I2cIOError "No such I2c slave"), c1)
               else shift_address p offset' c1 = shift_address p offset' c)
        /\ (forall readlen,
               port_read p readlen c1
               = read (_address port + offset) readlen c1)
        /\ (forall out,
               port_write p out c1 = write (_address port + offset) out c1)
        /\ (forall out readlen,
               port_exchange p out readlen c1
               = exchange (_address port + offset) out readlen c1)
        /\ port_poll p c1 = poll (_address port + offset) c1).
Proof.
  intros Hp. split.
  - intros Ha. unfold shift_address.
    rewrite (port_self_found c p port) by done.
    unfold bind. by rewrite validate_address_too_high.
  - intros Ha.
    set (port1 := mkPort (_address port) offset (_endian port)
                         (_format port)).
    exists (mkController (_ftdi c) (_slaves c) (<[p := port1]> (ports c))
                         (_frequency c) (_tx_size c) (_rx_size c)
                         (io_log c)).
    set (c1 := mkController _ _ _ _ _ _ _).
    assert (Hp1 : ports c1 !! p = Some port1).
    { cbn. apply list_lookup_insert_eq. by eapply lookup_lt_Some. }
    split.
    { unfold shift_address. rewrite (port_self_found c p port) by done.
      unfold bind. by rewrite validate_address_ok. }
    do 3 (split; [done|]).
    split; [cbn; by rewrite length_insert|].
    split; [intros q Hq; cbn; by rewrite list_lookup_insert_ne|].
    split.
    { intros offset'. unfold shift_address.
      rewrite (port_self_found c p port), (port_self_found c1 p port1)
        by done.
      unfold bind, port1, validate_address. cbn [_address _endian _format].
      destruct (_ <? _); [done|]. cbn [ret].
      unfold port_assign, c1. cbn. by rewrite list_insert_insert_eq. }
    unfold port_read, port_write, port_exchange, port_poll.
    repeat split; intros; by rewrite (port_self_found c1 p port1).
Qed.

End Shifting.

(** ** The address byte *)

Section AddressByte.
Context {F : Type} {api : FtdiApi F} {patience : Patience}.

Lemma lor_even_1 (k : Z) : 0 <= k -> Z.lor (2 * k) 1 = 2 * k + 1.
Proof. intros Hk. destruct k as [|q|q]; [done|done|lia]. Qed.

Lemma shifted_byte (a : Z) : Z.land (Z.shiftl a 1) HIGH = 2 * (a mod 128).
Proof.
  unfold HIGH. rewrite land_byte, Z.shiftl_mul_pow2 by lia.
  change (2 ^ 1) with 2. change 256 with (2 * 128).
  rewrite (Z.mul_comm a 2). by rewrite Z.mul_mod_distr_l.
Qed.

(** X11: the address byte of a request is twice the address modulo 128,
    plus one for [read] and [poll]: it is always a byte, so that
    appending it to the command buffer cannot overflow, its upper seven
    bits give back every address from 0 to 0x7f, and an address below
    zero is taken for the address 128 above it. *)
Theorem address_byte_wraps (op : call) :
  first_i2caddress op
  = 2 * (call_address op mod 128)
    + match op with
      | CallRead _ _ | CallPoll _ => 1
      | CallWrite _ _ | CallExchange _ _ _ => 0
      end
  /\ 0 <= first_i2caddress op <= 255
  /\ Z.shiftr (first_i2caddress op) 1 = call_address op mod 128
  /\ (0 <= call_address op <= HIGHEST_I2C_ADDRESS ->
      Z.shiftr (first_i2caddress op) 1 = call_address op)
  /\ (-128 <= call_address op < 0 ->
      Z.shiftr (first_i2caddress op) 1 = call_address op + 128).
Proof.
  pose proof (Z.mod_pos_bound (call_address op) 128 ltac:(lia)) as Hm.
  assert (H : first_i2caddress op
              = 2 * (call_address op mod 128)
                + match op with
                  | CallRead _ _ | CallPoll _ => 1
                  | CallWrite _ _ | CallExchange _ _ _ => 0
                  end).
  { destruct op; cbn [first_i2caddress call_address] in *;
      rewrite shifted_byte; unfold BIT0; rewrite ?lor_even_1; lia. }
  assert (Hs : Z.shiftr (first_i2caddress op) 1 = call_address op mod 128).
  { rewrite H, Z.shiftr_div_pow2 by lia. change (2 ^ 1) with 2.
    generalize dependent (call_address op mod 128). intros k _ _.
    destruct op; [symmetry; apply Z.div_unique with 1; lia
                 |rewrite Z.add_0_r, (Z.mul_comm 2 k); by apply Z.div_mul
                 |rewrite Z.add_0_r, (Z.mul_comm 2 k); by apply Z.div_mul
                 |symmetry; apply Z.div_unique with 1; lia]. }
  split; [done|]. split; [destruct op; lia|]. split; [done|]. split.
  - intros Ha. rewrite Hs. apply Z.mod_small. unfold HIGHEST_I2C_ADDRESS in Ha.
    lia.
  - intros Ha. rewrite Hs.
    rewrite <- (Z.mod_small (call_address op + 128) 128) by lia.
    replace (call_address op + 128) with (call_address op + 1 * 128) by lia.
    by rewrite Z.mod_add.
Qed.

End AddressByte.

(** ** The table of ports in the states a program can reach *)

Section Reached.
Context {F : Type} {api : FtdiApi F} {patience : Patience}.

Lemma consistent_init : consistent (F := F) I2cController__init__.
Proof.
  split; [|split].
  - intros a p H. cbn in H. by rewrite lookup_empty in H.
  - constructor.
  - intros p port H. by cbn in H.
Qed.

Lemma consistent_same (c c' : I2cController F) :
  _slaves c' = _slaves c -> ports c' = ports c ->
  consistent c -> consistent c'.
Proof.
  intros Hs Hp (H1 & H2 & H3). unfold consistent, cache_ok, ports_ok,
    ports_cached. by rewrite Hs, Hp.
Qed.

Lemma consistent_keeps {A : Type} (m : @M F A) (c : I2cController F) :
  keeps m -> consistent c -> consistent (snd (m c)).
Proof.
  intros Hm. destruct (Hm c (fst (m c)) (snd (m c))) as (Hs & Hp & _).
  { by destruct (m c). }
  by apply consistent_same.
Qed.

Lemma consistent_get_port (address : Z) (c : I2cController F) :
  consistent c -> consistent (snd (get_port address c)).
Proof.
  intros Hc. unfold get_port.
  destruct (_ftdi c) as [f|] eqn:Hf.
  2:{ by rewrite guard_unconfigured. }
  destruct (Z.ltb_spec HIGHEST_I2C_ADDRESS address) as [Ha|Ha].
  { by rewrite (guard_address _ _ f). }
  rewrite (guard_passed _ _ f) by done.
  destruct (_slaves c !! address) as [q|] eqn:Eq; [done|].
  destruct Hc as (H1 & H2 & H3). cbn [snd]. split; [|split].
  - intros a p Hl. cbn in Hl |- *.
    destruct (decide (a = address)) as [->|Hne].
    + rewrite lookup_insert_eq in Hl. injection Hl as <-.
      split; [done|]. exists (mkPort address 0 "<" "B").
      split; [|reflexivity].
      by rewrite lookup_app_r, Nat.sub_diag.
    + rewrite lookup_insert_ne in Hl by done.
      destruct (H1 a p Hl) as (Hle & port & Hport & Haddr).
      split; [done|]. exists port. split; [|done].
      by rewrite lookup_app_l by (by eapply lookup_lt_Some).
  - unfold ports_ok. cbn. apply Forall_app. split; [done|].
    repeat constructor; cbn; unfold HIGHEST_I2C_ADDRESS in *; lia.
  - intros p port Hl. cbn in Hl |- *.
    apply lookup_app_Some in Hl as [Hl|[Hlen Hl]].
    + pose proof (H3 p port Hl) as Hs.
      rewrite lookup_insert_ne; [done|]. congruence.
    + destruct (p - length (ports c))%nat as [|n] eqn:En; [|done].
      injection Hl as <-. cbn.
      rewrite lookup_insert_eq. f_equal. lia.
Qed.

Lemma consistent_port_assign (c : I2cController F) (p : nat)
    (port port' : I2cPort) :
  ports c !! p = Some port -> _address port' = _address port ->
  port_ok port' -> consistent c ->
  consistent (snd (port_assign p port' c)).
Proof.
  intros Hp Ha Hok (H1 & H2 & H3). cbn. split; [|split].
  - intros a q Hl. cbn in Hl |- *.
    destruct (H1 a q Hl) as (Hle & port0 & Hport & Haddr).
    split; [done|].
    destruct (decide (q = p)) as [->|Hne].
    + exists port'. split; [|congruence].
      apply list_lookup_insert_eq. by eapply lookup_lt_Some.
    + exists port0. by rewrite list_lookup_insert_ne.
  - unfold ports_ok. cbn. by apply Forall_insert.
  - intros q port0 Hl. cbn in Hl |- *.
    destruct (decide (q = p)) as [->|Hne].
    + rewrite list_lookup_insert_eq in Hl by (by eapply lookup_lt_Some).
      injection Hl as <-. rewrite Ha. by apply H3.
    + rewrite list_lookup_insert_ne in Hl by done. by apply H3.
Qed.

Lemma consistent_port (c : I2cController F) (p : nat) (port : I2cPort) :
  consistent c -> ports c !! p = Some port -> port_ok port.
Proof.
  intros (_ & H2 & _) Hp. unfold ports_ok in H2.
  rewrite Forall_lookup in H2. by eapply H2.
Qed.

Lemma consistent_configure_register (p : nat) (bigendian : bool)
    (width : Z) (c : I2cController F) :
  consistent c -> consistent (snd (configure_register p bigendian width c)).
Proof.
  intros Hc. unfold configure_register, bind, port_self.
  destruct (ports c !! p) as [port|] eqn:Hp; [|done].
  destruct (FORMATS !! width) as [fmt|] eqn:Hf; [|done].
  destruct (consistent_port _ _ _ Hc Hp) as (A1 & A2 & A3 & A4).
  apply (consistent_port_assign c p port); try done.
  repeat split; try done; cbn.
  - destruct bigendian; auto.
  - destruct (FORMATS_lookup_Some _ _ Hf) as [[_ ->]|[[_ ->]|[_ ->]]]; auto.
Qed.

Lemma consistent_shift_address (p : nat) (offset : Z)
    (c : I2cController F) :
  consistent c -> consistent (snd (shift_address p offset c)).
Proof.
  intros Hc. unfold shift_address, bind, port_self.
  destruct (ports c !! p) as [port|] eqn:Hp; [|done].
  unfold validate_address.
  destruct (Z.ltb_spec HIGHEST_I2C_ADDRESS (_address port + offset));
    [done|].
  destruct (consistent_port _ _ _ Hc Hp) as (A1 & A2 & A3 & A4).
  cbn [ret]. by apply (consistent_port_assign c p port).
Qed.

Lemma configure_objects (url : string) (kwargs : gmap string pyval)
    (c : I2cController F) :
  _slaves (snd (configure url kwargs c)) = _slaves c
  /\ ports (snd (configure url kwargs c)) = ports c.
Proof.
  unfold configure. destruct (requested_frequency _); try done.
  destruct (_ftdi c) as [f|]; [|done].
  destruct (open_mpsse_from_url _ _ _ _ _ f) as [f1 [e|actual]]; [done|].
  destruct (fifo_sizes f1) as [tx rx].
  set (c1 := mkController (Some f1) (_slaves c) (ports c) actual tx rx
                          (io_log c)).
  set (m := bind _ _).
  assert (Hm : keeps m).
  { apply keeps_bind; [apply keeps_lift_engine|]. intros _.
    apply keeps_bind; [apply keeps_lift_engine|]. intros _.
    intros c2 r c3 Hrun.
    destruct (lift_engine _ c2) as [r3 c4] eqn:E3.
    pose proof (keeps_lift_engine _ _ _ _ E3) as Hk.
    assert (c3 = c4) as ->; [|done].
    destruct r3 as [[]|[msg|msg|[msg|msg|name]]|];
      try destruct (negb _); by inversion Hrun. }
  destruct (Hm c1 (fst (m c1)) (snd (m c1))) as (Hs & Hp & _).
  { by destruct (m c1). }
  by rewrite Hs, Hp.
Qed.

Lemma keeps_port_self (p : nat) : keeps (@port_self F p).
Proof.
  intros c r c' Hrun. unfold port_self in Hrun.
  destruct (ports c !! p); inversion Hrun; subst; apply kept_refl.
Qed.

Lemma keeps_make_buffer (p : nat) (regaddr : Z) (out : option (list Z)) :
  keeps (@_make_buffer F p regaddr out).
Proof.
  apply keeps_bind; [apply keeps_port_self|]. intros self.
  destruct (spack _ regaddr) as [data|e|].
  - destruct out as [[|b bs]|]; apply keeps_ret.
  - apply keeps_raise.
  - intros c r c' [= <- <-]. apply kept_refl.
Qed.

Lemma consistent_after (x : api_call) (c : I2cController F) :
  consistent c -> consistent (after x c).
Proof.
  intros Hc. destruct x; cbn [after].
  - destruct (configure_objects url kwargs c) as [Hs Hp].
    by apply (consistent_same c).
  - unfold terminate. by destruct (_ftdi c).
  - by apply consistent_get_port.
  - by apply consistent_keeps; [apply keeps_flush|].
  - by apply consistent_keeps; [apply keeps_perform|].
  - by apply consistent_configure_register.
  - by apply consistent_shift_address.
  - apply consistent_keeps; [|done].
    apply keeps_bind; [apply keeps_port_self|]. intros self.
    apply keeps_read_op.
  - apply consistent_keeps; [|done].
    apply keeps_bind; [apply keeps_port_self|]. intros self.
    apply keeps_write_op.
  - apply consistent_keeps; [|done].
    apply keeps_bind; [apply keeps_port_self|]. intros self.
    apply keeps_exchange_op.
  - apply consistent_keeps; [|done].
    apply keeps_bind; [apply keeps_port_self|]. intros self.
    apply keeps_poll_op.
  - apply consistent_keeps; [|done].
    apply keeps_bind; [apply keeps_port_self|]. intros self.
    apply keeps_bind; [apply keeps_make_buffer|]. intros buf.
    apply keeps_exchange_op.
  - apply consistent_keeps; [|done].
    apply keeps_bind; [apply keeps_port_self|]. intros self.
    apply keeps_bind; [apply keeps_make_buffer|]. intros buf.
    apply keeps_write_op.
  - apply consistent_keeps; [|done].
    apply keeps_bind; [apply keeps_port_self|]. intros self.
    apply keeps_flush.
Qed.

Lemma port_ok_spack (port : I2cPort) (regaddr : Z) :
  port_ok port -> 0 <= regaddr < 256 ^ scalc (_format port) ->
  exists prefix,
    spack (_endian port ++ _format port)%string regaddr = Ok prefix.
Proof.
  intros (_ & _ & He & Hf) Hr.
  assert (Hb : forall w, 0 <= regaddr < 256 ^ w ->
                         (regaddr <? 0) || (256 ^ w <=? regaddr) = false).
  { intros w Hw. apply orb_false_iff. lia. }
  assert (Hs : forall (bigendian : bool) fmt width,
             FORMATS !! width = Some fmt -> 0 <= regaddr < 256 ^ width ->
             exists prefix,
               spack ((if bigendian then ">" else "<") ++ fmt)%string regaddr
               = Ok prefix).
  { intros b fmt w Hl Hw. rewrite (spack_formats b fmt w) by done.
    rewrite (Hb w) by done. eauto. }
  revert Hr.
  destruct He as [->| ->]; destruct Hf as [->|[->| ->]]; intros Hr.
  - exact (Hs false "B" 1 FORMATS_lookup_1 Hr).
  - exact (Hs false "H" 2 FORMATS_lookup_2 Hr).
  - exact (Hs false "I" 4 FORMATS_lookup_4 Hr).
  - exact (Hs true "B" 1 FORMATS_lookup_1 Hr).
  - exact (Hs true "H" 2 FORMATS_lookup_2 Hr).
  - exact (Hs true "I" 4 FORMATS_lookup_4 Hr).
Qed.

(** X8: in every state reached from a new controller by calls of the
    methods of the controller and of its ports (payloads being bytes
    objects), whatever the engine
    answered and whatever was raised on the way, the table holds only
    addresses up to 0x7f, each with a port object built for that
    address; every port object is in the table; two addresses never
    share a port object; and the shifted address of every port passes
    [validate_address], its register format is one of the six that
    [struct.pack] accepts, so that [_make_buffer] returns a prefix for
    every register address that fits the width. *)
Theorem reachable_ports_consistent (c : I2cController F) :
  reachable c ->
  cache_ok c /\ ports_cached c
  /\ (forall a b p,
         _slaves c !! a = Some p -> _slaves c !! b = Some p -> a = b)
  /\ (forall p port,
         ports c !! p = Some port ->
         port_ok port
         /\ validate_address (_address port + _shift port) c = (Ok tt, c)
         /\ forall regaddr,
             0 <= regaddr < 256 ^ scalc (_format port) ->
             exists prefix,
               _make_buffer p regaddr None c = (Ok prefix, c)).
Proof.
  intros Hr.
  assert (Hc : consistent c).
  { induction Hr as [|x c Hr IH]; [apply consistent_init|].
    by apply consistent_after. }
  pose proof Hc as (H1 & H2 & H3).
  split; [done|]. split; [done|]. split.
  - intros a b p Ha Hb.
    destruct (H1 a p Ha) as (_ & pa & Hpa & <-).
    destruct (H1 b p Hb) as (_ & pb & Hpb & <-). congruence.
  - intros p port Hp.
    pose proof (consistent_port _ _ _ Hc Hp) as Hok.
    split; [done|]. split.
    + apply validate_address_ok. by destruct Hok as (_ & ? & _).
    + intros regaddr Hreg.
      destruct (port_ok_spack port regaddr Hok Hreg) as (prefix & Hs).
      exists prefix. rewrite (make_buffer_run c p port) by done.
      rewrite Hs. cbn. by rewrite app_nil_r.
Qed.

End Reached.

(** ** Payloads given as lists *)

Section Payloads.
Context {F : Type} {api : FtdiApi F} {patience : Patience}.

(** A transaction whose payload is a list: the prolog, then the
    [TypeError] of [hexlify]. *)
Lemma list_body_raises {A : Type} (a : Z) (items : list Z)
    (k : unit -> @M F A) (c : I2cController F) :
  exists e,
    fst (bind (_do_prolog a)
              (fun _ => bind (_do_write_logged (PyList items)) k) c)
    = Raise e.
Proof.
  unfold bind. pose proof (prolog_ends (fun _ => True) a c I) as Hp.
  destruct (_do_prolog a c) as [[[]|e|] c1]; cbn in *; eauto. done.
Qed.

Lemma retry_loop_raises {A : Type} (body : @M F A) (fuel : nat) :
  (forall c, exists e, fst (body c) = Raise e) ->
  forall retries c,
    1 <= retries -> (Z.to_nat retries <= fuel)%nat ->
    exists e, fst (retry_loop fuel body retries c) = Raise e.
Proof.
  intros Hb. induction fuel as [|fuel IH]; intros retries c Hr Hf; [lia|].
  cbn [retry_loop]. unfold bind, attempt, try_finally, except_nack.
  destruct (Hb c) as [e He]. destruct (body c) as [rb c0]. cbn in He.
  subst rb. pose proof (epilog_ends c0) as Hnd.
  destruct e as [msg|msg|f];
    try destruct (Z.eqb_spec (retries - 1) 0) as [E|E];
    destruct (_do_epilog c0) as [[[]|e'|] c2]; cbn in Hnd |- *;
    try done; eauto.
  apply IH; lia.
Qed.

Lemma guarded_raises {A : Type} (address : Z) (k : @M F A)
    (c : I2cController F) :
  (exists e, fst (k c) = Raise e) ->
  exists e,
    fst (bind check_ftdi
              (fun _ => bind (validate_address address) (fun _ => k)) c)
    = Raise e.
Proof.
  intros Hk. unfold bind, check_ftdi, validate_address.
  destruct (_ftdi c); [|by eauto]. destruct (_ <? _); cbn; eauto.
Qed.

Lemma write_logged_list_raises (address : Z) (items : list Z)
    (c : I2cController F) :
  exists e, fst (write_logged address (PyList items) c) = Raise e.
Proof.
  unfold write_logged. apply guarded_raises.
  destruct (_ =? _)%nat; [by eexists|].
  apply retry_loop_raises; [|done|done].
  intros c0.
  destruct (list_body_raises (Z.land (Z.shiftl address 1) HIGH) items
              (fun _ => ret tt) c0) as [e He].
  exists e. revert He. unfold bind.
  destruct (_do_prolog _ c0) as [[[]|e'|] c1]; done.
Qed.

Lemma exchange_logged_list_raises (address : Z) (items : list Z)
    (readlen : Z) (c : I2cController F) :
  exists e, fst (exchange_logged address (PyList items) readlen c) = Raise e.
Proof.
  unfold exchange_logged. apply guarded_raises.
  destruct (_ =? _)%nat; [by eexists|].
  destruct (_ <? _); [by eexists|].
  destruct (payload_too_large _); [by eexists|].
  apply retry_loop_raises; [|done|done].
  intros c0. apply list_body_raises.
Qed.

Lemma bind_raise_first {A B : Type} (m : @M F A) (k : A -> @M F B)
    (c : I2cController F) :
  (exists e, fst (m c) = Raise e) -> exists e, fst (bind m k c) = Raise e.
Proof.
  intros [e He]. unfold bind. destruct (m c) as [r c1]. cbn in He.
  subst r. by exists e.
Qed.

Lemma read_it_raises (c : I2cController F) :
  exists e, fst (read_it c) = Raise e.
Proof.
  unfold read_it. unfold bind at 1.
  destruct (get_port 0x21 c) as [[p|e|] c1] eqn:Eg; cbn [fst]; eauto.
  - apply bind_raise_first. unfold port_exchange_logged, bind, port_self.
    destruct (ports c1 !! p) as [port|]; [|by eexists].
    apply exchange_logged_list_raises.
  - exfalso. revert Eg. unfold get_port, bind, check_ftdi, validate_address.
    destruct (_ftdi c); [|done]. cbn. by destruct (_slaves c !! 0x21).
Qed.

Lemma lift_engine_ends (step : F -> F * option foreign_exn)
    (c : I2cController F) :
  fst (lift_engine step c) <> Diverge.
Proof.
  unfold lift_engine. destruct (_ftdi c) as [f|]; [|done].
  by destruct (step f) as [f' [e|]].
Qed.

Lemma configure_ends (url : string) (kwargs : gmap string pyval)
    (c : I2cController F) :
  fst (configure url kwargs c) <> Diverge.
Proof.
  unfold configure.
  pose proof (requested_frequency_ends
                (delete "initial" (delete "direction" kwargs))) as Hnd.
  destruct (requested_frequency _); try done.
  destruct (_ftdi c) as [f|]; [|done].
  destruct (open_mpsse_from_url _ _ _ _ _ f) as [f1 [e|actual]]; [done|].
  destruct (fifo_sizes f1) as [tx rx]. unfold bind.
  set (c1 := mkController _ _ _ _ _ _ _).
  pose proof (lift_engine_ends (enable_adaptive_clock false) c1) as H1.
  destruct (lift_engine _ c1) as [[[]|e|] c2]; try done.
  pose proof (lift_engine_ends (enable_3phase_clock true) c2) as H2.
  destruct (lift_engine _ c2) as [[[]|e|] c3]; try done.
  pose proof (lift_engine_ends
                (enable_drivezero_mode
                   (Z.lor (Z.lor SCL_BIT SDA_O_BIT) SDA_I_BIT)) c3) as H3.
  destruct (lift_engine _ c3) as [[[]|[msg|msg|[msg|msg|name]]|] c4];
    try done.
  by destruct (negb _).
Qed.

(** X12: a payload given as a list of integers, as in the example of
    the docstring of [I2cPort], is never written: [write] and
    [exchange] always raise, because the arguments of the debug message
    of [_do_write] hand the list to [hexlify].  When the slave
    acknowledges its address and the stop sequence goes through,
    [write] ends with that [TypeError] after one attempt, no payload
    byte sent.  With a bytes object the two methods are the ones
    studied above. *)
Theorem list_payload_raises (address : Z) (items : list Z) (readlen : Z)
    (c : I2cController F) :
  (exists e, fst (write_logged address (PyList items) c) = Raise e)
  /\ (exists e,
         fst (exchange_logged address (PyList items) readlen c) = Raise e)
  /\ (forall f c1 c2,
         _ftdi c = Some f -> address <= HIGHEST_I2C_ADDRESS ->
         items <> [] ->
         _do_prolog (Z.land (Z.shiftl address 1) HIGH) c = (Ok tt, c1) ->
         _do_epilog c1 = (Ok tt, c2) ->
         write_logged address (PyList items) c
         = (Raise (Foreign (BuiltinError "TypeError")), c2))
  /\ write_logged address (PyBytes items) c = write address items c
  /\ exchange_logged address (PyBytes items) readlen c
     = exchange address items readlen c.
Proof.
  split; [apply write_logged_list_raises|].
  split; [apply exchange_logged_list_raises|].
  split; [|split; reflexivity].
  intros f c1 c2 Hf Ha Hi Hp He. unfold write_logged.
  rewrite (guard_passed _ _ f) by done.
  destruct items as [|b bs]; [done|]. cbn [payload_items length Nat.eqb].
  change (Z.to_nat RETRY_COUNT) with 3%nat. cbn [retry_loop].
  unfold bind at 1. unfold attempt, try_finally, except_nack.
  unfold bind at 1. rewrite Hp. cbn. by rewrite He.
Qed.

End Payloads.

(** ** The test case *)

(** X13: [I2cTest.read_it] hands the list [[0x04]] to [exchange], so
    that it raises on every bridge and in every state, and with it the
    test case [test_i2c], which never gets to [write_it].  On a bus
    whose slave acknowledges, the test ends with the [TypeError] after
    the address byte and the stop sequence. *)
Theorem test_i2c_raises_at_read_it :
  (forall (F : Type) (api : FtdiApi F) (patience : Patience)
          (c : I2cController F),
      (exists e, fst (read_it c) = Raise e)
      /\ (exists e, fst (test_i2c c) = Raise e))
  /\ (let rc := test_i2c (api := ack_engine)
                       (I2cController__init__ (api := ack_engine)) in
      fst rc = Raise (Foreign (BuiltinError "TypeError"))
      /\ io_log (snd rc)
         = [EvWrite (Some (prolog_cmd (api := ack_engine) 0x42)) None;
            EvRead 1 4 (inr [0]);
            EvWrite (Some (_stop (api := ack_engine))) None;
            EvRead 1 1 (inr [0])]).
Proof.
  split; [|by vm_compute].
  intros F api patience c. split; [apply read_it_raises|].
  unfold test_i2c. unfold bind at 1.
  pose proof (configure_ends "ftdi://ftdi:2232h/1" ∅ c) as Hnd.
  unfold I2cTest_open.
  destruct (configure _ _ c) as [[[]|e|] c1]; cbn [fst] in *; eauto; [|done].
  apply bind_raise_first, read_it_raises.
Qed.

(** ** The properties of the module at work *)

(** A read of 1000 bytes on an FT2232H: three chunks. *)
Lemma do_read_chunks_witness :
  let rc := _do_read (api := ack_engine) 1000 bench in
  fst rc <> Diverge
  /\ exists t,
      io_log (snd rc) = io_log bench ++ t
      /\ Forall (nack_terminated (api := ack_engine)) (sent_commands t)
      /\ forall data,
          fst rc = Ok data ->
          fold_right Z.add 0 (sizes_requested t) = 1000
          /\ length (sent_commands t) = length (sizes_requested t)
          /\ (Forall faithful t -> Z.of_nat (length data) = 1000)
          /\ (read_chunk_size (api := ack_engine)
                              (_tx_size bench) (_rx_size bench) < 1000 ->
              (2 <= length (sent_commands t))%nat).
Proof.
  intros rc.
  apply (do_read_chunks (api := ack_engine) 1000 bench (snd rc) (fst rc));
    [by eexists|vm_compute; intros H; discriminate H|lia|apply run_pair].
Defined.

(** A controller that was not configured: its FIFO sizes are 1 and 1. *)
Lemma read_never_returns_without_chunk_witness :
  let c := I2cController__init__ (api := ack_engine) in
  ~ chunk_positive (api := ack_engine) c
  /\ (forall data, fst (read (api := ack_engine) 0x21 1 c) <> Ok data)
  /\ (forall out data,
         fst (exchange (api := ack_engine) 0x21 out 1 c) <> Ok data).
Proof.
  intros c.
  assert (H : ~ chunk_positive (api := ack_engine) c).
  { vm_compute. intros H. by apply H. }
  split; [exact H|].
  exact (proj2 (proj2 (read_never_returns_without_chunk
                         (api := ack_engine) c 0x21 1 H))).
Defined.

(** Three bytes asked for, one byte answered: the byte is returned. *)
Lemma do_read_returns_replies_witness :
  let c := scripted [inr [7]] in
  let rc := _do_read (api := scripted_engine) 3 c in
  fst rc = Ok [7]
  /\ exists t,
      io_log (snd rc) = io_log c ++ t
      /\ [7] = concat (read_buffers t)
      /\ length (read_buffers t) = length (sizes_requested t)
      /\ fold_right Z.add 0 (sizes_requested t) = 3.
Proof.
  intros c rc. split; [reflexivity|].
  apply (do_read_returns_replies (api := scripted_engine) 3 c (snd rc) [7]);
    [by eexists|vm_compute; intros H; discriminate H|lia|reflexivity].
Defined.

Lemma perform_ends_witness :
  fst (perform (api := ack_engine) (CallRead 0x21 1000) bench) <> Diverge.
Proof.
  apply (perform_ends (api := ack_engine) (CallRead 0x21 1000) bench).
  vm_compute. intros H. discriminate H.
Defined.

(** On a bus with no slave [poll] returns [False]. *)
Lemma poll_reports_ack_witness :
  let rc := poll (api := nack_engine) 0x21 bench in
  fst rc = Ok false
  /\ exists x tl buf,
      io_log (snd rc)
      = io_log bench
          ++ [EvWrite (Some (prolog_cmd (api := nack_engine)
                               (Z.lor (Z.land (Z.shiftl 0x21 1) HIGH) BIT0)))
                      None;
              EvRead 1 4 (inr (x :: tl));
              EvWrite (Some (_stop (api := nack_engine))) None;
              EvRead 1 1 (inr buf)]
      /\ false = (Z.land x BIT0 =? 0).
Proof.
  intros rc. split; [reflexivity|].
  apply (poll_reports_ack (api := nack_engine) 0x21 bench (snd rc) false).
  reflexivity.
Defined.

(** A new controller configured on a bridge without the drive-zero
    mode, at 0.1 Hz and with no [notristate] option: the bridge is asked
    for 0.15000000000000002 Hz, and the error is dropped. *)
Lemma configure_outcome_witness :
  let c := I2cController__init__ (api := tristate_engine) in
  let kwargs : gmap string pyval :=
    {["frequency" := PyFloat 0x1.999999999999ap-4%float]} in
  let rc := configure (api := tristate_engine) "ftdi://ftdi:2232h/1"
                      kwargs c in
  requested_frequency kwargs = Ok 0x1.3333333333334p-3%float
  /\ requested_frequency kwargs <> Ok 0x1.3333333333333p-3%float
  /\ fst rc = Ok tt
  /\ (_tx_size (snd rc), _rx_size (snd rc)) = (4096, 4096).
Proof.
  intros c kwargs rc.
  destruct (configure_outcome (api := tristate_engine)
              "ftdi://ftdi:2232h/1" kwargs c (snd rc) tt
              (fst rc) eq_refl (run_pair rc))
    as (_ & _ & _ & _ & _ & Hflt & Hres).
  assert (Hreq : requested_frequency kwargs = Ok 0x1.3333333333334p-3%float).
  { rewrite (Hflt 0x1.999999999999ap-4%float); reflexivity. }
  split; [exact Hreq|]. split.
  { rewrite Hreq. intros H.
    pose proof (f_equal (fun o : outcome float =>
                           match o with
                           | Ok x => PrimFloat.eqb x 0x1.3333333333333p-3
                           | _ => false
                           end) H) as H'.
    vm_compute in H'. discriminate H'. }
  rewrite Hreq in Hres. destruct Hres as (f1 & res & Ho & Hres).
  vm_compute in Ho. injection Ho as <- <-.
  destruct Hres as (_ & Hsz & Hdz).
  destruct (Hdz tt tt tt _ eq_refl eq_refl eq_refl) as [_ Hr].
  split; [exact Hr|exact Hsz].
Defined.

(** A port obtained, set to two-byte registers and shifted by one. *)
Lemma reachable_ports_consistent_witness :
  let c := after (api := ack_engine) (ApiShiftAddress 0 1)
             (after (api := ack_engine) (ApiConfigureRegister 0 true 2)
                (after (api := ack_engine) (ApiGetPort 0x21)
                       (I2cController__init__ (api := ack_engine)))) in
  reachable (api := ack_engine) c
  /\ cache_ok c /\ ports_cached c
  /\ (forall a b p,
         _slaves c !! a = Some p -> _slaves c !! b = Some p -> a = b)
  /\ (forall p port,
         ports c !! p = Some port ->
         port_ok port
         /\ validate_address (_address port + _shift port) c = (Ok tt, c)
         /\ forall regaddr,
             0 <= regaddr < 256 ^ scalc (_format port) ->
             exists prefix,
               _make_buffer p regaddr None c = (Ok prefix, c)).
Proof.
  intros c.
  assert (H : reachable (api := ack_engine) c).
  { do 3 apply reachable_step. apply reachable_init. }
  split; [exact H|].
  exact (reachable_ports_consistent (api := ack_engine) c H).
Defined.

(** The register 0x0102 of a port set to two bytes, big endian. *)
Lemma register_prefix_round_trip_witness :
  let c1 := snd (configure_register 0 true 2 bench_with_port) in
  exists prefix,
    Z.of_nat (length prefix) = 2
    /\ Forall (fun b => 0 <= b < 256) prefix
    /\ register_of ">" prefix = 0x0102
    /\ (forall out,
           write_to (api := ack_engine) 0 0x0102 out c1
           = write (api := ack_engine) (0x21 + 0) (prefix ++ out) c1)
    /\ (forall readlen,
           read_from (api := ack_engine) 0 0x0102 readlen c1
           = exchange (api := ack_engine) (0x21 + 0) prefix readlen c1).
Proof.
  intros c1.
  apply (proj2 (proj2 (register_prefix_round_trip (api := ack_engine)
                         bench_with_port c1 0 (mkPort 0x21 0 "<" "B")
                         true 2 0x0102 eq_refl eq_refl))).
  lia.
Defined.

(** The port of address 0x21 shifted by 0x5f: 0x80 is no address. *)
Lemma shift_address_replaces_witness :
  shift_address 0 0x5f bench_with_port
  = (Raise (I2cIOError "No such I2c slave"), bench_with_port).
Proof.
  apply (proj1 (shift_address_replaces (api := ack_engine) bench_with_port
                  0 (mkPort 0x21 0 "<" "B") 0x5f eq_refl)).
  reflexivity.
Defined.
